(** * IGCSE pseudocode compiler: tokenizer, parser, semantic analyzer,
      Python generator, facade and emitted runtime helpers

    The development follows the TypeScript sources module by module:
    [tokenizer.ts], [parser.ts], [semantics.ts], [codegen.ts] and the
    facade [compilePseudocode]; the Python helpers that the generator
    writes into every program ([__inclusive_range], [OPENFILE],
    [READFILE], ...) are modelled in [Runtime]. *)

From Stdlib Require Import ZArith NArith List Bool String Ascii Lia.
From Stdlib Require Import DecimalString.
From Stdlib Require Import Sorting.Sorted.
From stdpp Require Import gmap strings.
Import ListNotations.

Local Open Scope Z_scope.
Local Set Warnings "-register-all".

(** ** JavaScript values used by the compiler *)

Module Js.

(** A JavaScript string is a sequence of UTF-16 code units. *)
Abbreviation jsstring := (list N).

(** The code units of an ASCII literal. *)
Definition js (s : string) : jsstring :=
  map N_of_ascii (list_ascii_of_string s).

Definition isUpperUnit (c : N) : bool := ((65 <=? c) && (c <=? 90))%N.
Definition isLowerUnit (c : N) : bool := ((97 <=? c) && (c <=? 122))%N.
Definition isDigitUnit (c : N) : bool := ((48 <=? c) && (c <=? 57))%N.
Definition isLetterUnit (c : N) : bool := isUpperUnit c || isLowerUnit c.

(** [String.prototype.toLowerCase] and [toUpperCase] on strings of
    ASCII code units, where case mapping exchanges [A-Z] and [a-z] and
    leaves every other code unit as it is.  The lexemes of identifier
    and keyword tokens match [[A-Za-z][A-Za-z0-9]*] and are such
    strings.  Code units from 128 on are left as they are here, while
    the engine also maps letters outside ASCII; a statement that
    depends on two names having different keys is made for ASCII names
    ([isAscii]). *)
Definition toLowerCase (s : jsstring) : jsstring :=
  map (fun c => if isUpperUnit c then (c + 32)%N else c) s.

Definition toUpperCase (s : jsstring) : jsstring :=
  map (fun c => if isLowerUnit c then (c - 32)%N else c) s.

(** Every code unit is below 128. *)
Definition isAscii (s : jsstring) : bool := forallb (fun c => (c <? 128)%N) s.

Definition streq (a b : jsstring) : bool := bool_decide (a = b).

(** [Array.prototype.includes] on an array of strings. *)
Definition includes (l : list jsstring) (s : jsstring) : bool :=
  existsb (streq s) l.

(** [s.slice(1, -1)]: drop the first and the last code unit. *)
Definition slice_1_m1 (s : jsstring) : jsstring :=
  removelast (tl s).

(** *** Plain objects used as dictionaries

    [Record<string, V>] values are object literals: a property read
    [o[k]] looks at the own properties first and then at
    [Object.prototype].  Own properties are a finite map; the names
    defined on [Object.prototype] are listed below. *)

Definition objectPrototypeKeys : list jsstring :=
  [ js "constructor"; js "__defineGetter__"; js "__defineSetter__";
    js "hasOwnProperty"; js "__lookupGetter__"; js "__lookupSetter__";
    js "isPrototypeOf"; js "propertyIsEnumerable"; js "toString";
    js "valueOf"; js "__proto__"; js "toLocaleString" ].

(** Result of a property read [o[k]]: an own value, a value inherited
    from [Object.prototype] (a function object, or the prototype itself
    for [__proto__]), or [undefined]. *)
Inductive Property (V : Type) : Type :=
| Own (v : V)
| Inherited
| Undefined.
Arguments Own {V} v.
Arguments Inherited {V}.
Arguments Undefined {V}.

Definition getProperty {V} (o : gmap jsstring V) (k : jsstring) : Property V :=
  if streq k (js "__proto__") then Inherited
  else match o !! k with
       | Some v => Own v
       | None => if includes objectPrototypeKeys k then Inherited else Undefined
       end.

(** [o[k] = v].  Writing [__proto__] runs the accessor of
    [Object.prototype], which ignores a value that is not an object and
    never creates an own property; the dictionaries written under
    arbitrary keys hold strings, and identifier keys contain no
    underscore. *)
Definition setProperty {V} (o : gmap jsstring V) (k : jsstring) (v : V)
  : gmap jsstring V :=
  if streq k (js "__proto__") then o else <[k := v]> o.

(** [delete o[k]] removes an own property. *)
Definition deleteProperty {V} (o : gmap jsstring V) (k : jsstring)
  : gmap jsstring V :=
  delete k o.

(** Truthiness of a property read whose own values are objects or
    non-empty strings. *)
Definition truthy {V} (p : Property V) : bool :=
  match p with
  | Undefined => false
  | _ => true
  end.

(** Outcome of running JavaScript code: a returned value or a thrown
    exception.  [OutOfFuel] belongs to the model only: recursive
    descent is defined by recursion on a step budget.  The exception
    an engine throws when nested calls exhaust its call stack (a
    [RangeError], at a depth that depends on the engine) is not
    modelled: what is said of a run here is said of the runs that stay
    within the stack. *)
Inductive JsError : Type := TypeError.

(** Completion of a call: a normal return or a throw. *)
Inductive Completion (A : Type) : Type :=
| Normal (a : A)
| Throw (e : JsError).
Arguments Normal {A} a.
Arguments Throw {A} e.

Inductive Outcome (A : Type) : Type :=
| Returned (a : A)
| Thrown (e : JsError)
| OutOfFuel.
Arguments Returned {A} a.
Arguments Thrown {A} e.
Arguments OutOfFuel {A}.

End Js.
Import Js.

(** ** Shared data model ([types.ts]) *)

Module Types.

Inductive Severity : Type := SevError | SevWarning | SevInfo.

(** [Diagnostic].  The free-text fields [message] and [hint] are not
    read by any code path and are left out. *)
Record Diagnostic : Type := mkDiagnostic {
  code : jsstring;
  severity : Severity;
  line : Z;
  column : Z;
  endLine : Z;
  endColumn : Z
}.

Record SourceSpan : Type := mkSpan {
  startLine : Z;
  startColumn : Z;
  spanEndLine : Z;
  spanEndColumn : Z
}.

Inductive BasicTypeName : Type := INTEGER | REAL | CHAR | STRING | BOOLEAN.

Record Dimension : Type := mkDimension { lower : Z; upper : Z }.

Inductive TypeNode : Type :=
| TNBasic (name : BasicTypeName) (span : SourceSpan)
| TNArray (elementType : BasicTypeName) (dimensions : list Dimension)
          (span : SourceSpan).

(** A number held by a literal node: the value of [Number.parseInt] on
    an integer lexeme, or [Number.parseFloat] of a real lexeme, kept as
    the decimal numeral it was read from. *)
Inductive JsNumber : Type :=
| NumInt (z : Z)
| NumReal (numeral : jsstring).

Inductive LiteralValue : Type :=
| LNumber (n : JsNumber)
| LString (s : jsstring)
| LBoolean (b : bool).

Inductive UnaryOperator : Type := OpMinus | OpNOT.

(** [ExpressionNode]: one constructor per [kind]. *)
Inductive ExpressionNode : Type :=
| ELiteral (value : LiteralValue) (literalType : BasicTypeName) (span : SourceSpan)
| EIdentifier (name : jsstring) (span : SourceSpan)
| EUnary (operator : UnaryOperator) (operand : ExpressionNode) (span : SourceSpan)
| EBinary (operator : jsstring) (left right : ExpressionNode) (span : SourceSpan)
| ECall (name : jsstring) (args : list ExpressionNode) (span : SourceSpan)
| EArrayAccess (name : jsstring) (indices : list ExpressionNode) (span : SourceSpan).

Definition exprSpan (e : ExpressionNode) : SourceSpan :=
  match e with
  | ELiteral _ _ s | EIdentifier _ s | EUnary _ _ s
  | EBinary _ _ _ s | ECall _ _ s | EArrayAccess _ _ s => s
  end.

(** [{ ...expression, span }]. *)
Definition withSpan (e : ExpressionNode) (s : SourceSpan) : ExpressionNode :=
  match e with
  | ELiteral v t _ => ELiteral v t s
  | EIdentifier n _ => EIdentifier n s
  | EUnary o e' _ => EUnary o e' s
  | EBinary o l r _ => EBinary o l r s
  | ECall n a _ => ECall n a s
  | EArrayAccess n i _ => EArrayAccess n i s
  end.

Record IdentifierNode : Type := mkIdentifier {
  identName : jsstring;
  identSpan : SourceSpan
}.

Record ParameterNode : Type := mkParameter {
  paramName : jsstring;
  paramTypeNode : TypeNode;
  paramSpan : SourceSpan
}.

Inductive FileMode : Type := READ | WRITE.

(** [StatementNode]: one constructor per [kind].  Assignment targets
    ([IdentifierNode | ArrayAccessNode]) are expression nodes of those
    two kinds; a CASE clause is a triple [(value, statement, span)]. *)
Inductive StatementNode : Type :=
| SDeclare (identifier : IdentifierNode) (typeNode : TypeNode) (span : SourceSpan)
| SConstant (identifier : IdentifierNode) (value : ExpressionNode) (span : SourceSpan)
| SAssignment (target value : ExpressionNode) (span : SourceSpan)
| SInput (target : ExpressionNode) (span : SourceSpan)
| SOutput (values : list ExpressionNode) (span : SourceSpan)
| SIf (condition : ExpressionNode) (thenBody elseBody : list StatementNode)
      (span : SourceSpan)
| SCase (expression : ExpressionNode)
        (clauses : list (option ExpressionNode * StatementNode * SourceSpan))
        (span : SourceSpan)
| SFor (iterator : IdentifierNode) (startValue endValue : ExpressionNode)
       (stepValue : option ExpressionNode) (body : list StatementNode)
       (span : SourceSpan)
| SRepeat (body : list StatementNode) (condition : ExpressionNode) (span : SourceSpan)
| SWhile (condition : ExpressionNode) (body : list StatementNode) (span : SourceSpan)
| SProcedureDefinition (name : jsstring) (params : list ParameterNode)
                       (body : list StatementNode) (span : SourceSpan)
| SFunctionDefinition (name : jsstring) (params : list ParameterNode)
                      (returnType : BasicTypeName) (body : list StatementNode)
                      (span : SourceSpan)
| SCallStatement (name : jsstring) (args : list ExpressionNode) (span : SourceSpan)
| SReturn (value : ExpressionNode) (span : SourceSpan)
| SOpenFile (fileIdentifier : ExpressionNode) (mode : FileMode) (span : SourceSpan)
| SReadFile (fileIdentifier target : ExpressionNode) (span : SourceSpan)
| SWriteFile (fileIdentifier value : ExpressionNode) (span : SourceSpan)
| SCloseFile (fileIdentifier : ExpressionNode) (span : SourceSpan).

Definition stmtSpan (s : StatementNode) : SourceSpan :=
  match s with
  | SDeclare _ _ sp | SConstant _ _ sp | SAssignment _ _ sp | SInput _ sp
  | SOutput _ sp | SIf _ _ _ sp | SCase _ _ sp | SFor _ _ _ _ _ sp
  | SRepeat _ _ sp | SWhile _ _ sp | SProcedureDefinition _ _ _ sp
  | SFunctionDefinition _ _ _ _ sp | SCallStatement _ _ sp | SReturn _ sp
  | SOpenFile _ _ sp | SReadFile _ _ sp | SWriteFile _ _ sp
  | SCloseFile _ sp => sp
  end.

Record ProgramNode : Type := mkProgram {
  programBody : list StatementNode;
  programSpan : SourceSpan
}.

Inductive StaticType : Type :=
| TUnknown
| TBasic (name : BasicTypeName)
| TArray (elementType : BasicTypeName) (dimensions : list Dimension).

Record FunctionSignature : Type := mkFunctionSignature {
  fsName : jsstring;
  fsParams : list StaticType;
  fsReturnType : StaticType
}.

Record ProcedureSignature : Type := mkProcedureSignature {
  psName : jsstring;
  psParams : list StaticType
}.

Record SemanticResult : Type := mkSemanticResult {
  srDiagnostics : list Diagnostic;
  srSymbolTypes : gmap jsstring StaticType;
  srFunctionSignatures : gmap jsstring FunctionSignature;
  srProcedureSignatures : gmap jsstring ProcedureSignature
}.

(** [CompileResult]; [astJson] is [JSON.stringify(ast, null, 2)] and is
    kept as the tree it serialises. *)
Record CompileResult : Type := mkCompileResult {
  success : bool;
  diagnostics : list Diagnostic;
  astJson : option ProgramNode;
  pythonCode : option jsstring
}.

Record CompileRequest : Type := mkCompileRequest {
  source : jsstring;
  filename : jsstring
}.

Definition basicTypeName_eqb (a b : BasicTypeName) : bool :=
  match a, b with
  | INTEGER, INTEGER | REAL, REAL | CHAR, CHAR | STRING, STRING
  | BOOLEAN, BOOLEAN => true
  | _, _ => false
  end.

(** The keyword spelling of a basic type name. *)
Definition basicTypeText (t : BasicTypeName) : jsstring :=
  match t with
  | INTEGER => js "INTEGER"
  | REAL => js "REAL"
  | CHAR => js "CHAR"
  | STRING => js "STRING"
  | BOOLEAN => js "BOOLEAN"
  end.

(** [BASIC_TYPES.has(keyword)], returning the type it names. *)
Definition basicTypeOfKeyword (k : option jsstring) : option BasicTypeName :=
  match k with
  | None => None
  | Some k =>
      if streq k (js "INTEGER") then Some INTEGER
      else if streq k (js "REAL") then Some REAL
      else if streq k (js "CHAR") then Some CHAR
      else if streq k (js "STRING") then Some STRING
      else if streq k (js "BOOLEAN") then Some BOOLEAN
      else None
  end.


(** Diagnostics that are all of severity [error]. *)
Definition errorsOnly (ds : list Diagnostic) : Prop :=
  Forall (fun d => severity d = SevError) ds.

End Types.
Import Types.

(** ** Tokenizer ([tokenizer.ts]) *)

Module Tokenizer.

Inductive TokenType : Type :=
| EOF | NEWLINE | IDENTIFIER | INTEGER_LITERAL | REAL_LITERAL
| STRING_LITERAL | CHAR_LITERAL | KEYWORD | ASSIGN | COLON | COMMA
| LPAREN | RPAREN | LBRACKET | RBRACKET | PLUS | MINUS | STAR | SLASH
| CARET | EQ | LT | LTE | GT | GTE | NEQ.

Definition tokenType_eqb (a b : TokenType) : bool :=
  match a, b with
  | EOF, EOF | NEWLINE, NEWLINE | IDENTIFIER, IDENTIFIER
  | INTEGER_LITERAL, INTEGER_LITERAL | REAL_LITERAL, REAL_LITERAL
  | STRING_LITERAL, STRING_LITERAL | CHAR_LITERAL, CHAR_LITERAL
  | KEYWORD, KEYWORD | ASSIGN, ASSIGN | COLON, COLON | COMMA, COMMA
  | LPAREN, LPAREN | RPAREN, RPAREN | LBRACKET, LBRACKET
  | RBRACKET, RBRACKET | PLUS, PLUS | MINUS, MINUS | STAR, STAR
  | SLASH, SLASH | CARET, CARET | EQ, EQ | LT, LT | LTE, LTE | GT, GT
  | GTE, GTE | NEQ, NEQ => true
  | _, _ => false
  end.

Record Token : Type := mkToken {
  type : TokenType;
  lexeme : jsstring;
  keyword : option jsstring;
  span : SourceSpan
}.

Definition KEYWORDS : list jsstring :=
  map js
    [ "DECLARE"; "CONSTANT"; "ARRAY"; "OF"; "INTEGER"; "REAL"; "CHAR";
      "STRING"; "BOOLEAN"; "INPUT"; "OUTPUT"; "IF"; "THEN"; "ELSE";
      "ENDIF"; "CASE"; "OTHERWISE"; "ENDCASE"; "FOR"; "TO"; "STEP";
      "NEXT"; "REPEAT"; "UNTIL"; "WHILE"; "DO"; "ENDWHILE"; "PROCEDURE";
      "ENDPROCEDURE"; "FUNCTION"; "RETURNS"; "ENDFUNCTION"; "CALL";
      "RETURN"; "OPENFILE"; "READFILE"; "WRITEFILE"; "CLOSEFILE"; "READ";
      "WRITE"; "TRUE"; "FALSE"; "AND"; "OR"; "NOT"; "DIV"; "MOD";
      "LENGTH"; "LCASE"; "UCASE"; "SUBSTRING"; "ROUND"; "RANDOM" ]%string.

(** Code units the scanner tests for. *)
Definition cNUL : N := 0.
Definition cTAB : N := 9.
Definition cLF : N := 10.
Definition cCR : N := 13.
Definition cSPACE : N := 32.
Definition cDQUOTE : N := 34.
Definition cQUOTE : N := 39.
Definition cMODQUOTE : N := 42892.   (* U+A78C *)
Definition cARROW : N := 8592.       (* U+2190 *)
Definition cSLASH : N := 47.
Definition cLESS : N := 60.
Definition cGREATER : N := 62.
Definition cEQUALS : N := 61.
Definition cDASH : N := 45.
Definition cDOT : N := 46.

(** The table [singleCharTokens]. *)
Definition singleCharTokens (char : N) : option TokenType :=
  if (char =? 58)%N then Some COLON
  else if (char =? 44)%N then Some COMMA
  else if (char =? 40)%N then Some LPAREN
  else if (char =? 41)%N then Some RPAREN
  else if (char =? 91)%N then Some LBRACKET
  else if (char =? 93)%N then Some RBRACKET
  else if (char =? 43)%N then Some PLUS
  else if (char =? 45)%N then Some MINUS
  else if (char =? 42)%N then Some STAR
  else if (char =? 47)%N then Some SLASH
  else if (char =? 94)%N then Some CARET
  else if (char =? 61)%N then Some EQ
  else if (char =? 60)%N then Some LT
  else if (char =? 62)%N then Some GT
  else None.

(** The local variables of [tokenize]; [rest] is [source] from [index]
    on. *)
Record LexState : Type := mkLexState {
  rest : jsstring;
  lxLine : Z;
  lxColumn : Z;
  tokens : list Token;
  lxDiagnostics : list Diagnostic
}.

(** [source[index] ?? NUL] and [source[index + 1] ?? NUL]. *)
Definition current (st : LexState) : N := hd cNUL (rest st).
Definition peek (st : LexState) : N := hd cNUL (tl (rest st)).

Definition advance (st : LexState) : N * LexState :=
  let char := current st in
  (char,
   if (char =? cLF)%N
   then mkLexState (tl (rest st)) (lxLine st + 1) 1 (tokens st) (lxDiagnostics st)
   else mkLexState (tl (rest st)) (lxLine st) (lxColumn st + 1) (tokens st)
                   (lxDiagnostics st)).

Definition addToken (ty : TokenType) (lx : jsstring)
    (sl sc el ec : Z) (kw : option jsstring) (st : LexState) : LexState :=
  mkLexState (rest st) (lxLine st) (lxColumn st)
             (tokens st ++ [mkToken ty lx kw (mkSpan sl sc el ec)])
             (lxDiagnostics st).

Definition pushLexDiagnostic (c : string) (l col el ec : Z) (st : LexState)
  : LexState :=
  mkLexState (rest st) (lxLine st) (lxColumn st) (tokens st)
             (lxDiagnostics st ++ [mkDiagnostic (js c) SevError l col el ec]).

(** [while (p(current())) lexeme += advance()].  Every predicate used
    below is false on NUL, so the loop runs at most once per remaining
    code unit; [n] is that number. *)
Fixpoint advanceWhile (n : nat) (p : N -> bool) (st : LexState)
  : jsstring * LexState :=
  match n with
  | O => ([], st)
  | S n' =>
      if p (current st)
      then let '(c, st1) := advance st in
           let '(l, st2) := advanceWhile n' p st1 in
           (c :: l, st2)
      else ([], st)
  end.

Definition scanWhile (p : N -> bool) (st : LexState) : jsstring * LexState :=
  advanceWhile (length (rest st)) p st.

Definition isAlnumUnit (c : N) : bool := isLetterUnit c || isDigitUnit c.

(** A quoted literal opened by [quote]: string ([SYN008]) or character
    ([SYN009]) literal. *)
Definition scanQuoted (quote : N) (ty : TokenType) (errCode : string)
    (startLine startColumn : Z) (st : LexState) : LexState :=
  let '(c0, st1) := advance st in
  let '(body, st2) :=
    scanWhile (fun c => negb (c =? quote)%N && negb (c =? cLF)%N
                        && negb (c =? cNUL)%N) st1 in
  let lexeme0 := c0 :: body in
  let '(lexeme1, st3) :=
    if negb (current st2 =? quote)%N
    then (lexeme0,
          pushLexDiagnostic errCode startLine startColumn
                            (lxLine st2) (lxColumn st2) st2)
    else let '(c1, st') := advance st2 in (lexeme0 ++ [c1], st') in
  addToken ty lexeme1 startLine startColumn (lxLine st3) (lxColumn st3 - 1)
           None st3.

(** One iteration of the main loop, for a non-empty remaining input. *)
Definition tokenizeStep (st : LexState) : LexState :=
  let char := current st in
  if (char =? cSPACE)%N || (char =? cTAB)%N || (char =? cCR)%N
  then snd (advance st)
  else if (char =? cLF)%N then
    let startLine := lxLine st in
    let startColumn := lxColumn st in
    let st1 := snd (advance st) in
    addToken NEWLINE (js "\n") startLine startColumn startLine startColumn
             None st1
  else if (char =? cSLASH)%N && (peek st =? cSLASH)%N then
    snd (scanWhile (fun c => negb (c =? cLF)%N && negb (c =? cNUL)%N) st)
  else
    let startLine := lxLine st in
    let startColumn := lxColumn st in
    if (char =? cARROW)%N || ((char =? cLESS)%N && (peek st =? cDASH)%N) then
      let '(lexeme1, st1) :=
        if (char =? cARROW)%N
        then let '(c, st') := advance st in ([c], st')
        else let '(c1, st') := advance st in
             let '(c2, st'') := advance st' in ([c1; c2], st'') in
      addToken ASSIGN lexeme1 startLine startColumn (lxLine st1)
               (lxColumn st1 - 1) None st1
    else if (char =? cLESS)%N && (peek st =? cEQUALS)%N then
      let st1 := snd (advance (snd (advance st))) in
      addToken LTE (js "<=") startLine startColumn (lxLine st1)
               (lxColumn st1 - 1) None st1
    else if (char =? cGREATER)%N && (peek st =? cEQUALS)%N then
      let st1 := snd (advance (snd (advance st))) in
      addToken GTE (js ">=") startLine startColumn (lxLine st1)
               (lxColumn st1 - 1) None st1
    else if (char =? cLESS)%N && (peek st =? cGREATER)%N then
      let st1 := snd (advance (snd (advance st))) in
      addToken NEQ (js "<>") startLine startColumn (lxLine st1)
               (lxColumn st1 - 1) None st1
    else match singleCharTokens char with
    | Some ty =>
        let st1 := snd (advance st) in
        addToken ty [char] startLine startColumn (lxLine st1)
                 (lxColumn st1 - 1) None st1
    | None =>
      if (char =? cDQUOTE)%N then
        scanQuoted cDQUOTE STRING_LITERAL "SYN008" startLine startColumn st
      else if (char =? cQUOTE)%N || (char =? cMODQUOTE)%N then
        scanQuoted char CHAR_LITERAL "SYN009" startLine startColumn st
      else if isDigitUnit char then
        let '(intPart, st1) := scanWhile isDigitUnit st in
        if (current st1 =? cDOT)%N && isDigitUnit (peek st1) then
          let '(dot, st2) := advance st1 in
          let '(fracPart, st3) := scanWhile isDigitUnit st2 in
          addToken REAL_LITERAL (intPart ++ dot :: fracPart) startLine
                   startColumn (lxLine st3) (lxColumn st3 - 1) None st3
        else
          addToken INTEGER_LITERAL intPart startLine startColumn (lxLine st1)
                   (lxColumn st1 - 1) None st1
      else if isLetterUnit char then
        let '(lexeme1, st1) := scanWhile isAlnumUnit st in
        let upper := toUpperCase lexeme1 in
        if includes KEYWORDS upper then
          let st2 :=
            if negb (streq lexeme1 upper)
            then pushLexDiagnostic "SYN001" startLine startColumn (lxLine st1)
                                   (lxColumn st1 - 1) st1
            else st1 in
          addToken KEYWORD lexeme1 startLine startColumn (lxLine st2)
                   (lxColumn st2 - 1) (Some upper) st2
        else
          addToken IDENTIFIER lexeme1 startLine startColumn (lxLine st1)
                   (lxColumn st1 - 1) None st1
      else
        snd (advance
               (pushLexDiagnostic "SYN002" (lxLine st) (lxColumn st)
                                  (lxLine st) (lxColumn st) st))
    end.

(** [while (index < source.length) { ... }]. *)
Fixpoint tokenizeLoop (fuel : nat) (st : LexState) : option LexState :=
  match rest st with
  | [] => Some st
  | _ :: _ =>
      match fuel with
      | O => None
      | S fuel' => tokenizeLoop fuel' (tokenizeStep st)
      end
  end.

Definition tokenize (source : jsstring) : option (list Token * list Diagnostic) :=
  match tokenizeLoop (length source) (mkLexState source 1 1 [] []) with
  | None => None
  | Some st =>
      let st' := addToken EOF [] (lxLine st) (lxColumn st) (lxLine st)
                          (lxColumn st) None st in
      Some (tokens st', lxDiagnostics st')
  end.

(** Code units left to scan. *)
Definition remaining (st : LexState) : nat := length (rest st).


(** *** Vocabulary for the tokenizer's properties *)

(** A letter followed by letters and digits. *)
Definition isWord (s : jsstring) : bool :=
  match s with
  | c :: r => isLetterUnit c && forallb isAlnumUnit r
  | [] => false
  end.

(** One digit or more. *)
Definition isDigits (s : jsstring) : bool :=
  match s with
  | [] => false
  | _ => forallb isDigitUnit s
  end.

(** Digits, a dot, digits; [seenDigit] tells that a digit came before
    [s]. *)
Fixpoint isDecimalFrom (seenDigit : bool) (s : jsstring) : bool :=
  match s with
  | [] => false
  | c :: r =>
      if isDigitUnit c then isDecimalFrom true r
      else seenDigit && (c =? cDOT)%N && isDigits r
  end.

Definition isDecimal (s : jsstring) : bool := isDecimalFrom false s.

Definition noKeyword (t : Token) : bool :=
  match keyword t with
  | None => true
  | Some _ => false
  end.

(** What holds of a token added inside the main loop: it is not EOF; a
    KEYWORD is a word whose [keyword] field is its uppercased lexeme, a
    member of [KEYWORDS]; an IDENTIFIER is a word that is no keyword in
    any letter case; an integer literal is a run of digits and a real
    literal is digits, a dot, digits; only keywords have the [keyword]
    field. *)
Definition wellFormed (t : Token) : bool :=
  match type t with
  | EOF => false
  | KEYWORD =>
      isWord (lexeme t) &&
      match keyword t with
      | Some k => streq k (toUpperCase (lexeme t)) && includes KEYWORDS k
      | None => false
      end
  | IDENTIFIER =>
      isWord (lexeme t) && negb (includes KEYWORDS (toUpperCase (lexeme t)))
      && noKeyword t
  | INTEGER_LITERAL => isDigits (lexeme t) && noKeyword t
  | REAL_LITERAL => isDecimal (lexeme t) && noKeyword t
  | _ => noKeyword t
  end.

(** The token and the diagnostics of a word that starts at
    [(line, column)]. *)
Definition wordToken (word : jsstring) (line column : Z) : Token :=
  let upper := toUpperCase word in
  let isKeyword := includes KEYWORDS upper in
  mkToken (if isKeyword then KEYWORD else IDENTIFIER) word
          (if isKeyword then Some upper else None)
          (mkSpan line column line (column + Z.of_nat (length word) - 1)).

Definition wordDiagnostics (word : jsstring) (line column : Z)
  : list Diagnostic :=
  let upper := toUpperCase word in
  if includes KEYWORDS upper && negb (streq word upper)
  then [mkDiagnostic (js "SYN001") SevError line column line
                     (column + Z.of_nat (length word) - 1)]
  else [].

(** [st'] holds the tokens and diagnostics of [st], followed by [ts]
    and [ds]. *)
Definition scanned (st st' : LexState) (ts : list Token) (ds : list Diagnostic)
  : Prop :=
  tokens st' = tokens st ++ ts /\ lxDiagnostics st' = lxDiagnostics st ++ ds.

(** From [st] to [st'] the scanner has added well-formed tokens and
    errors. *)
Definition stepOutput (st st' : LexState) : Prop :=
  exists ts ds,
    scanned st st' ts ds /\ forallb wellFormed ts = true /\ errorsOnly ds.

End Tokenizer.

(** ** Parser ([parser.ts]) *)

Module Parser.
Import Tokenizer.

Definition BUILTIN_FUNCTIONS : list jsstring :=
  map js [ "DIV"; "MOD"; "LENGTH"; "LCASE"; "UCASE"; "SUBSTRING"; "ROUND";
           "RANDOM" ]%string.

Record BinaryOp : Type := mkBinaryOp {
  precedence : nat;
  rightAssociative : bool
}.

(** The table [BINARY_OPERATORS]. *)
Definition BINARY_OPERATORS (op : jsstring) : option BinaryOp :=
  if streq op (js "OR") then Some (mkBinaryOp 1 false)
  else if streq op (js "AND") then Some (mkBinaryOp 2 false)
  else if includes (map js ["="; "<"; "<="; ">"; ">="; "<>"]%string) op
       then Some (mkBinaryOp 3 false)
  else if includes (map js ["+"; "-"]%string) op then Some (mkBinaryOp 4 false)
  else if includes (map js ["*"; "/"]%string) op then Some (mkBinaryOp 5 false)
  else if streq op (js "^") then Some (mkBinaryOp 6 true)
  else None.

Definition spanFrom (start end_ : SourceSpan) : SourceSpan :=
  mkSpan (startLine start) (startColumn start) (spanEndLine end_)
         (spanEndColumn end_).

Definition createFallbackSpan : SourceSpan := mkSpan 1 1 1 1.

Fixpoint takeWhile (p : N -> bool) (s : jsstring) : jsstring :=
  match s with
  | c :: r => if p c then c :: takeWhile p r else []
  | [] => []
  end.

(** The value of a run of decimal digits. *)
Definition digitsValue (s : jsstring) : Z :=
  fold_left (fun acc c => 10 * acc + (Z.of_N c - 48)) s 0.

(** [Number.parseInt(s, 10)]: an optional sign and the longest prefix
    of digits, [None] (NaN) when there is no digit.  Token lexemes never
    start with white space.  The value is the exact integer, which is
    what the engine returns up to [2^53]; beyond that the engine rounds
    to the nearest double, which is not followed here. *)
Definition parseInt (s : jsstring) : option Z :=
  let '(sign, body) :=
    match s with
    | c :: r => if (c =? 45)%N then (-1, r)
                else if (c =? 43)%N then (1, r) else (1, s)
    | [] => (1, s)
    end in
  let digits := takeWhile isDigitUnit body in
  match digits with
  | [] => None
  | _ => Some (sign * digitsValue digits)
  end.

(** The mutable fields of [Parser]: [index] and the diagnostics array
    shared with the tokenizer. *)
Record PState : Type := mkPState {
  index : nat;
  pDiagnostics : list Diagnostic
}.

(** A parser action; [None] only when the step budget of a recursive
    action is exhausted. *)
Definition P (A : Type) : Type := PState -> option (A * PState).

Definition ret {A} (a : A) : P A := fun st => Some (a, st).

Definition bind {A B} (m : P A) (k : A -> P B) : P B :=
  fun st => match m st with
            | None => None
            | Some (a, st') => k a st'
            end.

Definition outOfFuel {A} : P A := fun _ => None.

Declare Scope parser_scope.
Delimit Scope parser_scope with parser.
Notation "'do' x <- m ;; k" := (bind m (fun x => k))
  (at level 10, x name, m at level 99, k at level 200) : parser_scope.
Notation "'run' m ;; k" := (bind m (fun _ => k))
  (at level 10, m at level 99, k at level 200) : parser_scope.
Local Open Scope parser_scope.

Section WithTokens.

Variable tokens : list Token.

Definition fallbackToken : Token := mkToken EOF [] None createFallbackSpan.

(** [this.tokens[this.index] ?? fallback]. *)
Definition currentAt (st : PState) : Token := nth (index st) tokens fallbackToken.

(** [this.tokens[Math.max(0, this.index - 1)] ?? fallback]. *)
Definition previousAt (st : PState) : Token :=
  nth (Nat.max 0 (index st - 1)) tokens fallbackToken.

Definition current : P Token := fun st => Some (currentAt st, st).
Definition previous : P Token := fun st => Some (previousAt st, st).

Definition isAtEndAt (st : PState) : bool :=
  tokenType_eqb (type (currentAt st)) EOF.

Definition isAtEnd : P bool := fun st => Some (isAtEndAt st, st).

Definition advanceAt (st : PState) : PState :=
  if isAtEndAt st then st else mkPState (index st + 1) (pDiagnostics st).

Definition advance : P Token :=
  fun st => let st' := advanceAt st in Some (previousAt st', st').

Definition error (token : Token) (c : string) : P unit :=
  fun st =>
    Some (tt, mkPState (index st)
                (pDiagnostics st ++
                 [mkDiagnostic (js c) SevError
                    (startLine (span token)) (startColumn (span token))
                    (spanEndLine (span token)) (spanEndColumn (span token))])).

Definition isKeyword (token : Token) (kw : string) : bool :=
  tokenType_eqb (type token) KEYWORD &&
  match keyword token with
  | Some k => streq k (js kw)
  | None => false
  end.

Definition checkKeyword (kw : string) : P bool :=
  fun st => Some (isKeyword (currentAt st) kw, st).

Definition matchKeyword (kw : string) : P bool :=
  do b <- checkKeyword kw ;;
  if b then run advance ;; ret true else ret false.

Definition checkType (ty : TokenType) : P bool :=
  fun st => Some (tokenType_eqb (type (currentAt st)) ty, st).

Definition matchType (ty : TokenType) : P bool :=
  do b <- checkType ty ;;
  if b then run advance ;; ret true else ret false.

Definition expectKeyword (kw : string) (c : string) : P Token :=
  do b <- checkKeyword kw ;;
  if b then advance
  else do token <- current ;; run error token c ;; ret token.

Definition expectType (ty : TokenType) (c : string) : P Token :=
  do b <- checkType ty ;;
  if b then advance
  else do token <- current ;; run error token c ;; ret token.

(** [while (this.matchType("NEWLINE")) {}].  Each round moves [index]
    forward, and past the last token the current token is the fallback
    EOF, so [n], the number of tokens left, bounds the rounds. *)
Fixpoint consumeNewlinesFrom (n : nat) (st : PState) : PState :=
  match n with
  | O => st
  | S n' =>
      if tokenType_eqb (type (currentAt st)) NEWLINE
      then consumeNewlinesFrom n' (advanceAt st)
      else st
  end.

Definition consumeNewlines : P unit :=
  fun st => Some (tt, consumeNewlinesFrom (length tokens - index st) st).

(** [while (!isAtEnd() && current().type !== "NEWLINE") advance()]. *)
Fixpoint skipLineFrom (n : nat) (st : PState) : PState :=
  match n with
  | O => st
  | S n' =>
      if negb (isAtEndAt st) && negb (tokenType_eqb (type (currentAt st)) NEWLINE)
      then skipLineFrom n' (advanceAt st)
      else st
  end.

Definition synchronizeLine : P unit :=
  fun st =>
    consumeNewlines (skipLineFrom (length tokens - index st) st).

Definition literalNode (token : Token) (value : LiteralValue)
    (literalType : BasicTypeName) : ExpressionNode :=
  ELiteral value literalType (span token).

Definition peekBinaryOperator : P (option jsstring) :=
  do token <- current ;;
  if isKeyword token "AND" || isKeyword token "OR" then ret (keyword token)
  else ret match type token with
           | EQ => Some (js "=")
           | LT => Some (js "<")
           | LTE => Some (js "<=")
           | GT => Some (js ">")
           | GTE => Some (js ">=")
           | NEQ => Some (js "<>")
           | PLUS => Some (js "+")
           | MINUS => Some (js "-")
           | STAR => Some (js "*")
           | SLASH => Some (js "/")
           | CARET => Some (js "^")
           | _ => None
           end.

Definition parseIdentifier : P (option IdentifierNode) :=
  do b <- matchType IDENTIFIER ;;
  if b then do token <- previous ;;
            ret (Some (mkIdentifier (lexeme token) (span token)))
  else do token <- current ;; run error token "SYN076" ;; ret None.

(** Whether a token heads a call or a name in [parsePrimary]. *)
Definition isNameToken (token : Token) : bool :=
  tokenType_eqb (type token) IDENTIFIER ||
  (tokenType_eqb (type token) KEYWORD &&
   match keyword token with
   | Some k => includes BUILTIN_FUNCTIONS k
   | None => false
   end).

(** *** Expressions *)

Fixpoint parseExpression (fuel : nat) (minPrecedence : nat) {struct fuel}
  : P ExpressionNode :=
  match fuel with
  | O => outOfFuel
  | S f =>
      do left <- parseUnary f ;;
      parseExpressionLoop f minPrecedence left
  end

(** The [while (true)] loop of [parseExpression]. *)
with parseExpressionLoop (fuel : nat) (minPrecedence : nat)
                         (left : ExpressionNode) {struct fuel}
  : P ExpressionNode :=
  match fuel with
  | O => outOfFuel
  | S f =>
      do operator <- peekBinaryOperator ;;
      match operator with
      | None => ret left
      | Some op =>
          match BINARY_OPERATORS op with
          | None => ret left
          | Some opInfo =>
              if (precedence opInfo <? minPrecedence)%nat then ret left
              else
                do opToken <- advance ;;
                let nextMinPrecedence :=
                  if rightAssociative opInfo then precedence opInfo
                  else (precedence opInfo + 1)%nat in
                do right <- parseExpression f nextMinPrecedence ;;
                let left' :=
                  EBinary op left right
                          (spanFrom (exprSpan left) (exprSpan right)) in
                if tokenType_eqb (type opToken) EOF then ret left'
                else parseExpressionLoop f minPrecedence left'
          end
      end
  end

with parseUnary (fuel : nat) {struct fuel} : P ExpressionNode :=
  match fuel with
  | O => outOfFuel
  | S f =>
      do isMinus <- matchType MINUS ;;
      if isMinus then
        do operatorToken <- previous ;;
        do operand <- parseUnary f ;;
        ret (EUnary OpMinus operand
                    (spanFrom (span operatorToken) (exprSpan operand)))
      else
        do isNot <- matchKeyword "NOT" ;;
        if isNot then
          do operatorToken <- previous ;;
          do operand <- parseUnary f ;;
          ret (EUnary OpNOT operand
                      (spanFrom (span operatorToken) (exprSpan operand)))
        else parsePrimary f
  end

with parsePrimary (fuel : nat) {struct fuel} : P ExpressionNode :=
  match fuel with
  | O => outOfFuel
  | S f =>
      do token <- current ;;
      do isInt <- matchType INTEGER_LITERAL ;;
      if isInt then
        ret (literalNode token
               (LNumber (NumInt (default 0 (parseInt (lexeme token))))) INTEGER)
      else
      do isReal <- matchType REAL_LITERAL ;;
      if isReal then
        ret (literalNode token (LNumber (NumReal (lexeme token))) REAL)
      else
      do isString <- matchType STRING_LITERAL ;;
      if isString then
        ret (literalNode token (LString (slice_1_m1 (lexeme token))) STRING)
      else
      do isChar <- matchType CHAR_LITERAL ;;
      if isChar then
        ret (literalNode token (LString (slice_1_m1 (lexeme token))) CHAR)
      else
      if isKeyword token "TRUE" || isKeyword token "FALSE" then
        run advance ;;
        ret (literalNode token (LBoolean (isKeyword token "TRUE")) BOOLEAN)
      else
      do isParen <- matchType LPAREN ;;
      if isParen then
        do startTok <- previous ;;
        do expression <- parseExpression f 1 ;;
        do end_ <- expectType RPAREN "SYN059" ;;
        ret (withSpan expression (spanFrom (span startTok) (span end_)))
      else
      if isNameToken token then
        run advance ;;
        parseIdentifierOrCall f token
      else
        run error token "SYN060" ;;
        run advance ;;
        ret (ELiteral (LNumber (NumInt 0)) INTEGER (span token))
  end

with parseIdentifierOrCall (fuel : nat) (token : Token) {struct fuel}
  : P ExpressionNode :=
  match fuel with
  | O => outOfFuel
  | S f =>
      do isCall <- matchType LPAREN ;;
      if isCall then
        do atClose <- checkType RPAREN ;;
        do args <- (if atClose then ret [] else parseExpressionList f) ;;
        do endParen <- expectType RPAREN "SYN061" ;;
        ret (ECall (default (lexeme token) (keyword token)) args
                   (spanFrom (span token) (span endParen)))
      else
        do isIndex <- matchType LBRACKET ;;
        if isIndex then
          do indices <- parseExpressionList f ;;
          do endBracket <- expectType RBRACKET "SYN062" ;;
          ret (EArrayAccess (lexeme token) indices
                            (spanFrom (span token) (span endBracket)))
        else ret (EIdentifier (lexeme token) (span token))
  end

(** [list.push(parseExpression());
     while (matchType("COMMA")) list.push(parseExpression())]. *)
with parseExpressionList (fuel : nat) {struct fuel} : P (list ExpressionNode) :=
  match fuel with
  | O => outOfFuel
  | S f =>
      do first <- parseExpression f 1 ;;
      do isComma <- matchType COMMA ;;
      if isComma then
        do more <- parseExpressionList f ;;
        ret (first :: more)
      else ret [first]
  end.

(** *** Types and parameters *)

Definition parseSignedIntegerLiteral (c : string) : P Z :=
  do isMinus <- matchType MINUS ;;
  let sign := if isMinus then -1 else 1 in
  do token <- expectType INTEGER_LITERAL c ;;
  ret match parseInt (lexeme token) with
      | None => 0
      | Some value => sign * value
      end.

Definition parseArrayDimension : P Dimension :=
  do lo <- parseSignedIntegerLiteral "SYN070" ;;
  run expectType COLON "SYN071" ;;
  do hi <- parseSignedIntegerLiteral "SYN072" ;;
  ret (mkDimension lo hi).

Definition typeNodeSpan (t : TypeNode) : SourceSpan :=
  match t with
  | TNBasic _ s | TNArray _ _ s => s
  end.

(** [parseTypeNode] never takes its [null] exit. *)
Definition parseTypeNode : P TypeNode :=
  do isArray <- matchKeyword "ARRAY" ;;
  if isArray then
    do arrayKeyword <- previous ;;
    run expectType LBRACKET "SYN063" ;;
    do first <- parseArrayDimension ;;
    do isComma <- matchType COMMA ;;
    do dimensions <-
      (if isComma then do second <- parseArrayDimension ;; ret [first; second]
       else ret [first]) ;;
    run expectType RBRACKET "SYN064" ;;
    run expectKeyword "OF" "SYN065" ;;
    do elementTypeToken <- expectType KEYWORD "SYN066" ;;
    run match basicTypeOfKeyword (keyword elementTypeToken) with
        | None => error elementTypeToken "SYN067"
        | Some _ => ret tt
        end ;;
    ret (TNArray (default INTEGER (basicTypeOfKeyword (keyword elementTypeToken)))
                 dimensions
                 (spanFrom (span arrayKeyword) (span elementTypeToken)))
  else
    do token <- expectType KEYWORD "SYN068" ;;
    match basicTypeOfKeyword (keyword token) with
    | None => run error token "SYN069" ;; ret (TNBasic INTEGER (span token))
    | Some name => ret (TNBasic name (span token))
    end.

(** The [do ... while (matchType("COMMA"))] loop of
    [parseParameterList]. *)
Fixpoint parseParameters (fuel : nat) : P (list ParameterNode) :=
  match fuel with
  | O => outOfFuel
  | S f =>
      do nameToken <- expectType IDENTIFIER "SYN073" ;;
      run expectType COLON "SYN074" ;;
      do typeNode <- parseTypeNode ;;
      let param :=
        mkParameter (lexeme nameToken) typeNode
                    (spanFrom (span nameToken) (typeNodeSpan typeNode)) in
      do isComma <- matchType COMMA ;;
      if isComma then do more <- parseParameters f ;; ret (param :: more)
      else ret [param]
  end.

Definition parseParameterList (fuel : nat) : P (list ParameterNode) :=
  do isParen <- matchType LPAREN ;;
  if negb isParen then ret []
  else
    do atClose <- checkType RPAREN ;;
    do params <- (if atClose then ret [] else parseParameters fuel) ;;
    run expectType RPAREN "SYN075" ;;
    ret params.

(** *** Simple statements *)

(** [expectType] always returns a token, so the [null] exit of
    [parseAssignableTarget] is never taken. *)
Definition parseAssignableTarget (fuel : nat) : P (option ExpressionNode) :=
  do identifierToken <- expectType IDENTIFIER "SYN057" ;;
  do isIndex <- matchType LBRACKET ;;
  if isIndex then
    do indices <- parseExpressionList fuel ;;
    do endBracket <- expectType RBRACKET "SYN058" ;;
    ret (Some (EArrayAccess (lexeme identifierToken) indices
                 (spanFrom (span identifierToken) (span endBracket))))
  else ret (Some (EIdentifier (lexeme identifierToken) (span identifierToken))).

Definition parseDeclareStatement : P (option StatementNode) :=
  do start <- expectKeyword "DECLARE" "SYN010" ;;
  do identifier <- parseIdentifier ;;
  match identifier with
  | None => ret None
  | Some identifier =>
      run expectType COLON "SYN011" ;;
      do typeNode <- parseTypeNode ;;
      ret (Some (SDeclare identifier typeNode
                          (spanFrom (span start) (typeNodeSpan typeNode))))
  end.

Definition parseConstantStatement (fuel : nat) : P (option StatementNode) :=
  do start <- expectKeyword "CONSTANT" "SYN012" ;;
  do identifier <- parseIdentifier ;;
  match identifier with
  | None => ret None
  | Some identifier =>
      run expectType ASSIGN "SYN013" ;;
      do value <- parseExpression fuel 1 ;;
      ret (Some (SConstant identifier value
                           (spanFrom (span start) (exprSpan value))))
  end.

Definition parseInputStatement (fuel : nat) : P (option StatementNode) :=
  do start <- expectKeyword "INPUT" "SYN014" ;;
  do target <- parseAssignableTarget fuel ;;
  match target with
  | None => ret None
  | Some target =>
      ret (Some (SInput target (spanFrom (span start) (exprSpan target))))
  end.

Definition parseOutputStatement (fuel : nat) : P (option StatementNode) :=
  do start <- expectKeyword "OUTPUT" "SYN015" ;;
  do values <- parseExpressionList fuel ;;
  let endSpan := match last values with
                 | Some v => exprSpan v
                 | None => span start
                 end in
  ret (Some (SOutput values (spanFrom (span start) endSpan))).

Definition parseCallStatement (fuel : nat) : P (option StatementNode) :=
  do start <- expectKeyword "CALL" "SYN043" ;;
  do nameToken <- expectType IDENTIFIER "SYN044" ;;
  do isParen <- matchType LPAREN ;;
  do args <-
    (if isParen then
       do atClose <- checkType RPAREN ;;
       do args <- (if atClose then ret [] else parseExpressionList fuel) ;;
       run expectType RPAREN "SYN045" ;;
       ret args
     else ret []) ;;
  let endSpan := match last args with
                 | Some a => exprSpan a
                 | None => span nameToken
                 end in
  ret (Some (SCallStatement (lexeme nameToken) args
                            (spanFrom (span start) endSpan))).

Definition parseReturnStatement (fuel : nat) : P (option StatementNode) :=
  do start <- expectKeyword "RETURN" "SYN046" ;;
  do value <- parseExpression fuel 1 ;;
  ret (Some (SReturn value (spanFrom (span start) (exprSpan value)))).

Definition parseOpenFileStatement (fuel : nat) : P (option StatementNode) :=
  do start <- expectKeyword "OPENFILE" "SYN047" ;;
  do fileIdentifier <- parseExpression fuel 1 ;;
  run expectKeyword "FOR" "SYN048" ;;
  do modeToken <- expectType KEYWORD "SYN049" ;;
  let isRead := match keyword modeToken with
                | Some k => streq k (js "READ") | None => false end in
  let isWrite := match keyword modeToken with
                 | Some k => streq k (js "WRITE") | None => false end in
  let mode := if isWrite then WRITE else READ in
  run (if negb isRead && negb isWrite then error modeToken "SYN050"
       else ret tt) ;;
  ret (Some (SOpenFile fileIdentifier mode
                       (spanFrom (span start) (span modeToken)))).

Definition parseReadFileStatement (fuel : nat) : P (option StatementNode) :=
  do start <- expectKeyword "READFILE" "SYN051" ;;
  do fileIdentifier <- parseExpression fuel 1 ;;
  run expectType COMMA "SYN052" ;;
  do target <- parseAssignableTarget fuel ;;
  match target with
  | None => ret None
  | Some target =>
      ret (Some (SReadFile fileIdentifier target
                           (spanFrom (span start) (exprSpan target))))
  end.

Definition parseWriteFileStatement (fuel : nat) : P (option StatementNode) :=
  do start <- expectKeyword "WRITEFILE" "SYN053" ;;
  do fileIdentifier <- parseExpression fuel 1 ;;
  run expectType COMMA "SYN054" ;;
  do value <- parseExpression fuel 1 ;;
  ret (Some (SWriteFile fileIdentifier value
                        (spanFrom (span start) (exprSpan value)))).

Definition parseCloseFileStatement (fuel : nat) : P (option StatementNode) :=
  do start <- expectKeyword "CLOSEFILE" "SYN055" ;;
  do fileIdentifier <- parseExpression fuel 1 ;;
  ret (Some (SCloseFile fileIdentifier
                        (spanFrom (span start) (exprSpan fileIdentifier)))).

Definition parseAssignmentStatement (fuel : nat) : P (option StatementNode) :=
  do target <- parseAssignableTarget fuel ;;
  match target with
  | None => ret None
  | Some target =>
      run expectType ASSIGN "SYN056" ;;
      do value <- parseExpression fuel 1 ;;
      ret (Some (SAssignment target value
                             (spanFrom (exprSpan target) (exprSpan value))))
  end.

(** [token.type === "KEYWORD" && token.keyword && stopKeywords.has(...)]. *)
Definition isStopKeyword (stopKeywords : list jsstring) (token : Token) : bool :=
  tokenType_eqb (type token) KEYWORD &&
  match keyword token with
  | Some k => includes stopKeywords k
  | None => false
  end.

(** *** Structured statements *)

Fixpoint parseStatements (fuel : nat) (stopKeywords : list jsstring)
    {struct fuel} : P (list StatementNode) :=
  match fuel with
  | O => outOfFuel
  | S f =>
      run consumeNewlines ;;
      parseStatementsLoop f stopKeywords
  end

(** The [while (!this.isAtEnd())] loop of [parseStatements]. *)
with parseStatementsLoop (fuel : nat) (stopKeywords : list jsstring)
    {struct fuel} : P (list StatementNode) :=
  match fuel with
  | O => outOfFuel
  | S f =>
      do atEnd <- isAtEnd ;;
      if atEnd then ret []
      else
        do token <- current ;;
        if isStopKeyword stopKeywords token then ret []
        else if tokenType_eqb (type token) EOF then ret []
        else
          do statement <- parseStatement f ;;
          run match statement with
              | Some _ => ret tt
              | None => synchronizeLine
              end ;;
          run consumeNewlines ;;
          do more <- parseStatementsLoop f stopKeywords ;;
          ret match statement with
              | Some s => s :: more
              | None => more
              end
  end

with parseStatement (fuel : nat) {struct fuel} : P (option StatementNode) :=
  match fuel with
  | O => outOfFuel
  | S f =>
      do token <- current ;;
      if tokenType_eqb (type token) KEYWORD then
        if isKeyword token "DECLARE" then parseDeclareStatement
        else if isKeyword token "CONSTANT" then parseConstantStatement f
        else if isKeyword token "INPUT" then parseInputStatement f
        else if isKeyword token "OUTPUT" then parseOutputStatement f
        else if isKeyword token "IF" then
          do s <- parseIfStatement f ;; ret (Some s)
        else if isKeyword token "CASE" then
          do s <- parseCaseStatement f ;; ret (Some s)
        else if isKeyword token "FOR" then
          do s <- parseForStatement f ;; ret (Some s)
        else if isKeyword token "REPEAT" then
          do s <- parseRepeatStatement f ;; ret (Some s)
        else if isKeyword token "WHILE" then
          do s <- parseWhileStatement f ;; ret (Some s)
        else if isKeyword token "PROCEDURE" then
          do s <- parseProcedureDefinition f ;; ret (Some s)
        else if isKeyword token "FUNCTION" then
          do s <- parseFunctionDefinition f ;; ret (Some s)
        else if isKeyword token "CALL" then parseCallStatement f
        else if isKeyword token "RETURN" then parseReturnStatement f
        else if isKeyword token "OPENFILE" then parseOpenFileStatement f
        else if isKeyword token "READFILE" then parseReadFileStatement f
        else if isKeyword token "WRITEFILE" then parseWriteFileStatement f
        else if isKeyword token "CLOSEFILE" then parseCloseFileStatement f
        else run error token "SYN003" ;; ret None
      else if tokenType_eqb (type token) IDENTIFIER then
        parseAssignmentStatement f
      else run error token "SYN004" ;; ret None
  end

with parseIfStatement (fuel : nat) {struct fuel} : P StatementNode :=
  match fuel with
  | O => outOfFuel
  | S f =>
      do start <- expectKeyword "IF" "SYN016" ;;
      do condition <- parseExpression f 1 ;;
      run consumeNewlines ;;
      run expectKeyword "THEN" "SYN017" ;;
      run consumeNewlines ;;
      do thenBody <- parseStatements f [js "ELSE"; js "ENDIF"] ;;
      do isElse <- matchKeyword "ELSE" ;;
      do elseBody <-
        (if isElse then run consumeNewlines ;; parseStatements f [js "ENDIF"]
         else ret []) ;;
      do endIf <- expectKeyword "ENDIF" "SYN018" ;;
      ret (SIf condition thenBody elseBody
               (spanFrom (span start) (span endIf)))
  end

with parseCaseStatement (fuel : nat) {struct fuel} : P StatementNode :=
  match fuel with
  | O => outOfFuel
  | S f =>
      do start <- expectKeyword "CASE" "SYN019" ;;
      run expectKeyword "OF" "SYN020" ;;
      do expression <- parseExpression f 1 ;;
      run consumeNewlines ;;
      do clauses <- parseCaseClauses f ;;
      do endCase <- expectKeyword "ENDCASE" "SYN022" ;;
      ret (SCase expression clauses (spanFrom (span start) (span endCase)))
  end

(** The [while (!isAtEnd() && !checkKeyword("ENDCASE"))] loop. *)
with parseCaseClauses (fuel : nat) {struct fuel}
  : P (list (option ExpressionNode * StatementNode * SourceSpan)) :=
  match fuel with
  | O => outOfFuel
  | S f =>
      do atEnd <- isAtEnd ;;
      do atEndCase <- checkKeyword "ENDCASE" ;;
      if atEnd || atEndCase then ret []
      else
        do clauseStartTok <- current ;;
        let clauseStart := span clauseStartTok in
        do isOtherwise <- matchKeyword "OTHERWISE" ;;
        do clause <-
          (if isOtherwise then
             do statement <- parseStatementAfterCaseColon f ;;
             ret match statement with
                 | Some s => [(None, s, spanFrom clauseStart (stmtSpan s))]
                 | None => []
                 end
           else
             do value <- parseExpression f 1 ;;
             run expectType COLON "SYN021" ;;
             do statement <- parseStatementAfterCaseColon f ;;
             ret match statement with
                 | Some s => [(Some value, s, spanFrom clauseStart (stmtSpan s))]
                 | None => []
                 end) ;;
        run consumeNewlines ;;
        do more <- parseCaseClauses f ;;
        ret (clause ++ more)
  end

with parseStatementAfterCaseColon (fuel : nat) {struct fuel}
  : P (option StatementNode) :=
  match fuel with
  | O => outOfFuel
  | S f =>
      do token <- current ;;
      if tokenType_eqb (type token) NEWLINE then
        run error token "SYN023" ;; ret None
      else parseStatement f
  end

with parseForStatement (fuel : nat) {struct fuel} : P StatementNode :=
  match fuel with
  | O => outOfFuel
  | S f =>
      do start <- expectKeyword "FOR" "SYN024" ;;
      do parsed <- parseIdentifier ;;
      let iterator :=
        default (mkIdentifier (js "InvalidIterator") (span start)) parsed in
      run expectType ASSIGN "SYN025" ;;
      do startValue <- parseExpression f 1 ;;
      run expectKeyword "TO" "SYN026" ;;
      do endValue <- parseExpression f 1 ;;
      do isStep <- matchKeyword "STEP" ;;
      do stepValue <-
        (if isStep then do e <- parseExpression f 1 ;; ret (Some e)
         else ret None) ;;
      run consumeNewlines ;;
      do body <- parseStatements f [js "NEXT"] ;;
      run expectKeyword "NEXT" "SYN027" ;;
      do atIdent <- checkType IDENTIFIER ;;
      run (if atIdent then
             do closingIterator <- advance ;;
             if negb (streq (toLowerCase (lexeme closingIterator))
                            (toLowerCase (identName iterator)))
             then error closingIterator "SYN028"
             else ret tt
           else ret tt) ;;
      do end_ <- previous ;;
      ret (SFor iterator startValue endValue stepValue body
                (spanFrom (span start) (span end_)))
  end

with parseRepeatStatement (fuel : nat) {struct fuel} : P StatementNode :=
  match fuel with
  | O => outOfFuel
  | S f =>
      do start <- expectKeyword "REPEAT" "SYN029" ;;
      run consumeNewlines ;;
      do body <- parseStatements f [js "UNTIL"] ;;
      run expectKeyword "UNTIL" "SYN030" ;;
      do condition <- parseExpression f 1 ;;
      ret (SRepeat body condition
                   (spanFrom (span start) (exprSpan condition)))
  end

with parseWhileStatement (fuel : nat) {struct fuel} : P StatementNode :=
  match fuel with
  | O => outOfFuel
  | S f =>
      do start <- expectKeyword "WHILE" "SYN031" ;;
      do condition <- parseExpression f 1 ;;
      run consumeNewlines ;;
      run expectKeyword "DO" "SYN032" ;;
      run consumeNewlines ;;
      do body <- parseStatements f [js "ENDWHILE"] ;;
      do end_ <- expectKeyword "ENDWHILE" "SYN033" ;;
      ret (SWhile condition body (spanFrom (span start) (span end_)))
  end

with parseProcedureDefinition (fuel : nat) {struct fuel} : P StatementNode :=
  match fuel with
  | O => outOfFuel
  | S f =>
      do start <- expectKeyword "PROCEDURE" "SYN034" ;;
      do nameToken <- expectType IDENTIFIER "SYN035" ;;
      do params <- parseParameterList f ;;
      run consumeNewlines ;;
      do body <- parseStatements f [js "ENDPROCEDURE"] ;;
      do end_ <- expectKeyword "ENDPROCEDURE" "SYN036" ;;
      ret (SProcedureDefinition (lexeme nameToken) params body
                                (spanFrom (span start) (span end_)))
  end

with parseFunctionDefinition (fuel : nat) {struct fuel} : P StatementNode :=
  match fuel with
  | O => outOfFuel
  | S f =>
      do start <- expectKeyword "FUNCTION" "SYN037" ;;
      do nameToken <- expectType IDENTIFIER "SYN038" ;;
      do params <- parseParameterList f ;;
      run expectKeyword "RETURNS" "SYN039" ;;
      do returnTypeToken <- expectType KEYWORD "SYN040" ;;
      let returnType :=
        default INTEGER (basicTypeOfKeyword (keyword returnTypeToken)) in
      run match basicTypeOfKeyword (keyword returnTypeToken) with
          | None => error returnTypeToken "SYN041"
          | Some _ => ret tt
          end ;;
      run consumeNewlines ;;
      do body <- parseStatements f [js "ENDFUNCTION"] ;;
      do end_ <- expectKeyword "ENDFUNCTION" "SYN042" ;;
      ret (SFunctionDefinition (lexeme nameToken) params returnType body
                               (spanFrom (span start) (span end_)))
  end.

Definition parseProgram (fuel : nat) : P ProgramNode :=
  do startTok <- current ;;
  do body <- parseStatements fuel [js "EOF"] ;;
  do endTok <- previous ;;
  ret (mkProgram body (spanFrom (span startTok) (span endTok))).

End WithTokens.

(** Step budget handed to the recursive descent: a generous multiple of
    the number of tokens. *)
Definition parseFuel (tokens : list Token) : nat := 8 * length tokens + 16.

(** [parseSource], with the step budget of the descent made explicit. *)
Definition parseSourceWith (fuel : nat) (source : jsstring)
  : option (ProgramNode * list Diagnostic) :=
  match tokenize source with
  | None => None
  | Some (tokens, diagnostics) =>
      match parseProgram tokens fuel (mkPState 0 diagnostics) with
      | None => None
      | Some (ast, st) => Some (ast, pDiagnostics st)
      end
  end.

Definition sourceFuel (source : jsstring) : nat :=
  match tokenize source with
  | Some (tokens, _) => parseFuel tokens
  | None => 0
  end.

Definition parseSource (source : jsstring)
  : option (ProgramNode * list Diagnostic) :=
  parseSourceWith (sourceFuel source) source.

End Parser.

(** ** Step budgets of the parser

    The vocabulary in which the parser is shown to return: the tokens
    left at an index, and what an action leaves behind. *)

Module ParserBounds.
Import Tokenizer Parser.
Local Open Scope nat_scope.

Section WithTokens.

Variable tokens : list Token.

(** The parser looks at its state through [index] only. *)
Definition tokAt (i : nat) : Token := nth i tokens fallbackToken.

Definition atEndI (i : nat) : bool := tokenType_eqb (type (tokAt i)) EOF.

Definition advI (i : nat) : nat := if atEndI i then i else i + 1.

(** Tokens left before the end of the array. *)
Definition remI (i : nat) : nat := length tokens - i.

(** [m] returns from [st], with a result and a final index that
    satisfy [Q]. *)
Definition returns {A} (m : P A) (st : PState) (Q : A -> nat -> Prop) : Prop :=
  exists a st', m st = Some (a, st') /\ Q a (index st').

(** An action that may move forward: the tokens left do not grow. *)
Definition noGrowth {A} (i : nat) : A -> nat -> Prop :=
  fun _ i' => remI i' <= remI i.

(** An action that moves forward unless it starts at the end. *)
Definition progress {A} (i : nat) : A -> nat -> Prop :=
  fun _ i' => remI i' <= remI i /\ (atEndI i = false -> remI i' < remI i).

(** Step budgets that suffice for the expression parsers, by the
    number [n] of tokens left. *)
Definition primaryBound (n : nat) : Prop :=
  forall F st, remI (index st) = n -> 3 * n + 1 <= F ->
    returns (parsePrimary tokens F) st (progress (index st)).

Definition unaryBound (n : nat) : Prop :=
  forall F st, remI (index st) = n -> 3 * n + 2 <= F ->
    returns (parseUnary tokens F) st (progress (index st)).

Definition loopBound (n : nat) : Prop :=
  forall F minPrecedence left_ st, remI (index st) = n -> 3 * n + 2 <= F ->
    returns (parseExpressionLoop tokens F minPrecedence left_) st
            (noGrowth (index st)).

Definition expressionBound (n : nat) : Prop :=
  forall F minPrecedence st, remI (index st) = n -> 3 * n + 3 <= F ->
    returns (parseExpression tokens F minPrecedence) st (progress (index st)).

Definition listBound (n : nat) : Prop :=
  forall F st, remI (index st) = n -> 3 * n + 4 <= F ->
    returns (parseExpressionList tokens F) st (progress (index st)).

Definition callBound (n : nat) : Prop :=
  forall F token st, remI (index st) = n -> 3 * n + 3 <= F ->
    returns (parseIdentifierOrCall tokens F token) st (noGrowth (index st)).

(** What a statement parser leaves when the token it is dispatched on
    is [kw]: no growth, and at least that token consumed. *)
Definition keywordProgress {A} (kw : string) (i : nat) : A -> nat -> Prop :=
  fun _ i' =>
    remI i' <= remI i /\ (isKeyword (tokAt i) kw = true -> remI i' < remI i).

Definition identifierProgress {A} (i : nat) : A -> nat -> Prop :=
  fun _ i' =>
    remI i' <= remI i /\
    (tokenType_eqb (type (tokAt i)) IDENTIFIER = true -> remI i' < remI i).

(** At least one token consumed. *)
Definition consumed {A} (i : nat) : A -> nat -> Prop :=
  fun _ i' => remI i' < remI i.

(** What [parseStatement] leaves: no growth, and a token consumed when
    a statement is returned. *)
Definition statementPost (i : nat) : option StatementNode -> nat -> Prop :=
  fun r i' => remI i' <= remI i /\ (r <> None -> remI i' < remI i).

Definition statementsBound (n : nat) : Prop :=
  forall F stop st, remI (index st) = n -> 4 * n + 12 <= F ->
    returns (parseStatements tokens F stop) st (noGrowth (index st)).

Definition statementsLoopBound (n : nat) : Prop :=
  forall F stop st, remI (index st) = n -> 4 * n + 11 <= F ->
    returns (parseStatementsLoop tokens F stop) st (noGrowth (index st)).

Definition statementBound (n : nat) : Prop :=
  forall F st, remI (index st) = n -> 4 * n + 10 <= F ->
    returns (parseStatement tokens F) st (statementPost (index st)).

Definition afterColonBound (n : nat) : Prop :=
  forall F st, remI (index st) = n -> 4 * n + 11 <= F ->
    returns (parseStatementAfterCaseColon tokens F) st (noGrowth (index st)).

Definition clausesBound (n : nat) : Prop :=
  forall F st, remI (index st) = n -> 4 * n + 12 <= F ->
    returns (parseCaseClauses tokens F) st (noGrowth (index st)).

(** A structured statement parser entered at its keyword. *)
Definition structuredBound (kw : string) (parser : nat -> P StatementNode)
    (n : nat) : Prop :=
  forall F st, remI (index st) = n ->
    isKeyword (tokAt (index st)) kw = true -> 4 * n + 9 <= F ->
    returns (parser F) st (consumed (index st)).

End WithTokens.


(** The diagnostics of [st'] are those of [st] followed by errors. *)
Definition pExtends (st st' : PState) : Prop :=
  exists added,
    pDiagnostics st' = pDiagnostics st ++ added /\ errorsOnly added.

(** A parser action that keeps the diagnostics it finds and adds
    errors only. *)
Definition grows {A} (m : P A) : Prop :=
  forall st a st', m st = Some (a, st') -> pExtends st st'.

End ParserBounds.

(** ** Semantic analyzer ([semantics.ts]) *)

Module Semantics.

Inductive SymbolKind : Type :=
| KVariable | KConstant | KParam | KProcedure | KFunction.

Record SymbolEntry : Type := mkSymbolEntry {
  seName : jsstring;
  seKind : SymbolKind;
  seType : StaticType;
  seParams : option (list StaticType)
}.

(** [class Scope]: a [Map] keyed by the lowercased name, and a parent. *)
Inductive Scope : Type :=
| mkScope (symbols : gmap jsstring SymbolEntry) (parent : option Scope).

Definition symbols (s : Scope) : gmap jsstring SymbolEntry :=
  match s with mkScope m _ => m end.

Definition parent (s : Scope) : option Scope :=
  match s with mkScope _ p => p end.

(** [new Scope(parent)]. *)
Definition newScope (p : option Scope) : Scope := mkScope ∅ p.

(** [scope.define(symbol)]: the result and the scope after the call. *)
Definition define (s : Scope) (symbol : SymbolEntry) : bool * Scope :=
  let key := toLowerCase (seName symbol) in
  match symbols s !! key with
  | Some _ => (false, s)
  | None => (true, mkScope (<[key := symbol]> (symbols s)) (parent s))
  end.

Fixpoint lookup (s : Scope) (name : jsstring) : option SymbolEntry :=
  match s with
  | mkScope m p =>
      match m !! toLowerCase name with
      | Some entry => Some entry
      | None => match p with
                | Some p' => lookup p' name
                | None => None
                end
      end
  end.

Definition UNKNOWN : StaticType := TUnknown.
Definition T_BOOLEAN : StaticType := TBasic BOOLEAN.
Definition T_INTEGER : StaticType := TBasic INTEGER.
Definition T_REAL : StaticType := TBasic REAL.
Definition T_STRING : StaticType := TBasic STRING.

Definition BUILTIN_FUNCTIONS : gmap jsstring FunctionSignature :=
  list_to_map
    [ (js "DIV", mkFunctionSignature (js "DIV") [T_INTEGER; T_INTEGER] T_INTEGER);
      (js "MOD", mkFunctionSignature (js "MOD") [T_INTEGER; T_INTEGER] T_INTEGER);
      (js "LENGTH", mkFunctionSignature (js "LENGTH") [T_STRING] T_INTEGER);
      (js "LCASE", mkFunctionSignature (js "LCASE") [T_STRING] T_STRING);
      (js "UCASE", mkFunctionSignature (js "UCASE") [T_STRING] T_STRING);
      (js "SUBSTRING",
       mkFunctionSignature (js "SUBSTRING") [T_STRING; T_INTEGER; T_INTEGER]
                           T_STRING);
      (js "ROUND", mkFunctionSignature (js "ROUND") [T_REAL; T_INTEGER] T_REAL);
      (js "RANDOM", mkFunctionSignature (js "RANDOM") [] T_REAL) ].

Definition toStaticType (typeNode : TypeNode) : StaticType :=
  match typeNode with
  | TNBasic name _ => TBasic name
  | TNArray elementType dimensions _ => TArray elementType dimensions
  end.

Definition isNumeric (t : StaticType) : bool :=
  match t with
  | TBasic INTEGER | TBasic REAL => true
  | _ => false
  end.

Definition isBoolean (t : StaticType) : bool :=
  match t with
  | TBasic BOOLEAN => true
  | _ => false
  end.

Definition typesCompatible (target value : StaticType) : bool :=
  match target, value with
  | TUnknown, _ | _, TUnknown => true
  | TArray te td, TArray ve vd =>
      basicTypeName_eqb te ve && (length td =? length vd)%nat
  | TArray _ _, _ | _, TArray _ _ => false
  | TBasic tn, TBasic vn =>
      if basicTypeName_eqb tn vn then true
      else match tn, vn with
           | REAL, INTEGER => true
           | _, _ => false
           end
  end.

(** The fields of [class Analyzer]. *)
Record AState : Type := mkAState {
  aDiagnostics : list Diagnostic;
  symbolTypes : gmap jsstring StaticType;
  functionSignatures : gmap jsstring FunctionSignature;
  procedureSignatures : gmap jsstring ProcedureSignature
}.

(** An analyzer method: it updates the fields and returns, or throws. *)
Definition M (A : Type) : Type := AState -> Completion (A * AState).

Definition ret {A} (a : A) : M A := fun st => Normal (a, st).

Definition bind {A B} (m : M A) (k : A -> M B) : M B :=
  fun st => match m st with
            | Throw e => Throw e
            | Normal (a, st') => k a st'
            end.

Definition throw {A} (e : JsError) : M A := fun _ => Throw e.

Declare Scope analyzer_scope.
Delimit Scope analyzer_scope with analyzer.
Notation "'do' x <- m ;; k" := (bind m (fun x => k))
  (at level 10, x name, m at level 99, k at level 200) : analyzer_scope.
Notation "'run' m ;; k" := (bind m (fun _ => k))
  (at level 10, m at level 99, k at level 200) : analyzer_scope.
Local Open Scope analyzer_scope.

Definition pushError (span : SourceSpan) (c : string) : M unit :=
  fun st =>
    Normal (tt,
      mkAState
        (aDiagnostics st ++
         [mkDiagnostic (js c) SevError (startLine span) (startColumn span)
                       (spanEndLine span) (spanEndColumn span)])
        (symbolTypes st) (functionSignatures st) (procedureSignatures st)).

Definition setSymbolType (name : jsstring) (t : StaticType) : M unit :=
  fun st =>
    Normal (tt,
      mkAState (aDiagnostics st)
               (setProperty (symbolTypes st) (toLowerCase name) t)
               (functionSignatures st) (procedureSignatures st)).

Definition getFunctionSignature (key : jsstring) : M (Property FunctionSignature) :=
  fun st => Normal (getProperty (functionSignatures st) key, st).

Definition getProcedureSignature (key : jsstring)
  : M (Property ProcedureSignature) :=
  fun st => Normal (getProperty (procedureSignatures st) key, st).

(** [signature.params] for a property read that was truthy: the field
    of an own signature; [undefined] on an object of
    [Object.prototype]. *)
Definition functionParams (p : Property FunctionSignature)
  : option (list StaticType) :=
  match p with
  | Own sig => Some (fsParams sig)
  | _ => None
  end.

Definition procedureParams (p : Property ProcedureSignature)
  : option (list StaticType) :=
  match p with
  | Own sig => Some (psParams sig)
  | _ => None
  end.

(** [signature.returnType]; it is read after the argument check has
    returned, which it does for own signatures only. *)
Definition functionReturnType (p : Property FunctionSignature) : StaticType :=
  match p with
  | Own sig => fsReturnType sig
  | _ => UNKNOWN
  end.

(** *** Expressions *)

Section WithInfer.

(** [this.inferExpressionType(_, scope)] at the scope of the caller. *)
Variable infer : ExpressionNode -> M StaticType.

(** [args.forEach((arg, index) => ...)] of the two [validateCall...]
    methods, entered with equal lengths. *)
Fixpoint checkArguments (args : list ExpressionNode) (expected : list StaticType)
  : M unit :=
  match args, expected with
  | arg :: args', exp :: expected' =>
      do actualType <- infer arg ;;
      run (if negb (typesCompatible exp actualType)
           then pushError (exprSpan arg) "SEM018"
           else ret tt) ;;
      checkArguments args' expected'
  | _, _ => ret tt
  end.

(** [validateCallArguments] and [validateCallArgsWithScope].  Reading
    [expected.length] throws a [TypeError] when [expected] is
    [undefined]. *)
Definition validateCallArgumentsWith (args : list ExpressionNode)
    (expected : option (list StaticType)) (span : SourceSpan) : M unit :=
  match expected with
  | None => throw TypeError
  | Some expected =>
      if negb (length args =? length expected)%nat
      then pushError span "SEM017"
      else checkArguments args expected
  end.

(** The [for (const index of target.indices)] loop. *)
Fixpoint checkIndices (indices : list ExpressionNode) : M unit :=
  match indices with
  | [] => ret tt
  | index :: rest =>
      do indexType <- infer index ;;
      run match indexType with
          | TBasic INTEGER => ret tt
          | _ => pushError (exprSpan index) "SEM028"
          end ;;
      checkIndices rest
  end.

Definition resolveArrayAccessTypeWith (name : jsstring)
    (indices : list ExpressionNode) (span : SourceSpan) (scope : option Scope)
  : M StaticType :=
  match scope with
  | None => ret UNKNOWN
  | Some sc =>
      match lookup sc name with
      | None => run pushError span "SEM019" ;; ret UNKNOWN
      | Some symbol =>
          match seType symbol with
          | TArray elementType dimensions =>
              if negb (length indices =? length dimensions)%nat then
                run pushError span "SEM027" ;; ret (TBasic elementType)
              else
                run checkIndices indices ;; ret (TBasic elementType)
          | _ => run pushError span "SEM026" ;; ret UNKNOWN
          end
      end
  end.

End WithInfer.

Definition arithmeticOperators : list jsstring :=
  map js ["+"; "-"; "*"; "/"; "^"]%string.
Definition relationalOperators : list jsstring :=
  map js ["="; "<"; "<="; ">"; ">="; "<>"]%string.
Definition logicalOperators : list jsstring := map js ["AND"; "OR"]%string.

Fixpoint inferExpressionType (expression : ExpressionNode) (scope : option Scope)
  : M StaticType :=
  match expression with
  | ELiteral _ literalType _ => ret (TBasic literalType)
  | EIdentifier name span =>
      match scope with
      | None => ret UNKNOWN
      | Some sc =>
          match lookup sc name with
          | None => run pushError span "SEM019" ;; ret UNKNOWN
          | Some symbol => ret (seType symbol)
          end
      end
  | EArrayAccess name indices span =>
      resolveArrayAccessTypeWith (fun e => inferExpressionType e scope)
                                 name indices span scope
  | EUnary operator operand span =>
      do operandType <- inferExpressionType operand scope ;;
      match operator with
      | OpNOT =>
          run (if negb (isBoolean operandType) then pushError span "SEM020"
               else ret tt) ;;
          ret T_BOOLEAN
      | OpMinus =>
          run (if negb (isNumeric operandType) then pushError span "SEM021"
               else ret tt) ;;
          ret operandType
      end
  | EBinary op left_ right_ span =>
      do leftType <- inferExpressionType left_ scope ;;
      do rightType <- inferExpressionType right_ scope ;;
      if includes arithmeticOperators op then
        if negb (isNumeric leftType) || negb (isNumeric rightType) then
          run pushError span "SEM022" ;; ret UNKNOWN
        else
          match leftType, rightType with
          | TBasic ln, TBasic rn =>
              if basicTypeName_eqb ln REAL || basicTypeName_eqb rn REAL
                 || streq op (js "/")
              then ret T_REAL else ret T_INTEGER
          | _, _ => ret T_INTEGER
          end
      else if includes relationalOperators op then ret T_BOOLEAN
      else if includes logicalOperators op then
        run (if negb (isBoolean leftType) || negb (isBoolean rightType)
             then pushError span "SEM023" else ret tt) ;;
        ret T_BOOLEAN
      else ret UNKNOWN
  | ECall name args span =>
      let infer := fun e => inferExpressionType e scope in
      let builtin := getProperty BUILTIN_FUNCTIONS (toUpperCase name) in
      if truthy builtin then
        run validateCallArgumentsWith infer args (functionParams builtin) span ;;
        ret (functionReturnType builtin)
      else
        do signature <- getFunctionSignature (toLowerCase name) ;;
        if negb (truthy signature) then
          run pushError span "SEM024" ;; ret UNKNOWN
        else
          run validateCallArgumentsWith infer args (functionParams signature)
                span ;;
          ret (functionReturnType signature)
  end.

Definition validateCallArgsWithScope (args : list ExpressionNode)
    (expected : option (list StaticType)) (span : SourceSpan)
    (scope : option Scope) : M unit :=
  validateCallArgumentsWith (fun e => inferExpressionType e scope)
                            args expected span.

Definition validateCallArguments (args : list ExpressionNode)
    (expected : option (list StaticType)) (span : SourceSpan) (scope : Scope)
  : M unit :=
  validateCallArgumentsWith (fun e => inferExpressionType e (Some scope))
                            args expected span.

Definition resolveArrayAccessType (name : jsstring)
    (indices : list ExpressionNode) (span : SourceSpan) (scope : option Scope)
  : M StaticType :=
  resolveArrayAccessTypeWith (fun e => inferExpressionType e scope)
                             name indices span scope.

Definition resolveAssignableType (target : ExpressionNode) (scope : Scope)
  : M StaticType :=
  match target with
  | EIdentifier name span =>
      match lookup scope name with
      | None => run pushError span "SEM019" ;; ret UNKNOWN
      | Some symbol =>
          run match seKind symbol with
              | KConstant => pushError span "SEM025"
              | _ => ret tt
              end ;;
          ret (seType symbol)
      end
  | EArrayAccess name indices span =>
      resolveArrayAccessType name indices span (Some scope)
  | _ => ret UNKNOWN
  end.

(** [literalFileName]: the value of a STRING literal, else [null] after
    typing the expression. *)
Definition literalFileName (expression : ExpressionNode) (scope : Scope)
  : M (option jsstring) :=
  match expression with
  | ELiteral (LString value) STRING _ => ret (Some value)
  | _ => run inferExpressionType expression (Some scope) ;; ret None
  end.

(** *** Statements *)

Definition setProcedureSignature (key : jsstring) (sig : ProcedureSignature)
  : M unit :=
  fun st =>
    Normal (tt,
      mkAState (aDiagnostics st) (symbolTypes st) (functionSignatures st)
               (setProperty (procedureSignatures st) key sig)).

Definition setFunctionSignature (key : jsstring) (sig : FunctionSignature)
  : M unit :=
  fun st =>
    Normal (tt,
      mkAState (aDiagnostics st) (symbolTypes st)
               (setProperty (functionSignatures st) key sig)
               (procedureSignatures st)).

(** One round of the loop of [predeclareRoutines]; returns the global
    scope after the round. *)
Definition predeclareRoutine (statement : StatementNode) (globalScope : Scope)
  : M Scope :=
  match statement with
  | SProcedureDefinition name params _ span =>
      let paramTypes := map (fun p => toStaticType (paramTypeNode p)) params in
      let key := toLowerCase name in
      do proc <- getProcedureSignature key ;;
      do func <- getFunctionSignature key ;;
      if truthy proc || truthy func then
        run pushError span "SEM001" ;; ret globalScope
      else
        run setProcedureSignature key (mkProcedureSignature name paramTypes) ;;
        ret (snd (define globalScope
                    (mkSymbolEntry name KProcedure UNKNOWN (Some paramTypes))))
  | SFunctionDefinition name params returnType _ span =>
      let paramTypes := map (fun p => toStaticType (paramTypeNode p)) params in
      let key := toLowerCase name in
      do func <- getFunctionSignature key ;;
      do proc <- getProcedureSignature key ;;
      if truthy func || truthy proc then
        run pushError span "SEM001" ;; ret globalScope
      else
        run setFunctionSignature key
              (mkFunctionSignature name paramTypes (TBasic returnType)) ;;
        ret (snd (define globalScope
                    (mkSymbolEntry name KFunction (TBasic returnType)
                                   (Some paramTypes))))
  | _ => ret globalScope
  end.

Fixpoint predeclareRoutines (statements : list StatementNode)
    (globalScope : Scope) : M Scope :=
  match statements with
  | [] => ret globalScope
  | statement :: rest =>
      do globalScope' <- predeclareRoutine statement globalScope ;;
      predeclareRoutines rest globalScope'
  end.

(** The parameter loop of the two routine-definition cases; returns the
    routine scope. *)
Fixpoint defineParams (params : list ParameterNode) (routineScope : Scope)
  : M Scope :=
  match params with
  | [] => ret routineScope
  | param :: rest =>
      let paramType := toStaticType (paramTypeNode param) in
      let '(ok, routineScope') :=
        define routineScope
               (mkSymbolEntry (paramName param) KParam paramType None) in
      run (if negb ok then pushError (paramSpan param) "SEM010" else ret tt) ;;
      defineParams rest routineScope'
  end.

(** The loop over the bounds of a FOR statement. *)
Fixpoint checkForBounds (exprs : list ExpressionNode) (scope : Scope) : M unit :=
  match exprs with
  | [] => ret tt
  | expr :: rest =>
      do t <- inferExpressionType expr (Some scope) ;;
      run (if negb (isNumeric t) then pushError (exprSpan expr) "SEM007"
           else ret tt) ;;
      checkForBounds rest scope
  end.

(** The loop of the OUTPUT case. *)
Fixpoint inferAll (values : list ExpressionNode) (scope : Scope) : M unit :=
  match values with
  | [] => ret tt
  | value :: rest =>
      run inferExpressionType value (Some scope) ;;
      inferAll rest scope
  end.

(** [openFiles]: the own properties of the object. *)
Abbreviation OpenFiles := (gmap jsstring FileMode).

(** [fileName && openFiles[fileName] && openFiles[fileName] !== mode]:
    the file name is a non-empty string and the property read is
    neither [undefined] nor the string [mode]. *)
Definition fileModeEqb (a b : FileMode) : bool :=
  match a, b with
  | READ, READ | WRITE, WRITE => true
  | _, _ => false
  end.

Definition nonEmpty (fileName : option jsstring) : option jsstring :=
  match fileName with
  | Some (c :: r) => Some (c :: r)
  | _ => None
  end.

Definition openInOtherMode (fileName : option jsstring) (openFiles : OpenFiles)
    (mode : FileMode) : bool :=
  match nonEmpty fileName with
  | None => false
  | Some f =>
      match getProperty openFiles f with
      | Undefined => false
      | Inherited => true
      | Own m => negb (fileModeEqb m mode)
      end
  end.

(** What one statement of a block leaves behind: whether it was a
    RETURN, the scope and the [openFiles] object of the block. *)
Definition StepResult : Type := bool * Scope * OpenFiles.

Section WithAnalyzeStatement.

Variable analyzeOne :
  StatementNode -> Scope -> option StaticType -> OpenFiles -> M StepResult.

(** The [for (const statement of statements)] loop of
    [analyzeStatements], started with the given [sawReturn]. *)
Fixpoint analyzeStatementsFrom (statements : list StatementNode)
    (sawReturn : bool) (scope : Scope)
    (currentFunctionReturnType : option StaticType) (openFiles : OpenFiles)
  : M StepResult :=
  match statements with
  | [] => ret (sawReturn, scope, openFiles)
  | statement :: rest =>
      do r <- analyzeOne statement scope currentFunctionReturnType openFiles ;;
      let '(isReturn, scope', openFiles') := r in
      analyzeStatementsFrom rest (sawReturn || isReturn) scope'
                            currentFunctionReturnType openFiles'
  end.

(** The loop over [statement.clauses] of the CASE case. *)
Fixpoint analyzeClauses
    (clauses : list (option ExpressionNode * StatementNode * SourceSpan))
    (scope : Scope) (currentFunctionReturnType : option StaticType)
    (openFiles : OpenFiles) : M unit :=
  match clauses with
  | [] => ret tt
  | (value, statement, _) :: rest =>
      run match value with
          | Some v => run inferExpressionType v (Some scope) ;; ret tt
          | None => ret tt
          end ;;
      run analyzeStatementsFrom [statement] false (newScope (Some scope))
            currentFunctionReturnType openFiles ;;
      analyzeClauses rest scope currentFunctionReturnType openFiles
  end.

End WithAnalyzeStatement.

(** The body of the [switch] in [analyzeStatements], for one statement.
    A nested block is analysed in a fresh child scope with a copy
    [{ ...openFiles }]; what it returns is dropped. *)
Fixpoint analyzeStatement (statement : StatementNode) (scope : Scope)
    (currentFunctionReturnType : option StaticType) (openFiles : OpenFiles)
    {struct statement} : M StepResult :=
  let block := fun body =>
    run analyzeStatementsFrom analyzeStatement body false
          (newScope (Some scope)) currentFunctionReturnType openFiles ;;
    ret tt in
  match statement with
  | SDeclare identifier typeNode span =>
      let declaredType := toStaticType typeNode in
      let '(ok, scope') :=
        define scope
               (mkSymbolEntry (identName identifier) KVariable declaredType None) in
      run (if negb ok then pushError span "SEM002" else ret tt) ;;
      run setSymbolType (identName identifier) declaredType ;;
      ret (false, scope', openFiles)

  | SConstant identifier value span =>
      do valueType <- inferExpressionType value (Some scope) ;;
      let '(ok, scope') :=
        define scope
               (mkSymbolEntry (identName identifier) KConstant valueType None) in
      run (if negb ok then pushError span "SEM002" else ret tt) ;;
      run setSymbolType (identName identifier) valueType ;;
      ret (false, scope', openFiles)

  | SAssignment target value span =>
      do targetType <- resolveAssignableType target scope ;;
      do valueType <- inferExpressionType value (Some scope) ;;
      run (if negb (typesCompatible targetType valueType)
           then pushError span "SEM003" else ret tt) ;;
      ret (false, scope, openFiles)

  | SInput target _ =>
      run resolveAssignableType target scope ;;
      ret (false, scope, openFiles)

  | SOutput values _ =>
      run inferAll values scope ;;
      ret (false, scope, openFiles)

  | SIf condition thenBody elseBody _ =>
      do condType <- inferExpressionType condition (Some scope) ;;
      run (if negb (isBoolean condType)
           then pushError (exprSpan condition) "SEM004" else ret tt) ;;
      run block thenBody ;;
      run block elseBody ;;
      ret (false, scope, openFiles)

  | SCase expression clauses _ =>
      run inferExpressionType expression (Some scope) ;;
      run analyzeClauses analyzeStatement clauses scope
            currentFunctionReturnType openFiles ;;
      ret (false, scope, openFiles)

  | SFor iterator startValue endValue stepValue body _ =>
      run match lookup scope (identName iterator) with
          | None => pushError (identSpan iterator) "SEM005"
          | Some iteratorSymbol =>
              match seType iteratorSymbol with
              | TBasic INTEGER => ret tt
              | _ => pushError (identSpan iterator) "SEM006"
              end
          end ;;
      run checkForBounds
            ([startValue; endValue] ++
             match stepValue with Some e => [e] | None => [] end) scope ;;
      run block body ;;
      ret (false, scope, openFiles)

  | SRepeat body condition _ =>
      run block body ;;
      do condType <- inferExpressionType condition (Some scope) ;;
      run (if negb (isBoolean condType)
           then pushError (exprSpan condition) "SEM008" else ret tt) ;;
      ret (false, scope, openFiles)

  | SWhile condition body _ =>
      do condType <- inferExpressionType condition (Some scope) ;;
      run (if negb (isBoolean condType)
           then pushError (exprSpan condition) "SEM009" else ret tt) ;;
      run block body ;;
      ret (false, scope, openFiles)

  | SProcedureDefinition _ params body _ =>
      do procedureScope <- defineParams params (newScope (Some scope)) ;;
      run analyzeStatementsFrom analyzeStatement body false procedureScope
            None ∅ ;;
      ret (false, scope, openFiles)

  | SFunctionDefinition _ params returnType body span =>
      do functionScope <- defineParams params (newScope (Some scope)) ;;
      do r <- analyzeStatementsFrom analyzeStatement body false functionScope
                (Some (TBasic returnType)) ∅ ;;
      let returned := fst (fst r) in
      run (if negb returned then pushError span "SEM011" else ret tt) ;;
      ret (false, scope, openFiles)

  | SCallStatement name args span =>
      do signature <- getProcedureSignature (toLowerCase name) ;;
      if negb (truthy signature) then
        run pushError span "SEM012" ;; ret (false, scope, openFiles)
      else
        run validateCallArguments args (procedureParams signature) span scope ;;
        ret (false, scope, openFiles)

  | SReturn value span =>
      do returnValueType <- inferExpressionType value (Some scope) ;;
      run match currentFunctionReturnType with
          | None => pushError span "SEM013"
          | Some expected =>
              if negb (typesCompatible expected returnValueType)
              then pushError span "SEM014" else ret tt
          end ;;
      ret (true, scope, openFiles)

  | SOpenFile fileIdentifier mode _ =>
      do fileName <- literalFileName fileIdentifier scope ;;
      let openFiles' :=
        match nonEmpty fileName with
        | Some f => setProperty openFiles f mode
        | None => openFiles
        end in
      run inferExpressionType fileIdentifier (Some scope) ;;
      ret (false, scope, openFiles')

  | SReadFile fileIdentifier target span =>
      do fileName <- literalFileName fileIdentifier scope ;;
      run (if openInOtherMode fileName openFiles READ
           then pushError span "SEM015" else ret tt) ;;
      run inferExpressionType fileIdentifier (Some scope) ;;
      run resolveAssignableType target scope ;;
      ret (false, scope, openFiles)

  | SWriteFile fileIdentifier value span =>
      do fileName <- literalFileName fileIdentifier scope ;;
      run (if openInOtherMode fileName openFiles WRITE
           then pushError span "SEM016" else ret tt) ;;
      run inferExpressionType fileIdentifier (Some scope) ;;
      run inferExpressionType value (Some scope) ;;
      ret (false, scope, openFiles)

  | SCloseFile fileIdentifier _ =>
      do fileName <- literalFileName fileIdentifier scope ;;
      let openFiles' :=
        match nonEmpty fileName with
        | Some f => deleteProperty openFiles f
        | None => openFiles
        end in
      run inferExpressionType fileIdentifier (Some scope) ;;
      ret (false, scope, openFiles')
  end.

(** [analyzeStatements]: returns [sawReturn], and leaves the mutated
    [scope] and [openFiles] objects to the caller. *)
Definition analyzeStatements (statements : list StatementNode) (scope : Scope)
    (currentFunctionReturnType : option StaticType) (openFiles : OpenFiles)
  : M StepResult :=
  analyzeStatementsFrom analyzeStatement statements false scope
                        currentFunctionReturnType openFiles.

Definition initialState : AState :=
  mkAState [] ∅ BUILTIN_FUNCTIONS ∅.

Definition analyze (program : ProgramNode) : M SemanticResult :=
  let globalScope := newScope None in
  do globalScope' <- predeclareRoutines (programBody program) globalScope ;;
  run analyzeStatements (programBody program) globalScope' None ∅ ;;
  fun st =>
    Normal (mkSemanticResult (aDiagnostics st) (symbolTypes st)
                             (functionSignatures st) (procedureSignatures st),
            st).

Definition analyzeProgram (ast : ProgramNode) : Completion SemanticResult :=
  match analyze ast initialState with
  | Normal (result, _) => Normal result
  | Throw e => Throw e
  end.

(** *** Vocabulary for the analyzer's properties *)

(** The diagnostic that [pushError] appends. *)
Definition errorAt (span : SourceSpan) (c : string) : Diagnostic :=
  mkDiagnostic (js c) SevError (startLine span) (startColumn span)
               (spanEndLine span) (spanEndColumn span).

(** The analyzer state after one more diagnostic. *)
Definition withError (st : AState) (span : SourceSpan) (c : string) : AState :=
  mkAState (aDiagnostics st ++ [errorAt span c]) (symbolTypes st)
           (functionSignatures st) (procedureSignatures st).

(** A statement that is a RETURN. *)
Definition isReturnStatement (s : StatementNode) : bool :=
  match s with
  | SReturn _ _ => true
  | _ => false
  end.

(** The first component of what a block step returns is [b]. *)
Definition flagIs (b : bool) (m : M StepResult) : Prop :=
  forall st r st', m st = Normal (r, st') -> fst (fst r) = b.

(** A string literal as the parser builds one. *)
Definition stringLiteral (value : jsstring) (span : SourceSpan) : ExpressionNode :=
  ELiteral (LString value) STRING span.

Definition isStringLiteral (e : ExpressionNode) : bool :=
  match e with
  | ELiteral (LString _) STRING _ => true
  | _ => false
  end.


(** The routine names called in an expression. *)
Fixpoint expressionCalls (e : ExpressionNode) : list jsstring :=
  match e with
  | ELiteral _ _ _ | EIdentifier _ _ => []
  | EUnary _ operand _ => expressionCalls operand
  | EBinary _ left_ right_ _ => expressionCalls left_ ++ expressionCalls right_
  | ECall name args _ => name :: flat_map expressionCalls args
  | EArrayAccess _ indices _ => flat_map expressionCalls indices
  end.

(** The routine names called in a statement, by CALL or in an
    expression, nested statements included. *)
Fixpoint statementCalls (s : StatementNode) : list jsstring :=
  match s with
  | SDeclare _ _ _ => []
  | SConstant _ value _ => expressionCalls value
  | SAssignment target value _ => expressionCalls target ++ expressionCalls value
  | SInput target _ => expressionCalls target
  | SOutput values _ => flat_map expressionCalls values
  | SIf condition thenBody elseBody _ =>
      expressionCalls condition ++ flat_map statementCalls thenBody
        ++ flat_map statementCalls elseBody
  | SCase expression clauses _ =>
      expressionCalls expression ++
      flat_map (fun clause : option ExpressionNode * StatementNode * SourceSpan =>
                  match fst (fst clause) with
                  | Some v => expressionCalls v
                  | None => []
                  end ++ statementCalls (snd (fst clause)))
               clauses
  | SFor _ startValue endValue stepValue body _ =>
      expressionCalls startValue ++ expressionCalls endValue
        ++ match stepValue with Some e => expressionCalls e | None => [] end
        ++ flat_map statementCalls body
  | SRepeat body condition _ =>
      flat_map statementCalls body ++ expressionCalls condition
  | SWhile condition body _ =>
      expressionCalls condition ++ flat_map statementCalls body
  | SProcedureDefinition _ _ body _ => flat_map statementCalls body
  | SFunctionDefinition _ _ _ body _ => flat_map statementCalls body
  | SCallStatement name args _ => name :: flat_map expressionCalls args
  | SReturn value _ => expressionCalls value
  | SOpenFile fileIdentifier _ _ => expressionCalls fileIdentifier
  | SReadFile fileIdentifier target _ =>
      expressionCalls fileIdentifier ++ expressionCalls target
  | SWriteFile fileIdentifier value _ =>
      expressionCalls fileIdentifier ++ expressionCalls value
  | SCloseFile fileIdentifier _ => expressionCalls fileIdentifier
  end.

Definition programCalls (program : ProgramNode) : list jsstring :=
  flat_map statementCalls (programBody program).

(** No name of the list, lowercased as the signature tables key it, is
    a property of [Object.prototype]. *)
Definition avoidPrototype (names : list jsstring) : bool :=
  forallb (fun name => negb (includes objectPrototypeKeys (toLowerCase name)))
          names.

(** The diagnostics of [st'] are those of [st] followed by errors. *)
Definition extends (st st' : AState) : Prop :=
  exists added,
    aDiagnostics st' = aDiagnostics st ++ added /\ errorsOnly added.

(** [m] keeps the diagnostics it finds and adds errors only, and does
    not throw when [safe] holds. *)
Definition keeps {A} (safe : Prop) (m : M A) : Prop :=
  forall st,
    match m st with
    | Normal (_, st') => extends st st'
    | Throw _ => ~ safe
    end.

(** Under [safe], no call in the expression or statement names a
    property of [Object.prototype]. *)
Definition safeExpression (safe : Prop) (e : ExpressionNode) : Prop :=
  safe -> avoidPrototype (expressionCalls e) = true.

Definition safeStatement (safe : Prop) (s : StatementNode) : Prop :=
  safe -> avoidPrototype (statementCalls s) = true.

Definition keepsStatement (safe : Prop) (s : StatementNode) : Prop :=
  safeStatement safe s ->
  forall scope current openFiles,
    keeps safe (analyzeStatement s scope current openFiles).

(** Statements that hold nested statements. *)
Definition isStructured (s : StatementNode) : bool :=
  match s with
  | SIf _ _ _ _ | SCase _ _ _ | SFor _ _ _ _ _ _ | SRepeat _ _ _
  | SWhile _ _ _ | SProcedureDefinition _ _ _ _
  | SFunctionDefinition _ _ _ _ _ => true
  | _ => false
  end.

(** The name a top-level routine definition declares. *)
Definition routineName (s : StatementNode) : option jsstring :=
  match s with
  | SProcedureDefinition name _ _ _ | SFunctionDefinition name _ _ _ _ =>
      Some name
  | _ => None
  end.

(** The test [procedureSignatures[key] || functionSignatures[key]] for
    the key of [name]. *)
Definition knownRoutine (st : AState) (name : jsstring) : bool :=
  truthy (getProperty (procedureSignatures st) (toLowerCase name))
  || truthy (getProperty (functionSignatures st) (toLowerCase name)).

(** Every normal result of [m] satisfies [Q]. *)
Definition yields {A} (Q : A -> Prop) (m : M A) : Prop :=
  forall st r st', m st = Normal (r, st') -> Q r.

End Semantics.

(** ** Python generator ([codegen.ts]) *)

Module Codegen.

Definition dq : jsstring := [34%N].
Definition backslash : N := 92%N.

(** [Array.prototype.join]. *)
Fixpoint join (sep : jsstring) (parts : list jsstring) : jsstring :=
  match parts with
  | [] => []
  | [x] => x
  | x :: rest => x ++ sep ++ join sep rest
  end.

(** [String.prototype.repeat]. *)
Fixpoint repeatString (s : jsstring) (n : nat) : jsstring :=
  match n with
  | O => []
  | S n' => s ++ repeatString s n'
  end.

(** Decimal text of an integer. *)
Definition integerToString (z : Z) : jsstring :=
  js (NilZero.string_of_int (Z.to_int z)).

Definition hexDigit (n : N) : N :=
  if (n <? 10)%N then (48 + n)%N else (87 + n)%N.

Definition unicodeEscape (c : N) : jsstring :=
  [backslash; 117%N;
   hexDigit ((c / 4096) mod 16)%N; hexDigit ((c / 256) mod 16)%N;
   hexDigit ((c / 16) mod 16)%N; hexDigit (c mod 16)%N].

Definition isHighSurrogate (c : N) : bool := ((55296 <=? c) && (c <=? 56319))%N.
Definition isLowSurrogate (c : N) : bool := ((56320 <=? c) && (c <=? 57343))%N.

(** The characters between the quotes of [JSON.stringify(s)];
    [prevHigh] tells that the previous code unit was a high surrogate
    paired with this one. *)
Fixpoint quoteJSONFrom (prevHigh : bool) (s : jsstring) : jsstring :=
  match s with
  | [] => []
  | c :: r =>
      let next := hd 0%N r in
      let paired := isHighSurrogate c && isLowSurrogate next in
      let piece :=
        if (c =? 8)%N then [backslash; 98%N]
        else if (c =? 9)%N then [backslash; 116%N]
        else if (c =? 10)%N then [backslash; 110%N]
        else if (c =? 12)%N then [backslash; 102%N]
        else if (c =? 13)%N then [backslash; 114%N]
        else if (c =? 34)%N then [backslash; 34%N]
        else if (c =? backslash)%N then [backslash; backslash]
        else if (c <? 32)%N then unicodeEscape c
        else if isHighSurrogate c then
          (if paired then [c] else unicodeEscape c)
        else if isLowSurrogate c then
          (if prevHigh then [c] else unicodeEscape c)
        else [c] in
      piece ++ quoteJSONFrom paired r
  end.

(** [JSON.stringify] of a string. *)
Definition jsonStringify (s : jsstring) : jsstring :=
  dq ++ quoteJSONFrom false s ++ dq.

(** Text that JavaScript gives a real numeral of ordinary size: no
    leading zeros, no trailing zeros in the fraction. *)
Fixpoint dropLeadingZeros (s : jsstring) : jsstring :=
  match s with
  | c :: (_ :: _) as r => if (c =? 48)%N then dropLeadingZeros r else s
  | _ => s
  end.

Fixpoint dropZeros (s : jsstring) : jsstring :=
  match s with
  | c :: r => if (c =? 48)%N then dropZeros r else s
  | [] => []
  end.

Definition dropTrailingZeros (s : jsstring) : jsstring :=
  rev (dropZeros (rev s)).

Definition realNumeralText (numeral : jsstring) : jsstring :=
  let intPart := Parser.takeWhile isDigitUnit numeral in
  let fracPart := dropTrailingZeros (skipn (S (length intPart)) numeral) in
  match fracPart with
  | [] => dropLeadingZeros intPart
  | _ => dropLeadingZeros intPart ++ [46%N] ++ fracPart
  end.

(** A rendering of [String(value)] for numbers.  It is what JavaScript
    prints for integers below [2^53] and for real numerals of at most
    fifteen significant digits between [1e-6] and [1e21]; outside that
    range JavaScript rounds or uses exponent notation. *)
Definition decimalNumberToString (n : JsNumber) : jsstring :=
  match n with
  | NumInt z => integerToString z
  | NumReal numeral => realNumeralText numeral
  end.

Definition prelude : list jsstring :=
  map js [
      "import random";
      EmptyString;
      "class __PseudoArray:";
      "    def __init__(self, bounds, default_value):";
      "        self._bounds = bounds";
      "        self._default = default_value";
      "        self._store = {}";
      EmptyString;
      "    def _norm(self, index):";
      "        if not isinstance(index, tuple):";
      "            index = (index,)";
      "        if len(index) != len(self._bounds):";
      "            raise IndexError('Incorrect index dimensions')";
      "        normalized = []";
      "        for value, bound in zip(index, self._bounds):";
      "            lo, hi = bound";
      "            ivalue = int(value)";
      "            if ivalue < lo or ivalue > hi:";
      "                raise IndexError('Index out of declared range')";
      "            normalized.append(ivalue)";
      "        return tuple(normalized)";
      EmptyString;
      "    def __getitem__(self, index):";
      "        key = self._norm(index)";
      "        return self._store.get(key, self._default)";
      EmptyString;
      "    def __setitem__(self, index, value):";
      "        key = self._norm(index)";
      "        self._store[key] = value";
      EmptyString;
      "_stdin_lines = list(globals().get('__stdin_lines', []))";
      "_stdin_cursor = 0";
      "__stdout = []";
      "__vfs = {k: list(v) for k, v in globals().get('__virtual_files', {}).items()}";
      "__open_files = {}";
      EmptyString;
      "def __coerce_input(value, expected_type):";
      "    if expected_type == 'INTEGER':";
      "        return int(value)";
      "    if expected_type == 'REAL':";
      "        return float(value)";
      "    if expected_type == 'BOOLEAN':";
      "        return str(value).strip().upper() == 'TRUE'";
      "    if expected_type == 'CHAR':";
      "        text = str(value)";
      "        return text[0] if text else ''";
      "    return str(value)";
      EmptyString;
      "def __input():";
      "    global _stdin_cursor";
      "    if _stdin_cursor >= len(_stdin_lines):";
      "        raise RuntimeError('INPUT requested but no stdin lines remain')";
      "    value = _stdin_lines[_stdin_cursor]";
      "    _stdin_cursor += 1";
      "    return value";
      EmptyString;
      "def __output(*values):";
      "    text = ''.join(str(v) for v in values)";
      "    __stdout.append(text)";
      EmptyString;
      "def DIV(a, b):";
      "    return int(a // b)";
      EmptyString;
      "def MOD(a, b):";
      "    return int(a % b)";
      EmptyString;
      "def LENGTH(value):";
      "    return len(str(value))";
      EmptyString;
      "def LCASE(value):";
      "    return str(value).lower()";
      EmptyString;
      "def UCASE(value):";
      "    return str(value).upper()";
      EmptyString;
      "def SUBSTRING(value, start, length):";
      "    start = int(start)";
      "    length = int(length)";
      "    if start < 1:";
      "        start = 1";
      "    text = str(value)";
      "    begin = start - 1";
      "    return text[begin:begin + length]";
      EmptyString;
      "def ROUND(value, places):";
      "    return round(float(value), int(places))";
      EmptyString;
      "def RANDOM():";
      "    return random.random()";
      EmptyString;
      "def OPENFILE(file_identifier, mode):";
      "    name = str(file_identifier)";
      "    if mode == 'WRITE':";
      "        __vfs[name] = []";
      "    elif name not in __vfs:";
      "        __vfs[name] = []";
      "    __open_files[name] = {'mode': mode, 'pointer': 0}";
      EmptyString;
      "def READFILE(file_identifier):";
      "    name = str(file_identifier)";
      "    handle = __open_files.get(name)";
      "    if not handle:";
      "        raise RuntimeError(f'File {name} is not open')";
      "    if handle['mode'] != 'READ':";
      "        raise RuntimeError(f'File {name} not opened in READ mode')";
      "    pointer = handle['pointer']";
      "    data = __vfs.get(name, [])";
      "    if pointer >= len(data):";
      "        return ''";
      "    handle['pointer'] += 1";
      "    return data[pointer]";
      EmptyString;
      "def WRITEFILE(file_identifier, value):";
      "    name = str(file_identifier)";
      "    handle = __open_files.get(name)";
      "    if not handle:";
      "        raise RuntimeError(f'File {name} is not open')";
      "    if handle['mode'] != 'WRITE':";
      "        raise RuntimeError(f'File {name} not opened in WRITE mode')";
      "    __vfs.setdefault(name, []).append(str(value))";
      EmptyString;
      "def CLOSEFILE(file_identifier):";
      "    name = str(file_identifier)";
      "    if name in __open_files:";
      "        del __open_files[name]";
      EmptyString;
      "def __inclusive_range(start, end, step=1):";
      "    start = int(start)";
      "    end = int(end)";
      "    step = int(step)";
      "    if step == 0:";
      "        raise RuntimeError('FOR STEP cannot be zero')";
      "    value = start";
      "    if step > 0:";
      "        while value <= end:";
      "            yield value";
      "            value += step";
      "    else:";
      "        while value >= end:";
      "            yield value";
      "            value += step";
      EmptyString
  ]%string.

(** The fields of [class PythonGenerator]; [scopeStack] has its top
    frame first. *)
Record GState : Type := mkGState {
  lines : list jsstring;
  caseCounter : nat;
  scopeStack : list (gmap jsstring StaticType)
}.

Definition G (A : Type) : Type := GState -> A * GState.

Definition ret {A} (a : A) : G A := fun st => (a, st).

Definition bind {A B} (m : G A) (k : A -> G B) : G B :=
  fun st => let '(a, st') := m st in k a st'.

Declare Scope codegen_scope.
Delimit Scope codegen_scope with codegen.
Notation "'do' x <- m ;; k" := (bind m (fun x => k))
  (at level 10, x name, m at level 99, k at level 200) : codegen_scope.
Notation "'run' m ;; k" := (bind m (fun _ => k))
  (at level 10, m at level 99, k at level 200) : codegen_scope.
Local Open Scope codegen_scope.

(** [this.lines.push(line)]. *)
Definition push (l : jsstring) : G unit :=
  fun st => (tt, mkGState (lines st ++ [l]) (caseCounter st) (scopeStack st)).

Definition pushScope : G unit :=
  fun st => (tt, mkGState (lines st) (caseCounter st) (∅ :: scopeStack st)).

Definition popScope : G unit :=
  fun st => (tt, mkGState (lines st) (caseCounter st) (tl (scopeStack st))).

(** [this.caseCounter++]. *)
Definition nextCase : G nat :=
  fun st => (caseCounter st,
             mkGState (lines st) (S (caseCounter st)) (scopeStack st)).

(** [declareType]: writes into the top frame.  Pushes and pops are
    balanced and the stack starts with one frame, so there is a top
    frame at every call. *)
Definition declareType (name : jsstring) (t : StaticType) : G unit :=
  fun st =>
    (tt,
     match scopeStack st with
     | top :: below =>
         mkGState (lines st) (caseCounter st)
                  (setProperty top (toLowerCase name) t :: below)
     | [] => st
     end).

Definition normalizeName (name : jsstring) : jsstring := name.

Definition defaultValueLiteral (typeName : BasicTypeName) : jsstring :=
  match typeName with
  | INTEGER => js "0"
  | REAL => js "0.0"
  | CHAR => js "''"
  | STRING => dq ++ dq
  | BOOLEAN => js "False"
  end.

Definition typeNodeToStatic (typeNode : TypeNode) : StaticType :=
  match typeNode with
  | TNBasic name _ => TBasic name
  | TNArray elementType dimensions _ => TArray elementType dimensions
  end.

Section WithNumbers.

(** [String(value)] on a number literal. *)
Variable numberToString : JsNumber -> jsstring.

Variable semanticResult : SemanticResult.

(** [String(expression.value)]. *)
Definition valueToString (v : LiteralValue) : jsstring :=
  match v with
  | LNumber n => numberToString n
  | LString s => s
  | LBoolean true => js "true"
  | LBoolean false => js "false"
  end.

(** Truthiness of a literal value; the parser puts a boolean under
    every BOOLEAN literal. *)
Definition valueTruthy (v : LiteralValue) : bool :=
  match v with
  | LBoolean b => b
  | LString s => negb (Nat.eqb (length s) 0)
  | LNumber (NumInt z) => negb (z =? 0)
  | LNumber (NumReal numeral) =>
      existsb (fun c => isDigitUnit c && negb (c =? 48)%N) numeral
  end.

(** The operator names come from the parser's table, none of which is
    a property of [Object.prototype]. *)
Definition operatorMap (op : jsstring) : jsstring :=
  if streq op (js "=") then js "=="
  else if streq op (js "<>") then js "!="
  else if streq op (js "AND") then js "and"
  else if streq op (js "OR") then js "or"
  else op.

Fixpoint emitExpression (expression : ExpressionNode) : jsstring :=
  match expression with
  | ELiteral value literalType _ =>
      match literalType with
      | STRING | CHAR => jsonStringify (valueToString value)
      | BOOLEAN => if valueTruthy value then js "True" else js "False"
      | _ => valueToString value
      end
  | EIdentifier name _ => normalizeName name
  | EArrayAccess name indices _ =>
      normalizeName name ++ js "[" ++ join (js ", ") (map emitExpression indices)
                    ++ js "]"
  | EUnary operator operand _ =>
      match operator with
      | OpNOT => js "(not (" ++ emitExpression operand ++ js "))"
      | OpMinus => js "(-(" ++ emitExpression operand ++ js "))"
      end
  | EBinary op left_ right_ _ =>
      js "((" ++ emitExpression left_ ++ js ") " ++ operatorMap op ++ js " ("
         ++ emitExpression right_ ++ js "))"
  | ECall name args _ =>
      normalizeName name ++ js "(" ++ join (js ", ") (map emitExpression args)
                    ++ js ")"
  end.

Definition emitAssignable (target : ExpressionNode) : jsstring :=
  match target with
  | EIdentifier name _ => normalizeName name
  | EArrayAccess name indices _ =>
      normalizeName name ++ js "[" ++ join (js ", ") (map emitExpression indices)
                    ++ js "]"
  | _ => js "__invalid_target"
  end.

(** [lookupType].  A read that lands on [Object.prototype] yields an
    object that is neither basic nor an array; every caller treats it
    like [unknown]. *)
Fixpoint lookupFrames (frames : list (gmap jsstring StaticType))
    (lower : jsstring) : option StaticType :=
  match frames with
  | [] => None
  | frame :: below =>
      match getProperty frame lower with
      | Own t => Some t
      | Inherited => Some TUnknown
      | Undefined => lookupFrames below lower
      end
  end.

Definition lookupType (name : jsstring) : G StaticType :=
  fun st =>
    let lower := toLowerCase name in
    (match lookupFrames (scopeStack st) lower with
     | Some t => t
     | None =>
         match getProperty (srSymbolTypes semanticResult) lower with
         | Own t => t
         | _ => TUnknown
         end
     end, st).

Definition inferStaticType (expression : ExpressionNode) : G StaticType :=
  match expression with
  | ELiteral _ literalType _ => ret (TBasic literalType)
  | EIdentifier name _ => lookupType name
  | EArrayAccess name _ _ =>
      do t <- lookupType name ;;
      match t with
      | TArray elementType _ => ret (TBasic elementType)
      | _ => ret TUnknown
      end
  | _ => ret TUnknown
  end.

Definition resolveTargetType (target : ExpressionNode) : G StaticType :=
  match target with
  | EIdentifier name _ => lookupType name
  | EArrayAccess name _ _ =>
      do t <- lookupType name ;;
      match t with
      | TArray elementType _ => ret (TBasic elementType)
      | _ => ret TUnknown
      end
  | _ => ret TUnknown
  end.

Definition indentOf (indentLevel : nat) : jsstring :=
  repeatString (js "    ") indentLevel.

Section WithEmitStatement.

Variable emitOne : StatementNode -> nat -> G unit.

Fixpoint emitStatementBlockWith (statements : list StatementNode)
    (indentLevel : nat) : G unit :=
  match statements with
  | [] => ret tt
  | statement :: rest =>
      run emitOne statement indentLevel ;;
      emitStatementBlockWith rest indentLevel
  end.

(** [pass] for an empty block, else the block. *)
Definition emitBody (body : list StatementNode) (indentLevel : nat) : G unit :=
  match body with
  | [] => push (indentOf indentLevel ++ js "    pass")
  | _ => emitStatementBlockWith body (S indentLevel)
  end.

(** The loop over [statement.clauses] of the CASE case. *)
Fixpoint emitClauses
    (clauses : list (option ExpressionNode * StatementNode * SourceSpan))
    (caseName : jsstring) (branchCount : nat) (indentLevel : nat) : G unit :=
  match clauses with
  | [] => ret tt
  | (None, statement, _) :: rest =>
      run push (indentOf indentLevel ++ js "else:") ;;
      run emitOne statement (S indentLevel) ;;
      emitClauses rest caseName branchCount indentLevel
  | (Some value, statement, _) :: rest =>
      let branchPrefix :=
        match branchCount with O => js "if" | S _ => js "elif" end in
      let clauseValue := emitExpression value in
      run push (indentOf indentLevel ++ branchPrefix ++ js " " ++ caseName
                         ++ js " == " ++ clauseValue ++ js ":") ;;
      run emitOne statement (S indentLevel) ;;
      emitClauses rest caseName (S branchCount) indentLevel
  end.

End WithEmitStatement.

Definition fileModeText (m : FileMode) : jsstring :=
  match m with READ => js "READ" | WRITE => js "WRITE" end.

Fixpoint emitStatement (statement : StatementNode) (indentLevel : nat)
    {struct statement} : G unit :=
  let indent := indentOf indentLevel in
  match statement with
  | SDeclare identifier typeNode _ =>
      let name := normalizeName (identName identifier) in
      let staticType := typeNodeToStatic typeNode in
      run declareType (identName identifier) staticType ;;
      match typeNode with
      | TNArray elementType dimensions _ =>
          let bounds :=
            join (js ", ")
              (map (fun d => js "(" ++ numberToString (NumInt (lower d))
                                ++ js ", " ++ numberToString (NumInt (upper d))
                                ++ js ")")
                   dimensions) in
          push (indent ++ name ++ js " = __PseudoArray([" ++ bounds ++ js "], "
                       ++ defaultValueLiteral elementType ++ js ")")
      | TNBasic typeName _ =>
          push (indent ++ name ++ js " = " ++ defaultValueLiteral typeName)
      end

  | SConstant identifier value _ =>
      let name := normalizeName (identName identifier) in
      let valueText := emitExpression value in
      do t <- inferStaticType value ;;
      run declareType (identName identifier) t ;;
      push (indent ++ name ++ js " = " ++ valueText)

  | SAssignment target value _ =>
      push (indent ++ emitAssignable target ++ js " = " ++ emitExpression value)

  | SInput target _ =>
      let targetText := emitAssignable target in
      do targetType <- resolveTargetType target ;;
      match targetType with
      | TBasic typeName =>
          push (indent ++ targetText ++ js " = __coerce_input(__input(), "
                       ++ dq ++ basicTypeText typeName ++ dq ++ js ")")
      | _ => push (indent ++ targetText ++ js " = __input()")
      end

  | SOutput values _ =>
      push (indent ++ js "__output("
                   ++ join (js ", ") (map emitExpression values) ++ js ")")

  | SIf condition thenBody elseBody _ =>
      run push (indent ++ js "if " ++ emitExpression condition ++ js ":") ;;
      run pushScope ;;
      run emitBody emitStatement thenBody indentLevel ;;
      run popScope ;;
      match elseBody with
      | [] => ret tt
      | _ =>
          run push (indent ++ js "else:") ;;
          run pushScope ;;
          run emitStatementBlockWith emitStatement elseBody (S indentLevel) ;;
          popScope
      end

  | SCase expression clauses _ =>
      do n <- nextCase ;;
      let caseName := js "__case_" ++ integerToString (Z.of_nat n) in
      run push (indent ++ caseName ++ js " = " ++ emitExpression expression) ;;
      run emitClauses emitStatement clauses caseName 0 indentLevel ;;
      match clauses with
      | [] => push (indent ++ js "pass")
      | _ => ret tt
      end

  | SFor iterator startValue endValue stepValue body _ =>
      let iteratorText := normalizeName (identName iterator) in
      let stepText := match stepValue with
                      | Some e => emitExpression e
                      | None => js "1"
                      end in
      run push (indent ++ js "for " ++ iteratorText ++ js " in __inclusive_range("
                       ++ emitExpression startValue ++ js ", "
                       ++ emitExpression endValue ++ js ", " ++ stepText
                       ++ js "):") ;;
      run pushScope ;;
      run declareType (identName iterator) (TBasic INTEGER) ;;
      run emitBody emitStatement body indentLevel ;;
      popScope

  | SRepeat body condition _ =>
      run push (indent ++ js "while True:") ;;
      run pushScope ;;
      run emitBody emitStatement body indentLevel ;;
      run push (indent ++ js "    if " ++ emitExpression condition ++ js ":") ;;
      run push (indent ++ js "        break") ;;
      popScope

  | SWhile condition body _ =>
      run push (indent ++ js "while " ++ emitExpression condition ++ js ":") ;;
      run pushScope ;;
      run emitBody emitStatement body indentLevel ;;
      popScope

  | SProcedureDefinition _ _ _ _ => ret tt
  | SFunctionDefinition _ _ _ _ _ => ret tt

  | SCallStatement name args _ =>
      push (indent ++ normalizeName name ++ js "("
                   ++ join (js ", ") (map emitExpression args) ++ js ")")

  | SReturn value _ =>
      push (indent ++ js "return " ++ emitExpression value)

  | SOpenFile fileIdentifier mode _ =>
      push (indent ++ js "OPENFILE(" ++ emitExpression fileIdentifier ++ js ", "
                   ++ dq ++ fileModeText mode ++ dq ++ js ")")

  | SReadFile fileIdentifier target _ =>
      let file := emitExpression fileIdentifier in
      let targetText := emitAssignable target in
      push (indent ++ targetText ++ js " = READFILE(" ++ file ++ js ")")

  | SWriteFile fileIdentifier value _ =>
      push (indent ++ js "WRITEFILE(" ++ emitExpression fileIdentifier ++ js ", "
                   ++ emitExpression value ++ js ")")

  | SCloseFile fileIdentifier _ =>
      push (indent ++ js "CLOSEFILE(" ++ emitExpression fileIdentifier ++ js ")")
  end.

Definition emitStatementBlock (statements : list StatementNode)
    (indentLevel : nat) : G unit :=
  emitStatementBlockWith emitStatement statements indentLevel.

Fixpoint declareParams (params : list ParameterNode) : G unit :=
  match params with
  | [] => ret tt
  | param :: rest =>
      run declareType (paramName param)
            (typeNodeToStatic (paramTypeNode param)) ;;
      declareParams rest
  end.

(** [emitProcedureDefinition] and [emitFunctionDefinition]; they differ
    in the line written for an empty body. *)
Definition emitRoutineDefinition (name : jsstring) (params : list ParameterNode)
    (body : list StatementNode) (emptyBody : jsstring) : G unit :=
  let paramText :=
    join (js ", ") (map (fun p => normalizeName (paramName p)) params) in
  run push (js "def " ++ normalizeName name ++ js "(" ++ paramText ++ js "):") ;;
  run pushScope ;;
  run declareParams params ;;
  run match body with
      | [] => push emptyBody
      | _ => emitStatementBlock body 1
      end ;;
  popScope.

Definition isDefinition (statement : StatementNode) : bool :=
  match statement with
  | SProcedureDefinition _ _ _ _ | SFunctionDefinition _ _ _ _ _ => true
  | _ => false
  end.

Fixpoint emitDefinitions (definitions : list StatementNode) : G unit :=
  match definitions with
  | [] => ret tt
  | definition :: rest =>
      run match definition with
          | SProcedureDefinition name params body _ =>
              emitRoutineDefinition name params body (js "    pass")
          | SFunctionDefinition name params _ body _ =>
              emitRoutineDefinition name params body (js "    return None")
          | _ => ret tt
          end ;;
      run push [] ;;
      emitDefinitions rest
  end.

Fixpoint pushAll (ls : list jsstring) : G unit :=
  match ls with
  | [] => ret tt
  | l :: rest => run push l ;; pushAll rest
  end.

Definition emitPrelude : G unit := pushAll prelude.

Definition generate (program : ProgramNode) : G jsstring :=
  run emitPrelude ;;
  let definitions := List.filter isDefinition (programBody program) in
  let mainStatements :=
    List.filter (fun s => negb (isDefinition s)) (programBody program) in
  run emitDefinitions definitions ;;
  run push (js "def __main__():") ;;
  run pushScope ;;
  run match mainStatements with
      | [] => push (js "    pass")
      | _ => emitStatementBlock mainStatements 1
      end ;;
  run popScope ;;
  run push [] ;;
  run push (js "__main__()") ;;
  fun st => (join [10%N] (lines st), st).

End WithNumbers.

Definition initialGenerator : GState := mkGState [] 0 [∅].

Definition generatePythonCode (numberToString : JsNumber -> jsstring)
    (ast : ProgramNode) (semanticResult : SemanticResult) : jsstring :=
  fst (generate numberToString semanticResult ast initialGenerator).


(** *** Vocabulary for the generator's properties *)



(** No code unit below U+0020. *)
Definition noControl (s : jsstring) : bool :=
  forallb (fun c => (32 <=? c)%N) s.



(** A line that starts with the indentation of level [n]. *)
Definition indented (n : nat) (l : jsstring) : Prop :=
  exists text, l = indentOf n ++ text.

(** An emitting action appends [new] to the lines written so far. *)
Definition appends (st st' : GState) (new : list jsstring) : Prop :=
  lines st' = lines st ++ new.

(** An action that writes lines indented to level [n] or deeper, at
    least [atLeast] of them. *)
Definition emits {A} (n atLeast : nat) (m : G A) : Prop :=
  forall st, exists new,
    appends st (snd (m st)) new /\ Forall (indented n) new /\
    (atLeast <= length new)%nat.

(** What a statement writes at level [n]: lines of that level or
    deeper, and at least one unless it is a routine definition. *)
Definition writes (numberToString : JsNumber -> jsstring)
    (semanticResult : SemanticResult) (s : StatementNode) : Prop :=
  forall n,
    emits n (if isDefinition s then 0%nat else 1%nat)
          (emitStatement numberToString semanticResult s n).

End Codegen.

(** ** Compiler facade ([compilePseudocode]) *)

Module Compiler.

(** [a.localeCompare(b)] on diagnostic codes.  Codes are three capital
    letters followed by three digits; on such strings collation order
    is the order of the code units. *)
Fixpoint localeCompare (a b : jsstring) : Z :=
  match a, b with
  | [], [] => 0
  | [], _ :: _ => -1
  | _ :: _, [] => 1
  | x :: a', y :: b' =>
      if (x <? y)%N then -1
      else if (y <? x)%N then 1
      else localeCompare a' b'
  end.

(** The comparator handed to [sort]. *)
Definition compareDiagnostics (a b : Diagnostic) : Z :=
  if negb (line a =? line b) then line a - line b
  else if negb (column a =? column b) then column a - column b
  else localeCompare (code a) (code b).

Section Sort.

Context {A : Type} (compare : A -> A -> Z).

(** [Array.prototype.sort(compare)] is a stable sort; its result is
    determined when [compare] is a consistent comparator, and is
    computed here by stable insertion. *)
Fixpoint insertSorted (x : A) (l : list A) : list A :=
  match l with
  | [] => [x]
  | y :: l' => if compare x y <=? 0 then x :: l else y :: insertSorted x l'
  end.

Fixpoint sort (l : list A) : list A :=
  match l with
  | [] => []
  | x :: l' => insertSorted x (sort l')
  end.

End Sort.

(** Lexicographic order on code units, and the order
    [(line, column, code)] on diagnostics. *)
Fixpoint lexLe (a b : jsstring) : Prop :=
  match a, b with
  | [], _ => True
  | _ :: _, [] => False
  | x :: a', y :: b' => (x < y)%N \/ (x = y /\ lexLe a' b')
  end.

Definition diagnosticLe (a b : Diagnostic) : Prop :=
  line a < line b \/
  (line a = line b /\
   (column a < column b \/
    (column a = column b /\ lexLe (code a) (code b)))).

Definition isError (d : Diagnostic) : bool :=
  match severity d with
  | SevError => true
  | _ => false
  end.

(** The part of [compilePseudocode] that follows the two stage
    calls. *)
Definition assemble (numberToString : JsNumber -> jsstring)
    (ast : ProgramNode) (parseDiagnostics : list Diagnostic)
    (semanticResult : SemanticResult) : CompileResult :=
  let diagnostics :=
    sort compareDiagnostics (parseDiagnostics ++ srDiagnostics semanticResult) in
  if existsb isError diagnostics then
    mkCompileResult false diagnostics (Some ast) None
  else
    let pythonCode :=
      Codegen.generatePythonCode numberToString ast semanticResult in
    mkCompileResult true diagnostics (Some ast) (Some pythonCode).

(** [compilePseudocode], with the number printer of the generator and
    the step budget of the parser as parameters. *)
Definition compilePseudocodeWith (numberToString : JsNumber -> jsstring)
    (fuel : nat) (request : CompileRequest) : Outcome CompileResult :=
  match Parser.parseSourceWith fuel (source request) with
  | None => OutOfFuel
  | Some (ast, parseDiagnostics) =>
      match Semantics.analyzeProgram ast with
      | Throw e => Thrown e
      | Normal semanticResult =>
          Returned (assemble numberToString ast parseDiagnostics semanticResult)
      end
  end.

(** [compilePseudocode] with a budget that always suffices and with
    the decimal number printer, which prints what [String] prints for
    the numeric literals in its range. *)
Definition compilePseudocode (request : CompileRequest) : Outcome CompileResult :=
  compilePseudocodeWith Codegen.decimalNumberToString
                        (Parser.sourceFuel (source request)) request.

(** The request for a source text, as the tests build it. *)
Definition requestOf (text : string) : CompileRequest :=
  mkCompileRequest (js text) (js "main.pseudo").

(** A request whose source is given line by line. *)
Definition requestOfLines (sourceLines : list jsstring) : CompileRequest :=
  mkCompileRequest (Codegen.join [10%N] sourceLines) (js "main.pseudo").

(** A string literal of the source language. *)
Definition quoted (s : string) : jsstring := Codegen.dq ++ js s ++ Codegen.dq.

(** The codes of the diagnostics of a result. *)
Definition codesOf (r : Outcome CompileResult) : list jsstring :=
  match r with
  | Returned res => map code (diagnostics res)
  | _ => []
  end.

End Compiler.

(** ** Runtime helpers written by [emitPrelude]

    The Python text of [__inclusive_range], [OPENFILE], [READFILE],
    [WRITEFILE] and [CLOSEFILE], as functions on the module globals.
    Python [int] is [Z], [str] is [string], a [dict] is a finite map. *)

Module Runtime.

Inductive PyError : Type := RuntimeError | IndexError.

Inductive PyResult (A : Type) : Type :=
| PyReturn (a : A)
| PyRaise (e : PyError).
Arguments PyReturn {A} a.
Arguments PyRaise {A} e.

(** *** [__inclusive_range]

    A generator function: the call only builds the generator, and the
    body runs at the [next] calls of the consuming [for] loop.  The
    arguments are integers, on which [int(_)] is the identity. *)

Inductive RangeGenerator : Type :=
| Created (start end_ step : Z)          (* body not entered yet *)
| Looping (value end_ step : Z)          (* suspended at the [yield] *)
| Finished.

Definition inclusive_range (start end_ step : Z) : RangeGenerator :=
  Created start end_ step.

(** Result of [next(generator)]. *)
Inductive NextResult : Type :=
| Yielded (v : Z) (g : RangeGenerator)
| StopIteration
| Raised (e : PyError).

(** The [while] test of the branch chosen by [if step > 0], from the
    state in which the loop variable is [value]. *)
Definition loopTest (value end_ step : Z) : NextResult :=
  if step >? 0 then
    if value <=? end_ then Yielded value (Looping value end_ step)
    else StopIteration
  else
    if value >=? end_ then Yielded value (Looping value end_ step)
    else StopIteration.

Definition next (g : RangeGenerator) : NextResult :=
  match g with
  | Created start end_ step =>
      if step =? 0 then Raised RuntimeError
      else loopTest start end_ step
  | Looping value end_ step =>
      (* resume after [yield value]: [value += step], then the test *)
      loopTest (value + step) end_ step
  | Finished => StopIteration
  end.

(** How a [for] loop over the generator ends. *)
Inductive LoopEnd : Type := Exhausted | Failed (e : PyError).

(** [for i in g]: the values bound to [i], in order, and how the loop
    ends. *)
Inductive iterates : RangeGenerator -> list Z -> LoopEnd -> Prop :=
| iterates_stop g :
    next g = StopIteration -> iterates g [] Exhausted
| iterates_raise g e :
    next g = Raised e -> iterates g [] (Failed e)
| iterates_yield g v g' vs r :
    next g = Yielded v g' -> iterates g' vs r -> iterates g (v :: vs) r.

(** The same loop run for at most [fuel] rounds. *)
Fixpoint forLoop (fuel : nat) (g : RangeGenerator) : option (list Z * LoopEnd) :=
  match fuel with
  | O => None
  | S fuel' =>
      match next g with
      | StopIteration => Some ([], Exhausted)
      | Raised e => Some ([], Failed e)
      | Yielded v g' =>
          match forLoop fuel' g' with
          | Some (vs, r) => Some (v :: vs, r)
          | None => None
          end
      end
  end.

(** The integers [a], [a+s], [a+2s], ... up to and including the bound
    [b], in the direction of [s]. *)
Definition countInRange (a b s : Z) : nat := Z.to_nat ((b - a) / s + 1).

Definition progression (a b s : Z) : list Z :=
  map (fun k => a + Z.of_nat k * s) (seq 0 (countInRange a b s)).

(** *** Virtual files *)

Record Handle : Type := mkHandle {
  mode : string;
  pointer : Z
}.

(** The globals [__vfs] and [__open_files]. *)
Record Files : Type := mkFiles {
  vfs : gmap string (list string);
  open_files : gmap string Handle
}.

(** [data[i]] on a list: negative indices count from the end. *)
Definition pyIndex (data : list string) (i : Z) : option string :=
  let n := Z.of_nat (length data) in
  if (0 <=? i) && (i <? n) then data !! Z.to_nat i
  else if (- n <=? i) && (i <? 0) then data !! Z.to_nat (n + i)
  else None.

Definition OPENFILE (name : string) (m : string) (fs : Files) : Files :=
  let vfs' :=
    if String.eqb m "WRITE" then <[name := []]> (vfs fs)
    else match vfs fs !! name with
         | None => <[name := []]> (vfs fs)
         | Some _ => vfs fs
         end in
  mkFiles vfs' (<[name := mkHandle m 0]> (open_files fs)).

(** [READFILE]: the returned line and the globals after the call. *)
Definition READFILE (name : string) (fs : Files) : PyResult (string * Files) :=
  match open_files fs !! name with
  | None => PyRaise RuntimeError
  | Some handle =>
      if negb (String.eqb (mode handle) "READ") then PyRaise RuntimeError
      else
        let ptr := pointer handle in
        let data := default [] (vfs fs !! name) in
        if ptr >=? Z.of_nat (length data) then PyReturn (EmptyString, fs)
        else
          let fs' :=
            mkFiles (vfs fs)
                    (<[name := mkHandle (mode handle) (ptr + 1)]> (open_files fs)) in
          match pyIndex data ptr with
          | Some l => PyReturn (l, fs')
          | None => PyRaise IndexError
          end
  end.

Definition WRITEFILE (name : string) (value : string) (fs : Files)
  : PyResult Files :=
  match open_files fs !! name with
  | None => PyRaise RuntimeError
  | Some handle =>
      if negb (String.eqb (mode handle) "WRITE") then PyRaise RuntimeError
      else
        PyReturn
          (mkFiles (<[name := default [] (vfs fs !! name) ++ [value]]> (vfs fs))
                   (open_files fs))
  end.

Definition CLOSEFILE (name : string) (fs : Files) : Files :=
  mkFiles (vfs fs) (delete name (open_files fs)).

(** [n] consecutive calls [READFILE(name)]: the lines returned and the
    globals at the end, or the first exception. *)
Fixpoint readMany (n : nat) (name : string) (fs : Files)
  : PyResult (list string * Files) :=
  match n with
  | O => PyReturn ([], fs)
  | S n' =>
      match READFILE name fs with
      | PyRaise e => PyRaise e
      | PyReturn (l, fs') =>
          match readMany n' name fs' with
          | PyRaise e => PyRaise e
          | PyReturn (ls, fs'') => PyReturn (l :: ls, fs'')
          end
      end
  end.

(** A file of two lines, opened for reading and read twice. *)
Definition twoLinesRead : Files :=
  mkFiles {[ "F"%string := ["one"; "two"]%string ]}
          {[ "F"%string := mkHandle "READ" 2 ]}.


(** Consecutive calls [WRITEFILE(name, v)], one per value: the globals
    at the end, or the first exception. *)
Fixpoint writeMany (values : list string) (name : string) (fs : Files)
  : PyResult Files :=
  match values with
  | [] => PyReturn fs
  | value :: rest =>
      match WRITEFILE name value fs with
      | PyRaise e => PyRaise e
      | PyReturn fs' => writeMany rest name fs'
      end
  end.

(** *** [class __PseudoArray]

    An index is the tuple of its integer coordinates; [_norm] wraps a
    single coordinate into a tuple of one, and [int(_)] is the identity
    on integers. *)

Record PseudoArray (V : Type) : Type := mkPseudoArray {
  _bounds : list (Z * Z);
  _default : V;
  _store : gmap (list Z) V
}.
Arguments mkPseudoArray {V} _ _ _.
Arguments _bounds {V} _.
Arguments _default {V} _.
Arguments _store {V} _.

(** [__PseudoArray(bounds, default_value)]. *)
Definition newPseudoArray {V} (bounds : list (Z * Z)) (default_value : V)
  : PseudoArray V :=
  mkPseudoArray bounds default_value ∅.

(** The loop [for value, bound in zip(index, self._bounds)]. *)
Fixpoint normalize (index : list Z) (bounds : list (Z * Z))
  : PyResult (list Z) :=
  match index, bounds with
  | value :: index', (lo, hi) :: bounds' =>
      if (value <? lo) || (value >? hi) then PyRaise IndexError
      else match normalize index' bounds' with
           | PyReturn normalized => PyReturn (value :: normalized)
           | PyRaise e => PyRaise e
           end
  | _, _ => PyReturn []
  end.

Definition _norm {V} (self : PseudoArray V) (index : list Z)
  : PyResult (list Z) :=
  if negb (length index =? length (_bounds self))%nat then PyRaise IndexError
  else normalize index (_bounds self).

(** [__getitem__]. *)
Definition getitem {V} (self : PseudoArray V) (index : list Z) : PyResult V :=
  match _norm self index with
  | PyRaise e => PyRaise e
  | PyReturn key => PyReturn (default (_default self) (_store self !! key))
  end.

(** [__setitem__]: the array after the call. *)
Definition setitem {V} (self : PseudoArray V) (index : list Z) (value : V)
  : PyResult (PseudoArray V) :=
  match _norm self index with
  | PyRaise e => PyRaise e
  | PyReturn key =>
      PyReturn (mkPseudoArray (_bounds self) (_default self)
                              (<[key := value]> (_store self)))
  end.

(** An index with one coordinate per dimension, each within the
    declared bounds, both ends included. *)
Fixpoint inBounds (index : list Z) (bounds : list (Z * Z)) : bool :=
  match index, bounds with
  | [], [] => true
  | value :: index', (lo, hi) :: bounds' =>
      (lo <=? value) && (value <=? hi) && inBounds index' bounds'
  | _, _ => false
  end.

(** *** [__input] *)

(** The globals [_stdin_lines] and [_stdin_cursor]. *)
Record Stdin : Type := mkStdin {
  _stdin_lines : list string;
  _stdin_cursor : Z
}.

Definition input (s : Stdin) : PyResult (string * Stdin) :=
  if _stdin_cursor s >=? Z.of_nat (length (_stdin_lines s))
  then PyRaise RuntimeError
  else match pyIndex (_stdin_lines s) (_stdin_cursor s) with
       | None => PyRaise IndexError
       | Some value =>
           PyReturn (value, mkStdin (_stdin_lines s) (_stdin_cursor s + 1))
       end.

(** [n] consecutive calls [__input()]. *)
Fixpoint inputMany (n : nat) (s : Stdin) : PyResult (list string * Stdin) :=
  match n with
  | O => PyReturn ([], s)
  | S n' =>
      match input s with
      | PyRaise e => PyRaise e
      | PyReturn (value, s') =>
          match inputMany n' s' with
          | PyRaise e => PyRaise e
          | PyReturn (values, s'') => PyReturn (value :: values, s'')
          end
      end
  end.

(** *** [SUBSTRING]

    A [str] is the sequence of its characters; [int(_)] is the identity
    on integers. *)

(** One bound of a slice, brought into [0 .. n] as [text[b:e]] does:
    a negative bound counts from the end. *)
Definition sliceBound (n i : Z) : Z :=
  if i <? 0 then Z.max 0 (n + i) else Z.min i n.

(** [text[b:e]]. *)
Definition pySlice {C} (text : list C) (b e : Z) : list C :=
  let n := Z.of_nat (length text) in
  let b' := sliceBound n b in
  let e' := sliceBound n e in
  take (Z.to_nat (e' - b')) (drop (Z.to_nat b') text).

Definition SUBSTRING {C} (value : list C) (start length : Z) : list C :=
  let start := if start <? 1 then 1 else start in
  let begin_ := start - 1 in
  pySlice value begin_ (begin_ + length).

End Runtime.

(** * Properties *)

Import Compiler.

(** ** The tokenizer always returns *)

Module TokenizerFacts.
Import Tokenizer.
Local Open Scope nat_scope.
#[local] Arguments advance : simpl never.
#[local] Arguments scanWhile : simpl never.

Lemma remaining_addToken ty lx sl sc el ec kw st :
  remaining (addToken ty lx sl sc el ec kw st) = remaining st.
Proof. reflexivity. Qed.

Lemma remaining_pushLexDiagnostic c l col el ec st :
  remaining (pushLexDiagnostic c l col el ec st) = remaining st.
Proof. reflexivity. Qed.

Lemma remaining_advance st :
  remaining (snd (advance st)) = pred (remaining st).
Proof.
  unfold advance, remaining. destruct (current st =? cLF)%N; simpl;
    destruct (rest st); reflexivity.
Qed.

Lemma remaining_advanceWhile n p st :
  remaining (snd (advanceWhile n p st)) <= remaining st.
Proof.
  revert st. induction n as [|n IH]; intros st; cbn [advanceWhile];
    [simpl; lia|].
  destruct (p (current st)); [|simpl; lia].
  pose proof (remaining_advance st) as H.
  destruct (advance st) as [c st1]. cbn [snd] in H.
  specialize (IH st1).
  destruct (advanceWhile n p st1) as [l st2]. cbn [snd] in *. lia.
Qed.

Lemma remaining_scanWhile p st :
  remaining (snd (scanWhile p st)) <= remaining st.
Proof. apply remaining_advanceWhile. Qed.

Lemma remaining_scanWhile_first p st :
  rest st <> [] -> p (current st) = true ->
  remaining (snd (scanWhile p st)) < remaining st.
Proof.
  intros Hne Hp. unfold scanWhile.
  destruct (rest st) as [|c r] eqn:Hr; [contradiction|].
  simpl length. cbn [advanceWhile]. rewrite Hp.
  pose proof (remaining_advance st) as H.
  destruct (advance st) as [c1 st1]. cbn [snd] in H.
  pose proof (remaining_advanceWhile (length r) p st1) as Hle.
  destruct (advanceWhile (length r) p st1) as [l st2]. cbn [snd] in *.
  assert (remaining st = S (length r)) as Hst
    by (unfold remaining; rewrite Hr; reflexivity).
  lia.
Qed.

Lemma remaining_scanQuoted quote ty errCode sl sc st :
  rest st <> [] ->
  remaining (scanQuoted quote ty errCode sl sc st) < remaining st.
Proof.
  intros Hne. unfold scanQuoted.
  pose proof (remaining_advance st) as H1.
  destruct (advance st) as [c0 st1]. cbn [snd] in H1.
  match goal with
  | |- context [scanWhile ?p st1] =>
      pose proof (remaining_scanWhile p st1) as H2;
      destruct (scanWhile p st1) as [body st2]
  end.
  cbn [snd] in H2.
  assert (0 < remaining st)%nat as Hpos.
  { unfold remaining. destruct (rest st); [contradiction|simpl; lia]. }
  destruct (negb (current st2 =? quote)%N).
  - rewrite remaining_addToken, remaining_pushLexDiagnostic. lia.
  - pose proof (remaining_advance st2) as H3.
    destruct (advance st2) as [c1 st3]. cbn [snd] in H3.
    rewrite remaining_addToken. lia.
Qed.

(** Every round of the main loop consumes input. *)
Lemma tokenizeStep_shrinks st :
  rest st <> [] -> remaining (tokenizeStep st) < remaining st.
Proof.
  intros Hne.
  assert (0 < remaining st)%nat as Hpos.
  { unfold remaining. destruct (rest st); [contradiction|simpl; lia]. }
  unfold tokenizeStep.
  destruct ((current st =? cSPACE)%N || (current st =? cTAB)%N
            || (current st =? cCR)%N);
    [rewrite remaining_advance; lia|].
  destruct (current st =? cLF)%N;
    [rewrite remaining_addToken, remaining_advance; lia|].
  destruct ((current st =? cSLASH)%N && (peek st =? cSLASH)%N) eqn:Hcomment.
  { apply remaining_scanWhile_first; [exact Hne|].
    apply andb_prop in Hcomment as [Hc _]. apply N.eqb_eq in Hc.
    rewrite Hc. reflexivity. }
  destruct ((current st =? cARROW)%N
            || (current st =? cLESS)%N && (peek st =? cDASH)%N).
  { destruct (current st =? cARROW)%N.
    - pose proof (remaining_advance st) as H1.
      destruct (advance st) as [c st1]. cbn [snd] in H1.
      rewrite remaining_addToken. lia.
    - pose proof (remaining_advance st) as H1.
      destruct (advance st) as [c1 st1]. cbn [snd] in H1.
      pose proof (remaining_advance st1) as H2.
      destruct (advance st1) as [c2 st2]. cbn [snd] in H2.
      rewrite remaining_addToken. lia. }
  destruct ((current st =? cLESS)%N && (peek st =? cEQUALS)%N);
    [rewrite remaining_addToken, !remaining_advance; lia|].
  destruct ((current st =? cGREATER)%N && (peek st =? cEQUALS)%N);
    [rewrite remaining_addToken, !remaining_advance; lia|].
  destruct ((current st =? cLESS)%N && (peek st =? cGREATER)%N);
    [rewrite remaining_addToken, !remaining_advance; lia|].
  destruct (singleCharTokens (current st));
    [rewrite remaining_addToken, remaining_advance; lia|].
  destruct (current st =? cDQUOTE)%N;
    [apply remaining_scanQuoted; exact Hne|].
  destruct ((current st =? cQUOTE)%N || (current st =? cMODQUOTE)%N);
    [apply remaining_scanQuoted; exact Hne|].
  destruct (isDigitUnit (current st)) eqn:Hdigit.
  { pose proof (remaining_scanWhile_first isDigitUnit st Hne Hdigit) as H1.
    destruct (scanWhile isDigitUnit st) as [intPart st1]. cbn [snd] in H1.
    destruct ((current st1 =? cDOT)%N && isDigitUnit (peek st1)).
    - pose proof (remaining_advance st1) as H2.
      destruct (advance st1) as [dot st2]. cbn [snd] in H2.
      pose proof (remaining_scanWhile isDigitUnit st2) as H3.
      destruct (scanWhile isDigitUnit st2) as [fracPart st3]. cbn [snd] in H3.
      rewrite remaining_addToken. lia.
    - rewrite remaining_addToken. lia. }
  destruct (isLetterUnit (current st)) eqn:Hletter.
  { assert (isAlnumUnit (current st) = true) as Halnum.
    { unfold isAlnumUnit. rewrite Hletter. reflexivity. }
    pose proof (remaining_scanWhile_first isAlnumUnit st Hne Halnum) as H1.
    destruct (scanWhile isAlnumUnit st) as [lexeme1 st1]. cbn [snd] in H1.
    destruct (includes KEYWORDS (toUpperCase lexeme1)).
    - destruct (negb (streq lexeme1 (toUpperCase lexeme1)));
        rewrite remaining_addToken;
        try rewrite remaining_pushLexDiagnostic; lia.
    - rewrite remaining_addToken. lia. }
  rewrite remaining_advance, remaining_pushLexDiagnostic. lia.
Qed.

Lemma tokenizeLoop_total fuel :
  forall st, (remaining st <= fuel)%nat ->
             exists st', tokenizeLoop fuel st = Some st'.
Proof.
  induction fuel as [|fuel IH]; intros st Hle.
  - unfold remaining in Hle. simpl.
    destruct (rest st) as [|c r]; [eauto|simpl in Hle; lia].
  - simpl. destruct (rest st) as [|c r] eqn:Hr; [eauto|].
    apply IH.
    assert (rest st <> []) as Hne by (rewrite Hr; discriminate).
    pose proof (tokenizeStep_shrinks st Hne). lia.
Qed.

(** [tokenize] returns for every source text. *)
Lemma tokenize_total (source : jsstring) :
  exists tokens diagnostics, tokenize source = Some (tokens, diagnostics).
Proof.
  unfold tokenize.
  destruct (tokenizeLoop_total (length source) (mkLexState source 1 1 [] []))
    as [st' ->]; [reflexivity|].
  eauto.
Qed.

End TokenizerFacts.

(** ** The parser returns within its step budget *)

Module ParserFacts.
Import Tokenizer Parser ParserBounds.
Local Open Scope nat_scope.
Local Open Scope parser_scope.

Section WithTokens.

Variable tokens : list Token.

Local Abbreviation tokAt := (ParserBounds.tokAt tokens).
Local Abbreviation atEndI := (ParserBounds.atEndI tokens).
Local Abbreviation advI := (ParserBounds.advI tokens).
Local Abbreviation remI := (ParserBounds.remI tokens).
Local Abbreviation noGrowth := (ParserBounds.noGrowth tokens).
Local Abbreviation progress := (ParserBounds.progress tokens).
Local Abbreviation primaryBound := (ParserBounds.primaryBound tokens).
Local Abbreviation unaryBound := (ParserBounds.unaryBound tokens).
Local Abbreviation loopBound := (ParserBounds.loopBound tokens).
Local Abbreviation expressionBound := (ParserBounds.expressionBound tokens).
Local Abbreviation listBound := (ParserBounds.listBound tokens).
Local Abbreviation callBound := (ParserBounds.callBound tokens).
Local Abbreviation keywordProgress := (ParserBounds.keywordProgress tokens).
Local Abbreviation identifierProgress := (ParserBounds.identifierProgress tokens).
Local Abbreviation consumed := (ParserBounds.consumed tokens).
Local Abbreviation statementPost := (ParserBounds.statementPost tokens).
Local Abbreviation statementsBound := (ParserBounds.statementsBound tokens).
Local Abbreviation statementsLoopBound := (ParserBounds.statementsLoopBound tokens).
Local Abbreviation statementBound := (ParserBounds.statementBound tokens).
Local Abbreviation afterColonBound := (ParserBounds.afterColonBound tokens).
Local Abbreviation clausesBound := (ParserBounds.clausesBound tokens).
Local Abbreviation structuredBound := (ParserBounds.structuredBound tokens).

Lemma atEndI_false_lt i : atEndI i = false -> i < length tokens.
Proof.
  unfold ParserBounds.atEndI, ParserBounds.tokAt. intros H.
  destruct (Nat.lt_ge_cases i (length tokens)) as [|Hge]; [assumption|].
  rewrite nth_overflow in H by exact Hge. discriminate.
Qed.

Lemma remI_advI_le i : remI (advI i) <= remI i.
Proof. unfold ParserBounds.advI, ParserBounds.remI. destruct (atEndI i); lia. Qed.

Lemma remI_advI_lt i : atEndI i = false -> remI (advI i) < remI i.
Proof.
  intros H. pose proof (atEndI_false_lt i H). unfold ParserBounds.advI, ParserBounds.remI.
  rewrite H. lia.
Qed.

Lemma index_advanceAt st : index (advanceAt tokens st) = advI (index st).
Proof.
  unfold advanceAt, ParserBounds.advI, isAtEndAt, ParserBounds.atEndI, currentAt, ParserBounds.tokAt.
  destruct (tokenType_eqb _ EOF); reflexivity.
Qed.

Lemma type_not_end i ty :
  tokenType_eqb (type (tokAt i)) ty = true -> ty <> EOF -> atEndI i = false.
Proof.
  unfold ParserBounds.atEndI. intros H Hty.
  destruct (type (tokAt i)), ty; try discriminate; try reflexivity;
    contradiction.
Qed.

Lemma isKeyword_not_end i kw : isKeyword (tokAt i) kw = true -> atEndI i = false.
Proof.
  unfold isKeyword. intros H. apply andb_prop in H as [H _].
  apply (type_not_end i KEYWORD H). discriminate.
Qed.

Lemma returns_ret {A} (a : A) st (Q : A -> nat -> Prop) :
  Q a (index st) -> returns (ret a) st Q.
Proof. intros H. exists a, st. split; [reflexivity|exact H]. Qed.

Lemma returns_bind {A B} (m : P A) (k : A -> P B) st (Q : B -> nat -> Prop) :
  returns m st (fun a i => forall st1, index st1 = i -> returns (k a) st1 Q) ->
  returns (bind m k) st Q.
Proof.
  intros (a & st1 & Hm & Hk). destruct (Hk st1 eq_refl) as (b & st2 & Hb & HQ).
  exists b, st2. split; [|exact HQ]. unfold bind. rewrite Hm. exact Hb.
Qed.

Lemma returns_weaken {A} (m : P A) st (Q Q' : A -> nat -> Prop) :
  returns m st Q -> (forall a i, Q a i -> Q' a i) -> returns m st Q'.
Proof.
  intros (a & st1 & Hm & HQ) Himp. exists a, st1. split; [exact Hm|].
  apply Himp. exact HQ.
Qed.

(** *** The token-level actions *)

Lemma returns_current st (Q : Token -> nat -> Prop) :
  Q (tokAt (index st)) (index st) -> returns (current tokens) st Q.
Proof. intros H. exists (currentAt tokens st), st. split; [reflexivity|exact H]. Qed.

Lemma returns_previous st (Q : Token -> nat -> Prop) :
  (forall t, Q t (index st)) -> returns (previous tokens) st Q.
Proof. intros H. exists (previousAt tokens st), st. split; [reflexivity|apply H]. Qed.

Lemma returns_isAtEnd st (Q : bool -> nat -> Prop) :
  Q (atEndI (index st)) (index st) -> returns (isAtEnd tokens) st Q.
Proof. intros H. exists (isAtEndAt tokens st), st. split; [reflexivity|exact H]. Qed.

Lemma returns_checkType ty st (Q : bool -> nat -> Prop) :
  Q (tokenType_eqb (type (tokAt (index st))) ty) (index st) ->
  returns (checkType tokens ty) st Q.
Proof. intros H. eexists _, st. split; [reflexivity|exact H]. Qed.

Lemma returns_checkKeyword kw st (Q : bool -> nat -> Prop) :
  Q (isKeyword (tokAt (index st)) kw) (index st) ->
  returns (checkKeyword tokens kw) st Q.
Proof. intros H. eexists _, st. split; [reflexivity|exact H]. Qed.

Lemma returns_error tok c st (Q : unit -> nat -> Prop) :
  Q tt (index st) -> returns (error tok c) st Q.
Proof. intros H. eexists _, _. split; [reflexivity|exact H]. Qed.

Lemma returns_advance st (Q : Token -> nat -> Prop) :
  (forall t, Q t (advI (index st))) -> returns (advance tokens) st Q.
Proof.
  intros H. eexists _, _. split; [reflexivity|].
  rewrite index_advanceAt. apply H.
Qed.

Lemma returns_matchType ty st (Q : bool -> nat -> Prop) :
  (tokenType_eqb (type (tokAt (index st))) ty = true ->
   Q true (advI (index st))) ->
  (tokenType_eqb (type (tokAt (index st))) ty = false -> Q false (index st)) ->
  returns (matchType tokens ty) st Q.
Proof.
  intros Ht Hf. unfold matchType. apply returns_bind, returns_checkType.
  intros st1 Hst1. destruct (tokenType_eqb _ ty) eqn:E.
  - apply returns_bind, returns_advance. intros t st2 Hst2.
    apply returns_ret. rewrite Hst2, Hst1. apply Ht. reflexivity.
  - apply returns_ret. rewrite Hst1. apply Hf. reflexivity.
Qed.

Lemma returns_matchKeyword kw st (Q : bool -> nat -> Prop) :
  (isKeyword (tokAt (index st)) kw = true -> Q true (advI (index st))) ->
  (isKeyword (tokAt (index st)) kw = false -> Q false (index st)) ->
  returns (matchKeyword tokens kw) st Q.
Proof.
  intros Ht Hf. unfold matchKeyword. apply returns_bind, returns_checkKeyword.
  intros st1 Hst1. destruct (isKeyword _ kw) eqn:E.
  - apply returns_bind, returns_advance. intros t st2 Hst2.
    apply returns_ret. rewrite Hst2, Hst1. apply Ht. reflexivity.
  - apply returns_ret. rewrite Hst1. apply Hf. reflexivity.
Qed.

Lemma returns_expectType ty c st (Q : Token -> nat -> Prop) :
  (tokenType_eqb (type (tokAt (index st))) ty = true ->
   forall t, Q t (advI (index st))) ->
  (tokenType_eqb (type (tokAt (index st))) ty = false ->
   forall t, Q t (index st)) ->
  returns (expectType tokens ty c) st Q.
Proof.
  intros Ht Hf. unfold expectType. apply returns_bind, returns_checkType.
  intros st1 Hst1. destruct (tokenType_eqb _ ty) eqn:E.
  - apply returns_advance. intros t. rewrite Hst1. apply Ht. reflexivity.
  - apply returns_bind, returns_current. intros st2 Hst2.
    apply returns_bind, returns_error. intros st3 Hst3.
    apply returns_ret. rewrite Hst3, Hst2, Hst1. apply Hf. reflexivity.
Qed.

Lemma returns_expectKeyword kw c st (Q : Token -> nat -> Prop) :
  (isKeyword (tokAt (index st)) kw = true ->
   forall t, Q t (advI (index st))) ->
  (isKeyword (tokAt (index st)) kw = false -> forall t, Q t (index st)) ->
  returns (expectKeyword tokens kw c) st Q.
Proof.
  intros Ht Hf. unfold expectKeyword. apply returns_bind, returns_checkKeyword.
  intros st1 Hst1. destruct (isKeyword _ kw) eqn:E.
  - apply returns_advance. intros t. rewrite Hst1. apply Ht. reflexivity.
  - apply returns_bind, returns_current. intros st2 Hst2.
    apply returns_bind, returns_error. intros st3 Hst3.
    apply returns_ret. rewrite Hst3, Hst2, Hst1. apply Hf. reflexivity.
Qed.

Lemma returns_expectType_noGrowth ty c st :
  returns (expectType tokens ty c) st (noGrowth (index st)).
Proof.
  apply returns_expectType; intros _ t; unfold ParserBounds.noGrowth;
    [apply remI_advI_le|lia].
Qed.

Lemma returns_expectKeyword_noGrowth kw c st :
  returns (expectKeyword tokens kw c) st (noGrowth (index st)).
Proof.
  apply returns_expectKeyword; intros _ t; unfold ParserBounds.noGrowth;
    [apply remI_advI_le|lia].
Qed.

Lemma consumeNewlinesFrom_index n st :
  remI (index (consumeNewlinesFrom tokens n st)) <= remI (index st).
Proof.
  revert st. induction n as [|n IH]; intros st; simpl; [lia|].
  destruct (tokenType_eqb _ NEWLINE); [|lia].
  specialize (IH (advanceAt tokens st)). rewrite index_advanceAt in IH.
  pose proof (remI_advI_le (index st)). lia.
Qed.

Lemma returns_consumeNewlines st :
  returns (consumeNewlines tokens) st (noGrowth (index st)).
Proof.
  eexists _, _. split; [reflexivity|]. apply consumeNewlinesFrom_index.
Qed.

Lemma skipLineFrom_index n st :
  remI (index (skipLineFrom tokens n st)) <= remI (index st).
Proof.
  revert st. induction n as [|n IH]; intros st; simpl; [lia|].
  destruct (negb _ && negb _); [|lia].
  specialize (IH (advanceAt tokens st)). rewrite index_advanceAt in IH.
  pose proof (remI_advI_le (index st)). lia.
Qed.

(** [synchronizeLine] consumes at least one token unless it starts at
    the end. *)
Lemma returns_synchronizeLine st :
  returns (synchronizeLine tokens) st (progress (index st)).
Proof.
  unfold synchronizeLine, consumeNewlines.
  eexists _, _. split; [reflexivity|]. unfold ParserBounds.progress. cbn [index].
  set (st1 := skipLineFrom tokens (length tokens - index st) st).
  pose proof (consumeNewlinesFrom_index (length tokens - index st1) st1) as H1.
  pose proof (skipLineFrom_index (length tokens - index st) st) as H2.
  fold st1 in H2. split; [lia|].
  intros Hend. pose proof (atEndI_false_lt _ Hend) as Hlt.
  destruct (length tokens - index st) as [|k] eqn:Hk; [lia|].
  destruct (tokenType_eqb (type (tokAt (index st))) NEWLINE) eqn:Hnl.
  - (* at a NEWLINE: nothing is skipped, the NEWLINE is consumed *)
    assert (st1 = st) as Hst1.
    { subst st1. simpl. unfold isAtEndAt, currentAt. fold (tokAt (index st)).
      rewrite Hnl. rewrite andb_false_r. reflexivity. }
    rewrite Hst1 in *. rewrite Hk. simpl.
    unfold currentAt. fold (tokAt (index st)). rewrite Hnl.
    pose proof (consumeNewlinesFrom_index k (advanceAt tokens st)) as H3.
    rewrite index_advanceAt in H3.
    pose proof (remI_advI_lt _ Hend). lia.
  - (* elsewhere: the token is skipped *)
    assert (remI (index st1) < remI (index st)) as Hskip.
    { subst st1. simpl. unfold isAtEndAt, currentAt.
      fold (tokAt (index st)). fold (atEndI (index st)).
      rewrite Hend, Hnl. simpl.
      pose proof (skipLineFrom_index k (advanceAt tokens st)) as H3.
      rewrite index_advanceAt in H3.
      pose proof (remI_advI_lt _ Hend). lia. }
    lia.
Qed.

Lemma returns_peekBinaryOperator st (Q : option jsstring -> nat -> Prop) :
  (forall op, atEndI (index st) = false -> Q (Some op) (index st)) ->
  Q None (index st) ->
  returns (peekBinaryOperator tokens) st Q.
Proof.
  intros Hsome Hnone. unfold peekBinaryOperator.
  apply returns_bind, returns_current. intros st1 Hst1.
  destruct (isKeyword (tokAt (index st)) "AND"
            || isKeyword (tokAt (index st)) "OR") eqn:Hkw.
  - apply returns_ret. rewrite Hst1.
    assert (atEndI (index st) = false) as Hend.
    { apply orb_prop in Hkw as [H|H]; apply (isKeyword_not_end _ _ H). }
    destruct (keyword (tokAt (index st))); [apply Hsome; exact Hend|].
    exact Hnone.
  - apply returns_ret. rewrite Hst1.
    destruct (type (tokAt (index st))) eqn:Hty;
      try exact Hnone; apply Hsome; unfold ParserBounds.atEndI; rewrite Hty; reflexivity.
Qed.

Lemma returns_parseIdentifier st (Q : option IdentifierNode -> nat -> Prop) :
  (forall ident, atEndI (index st) = false -> Q (Some ident) (advI (index st))) ->
  Q None (index st) ->
  returns (parseIdentifier tokens) st Q.
Proof.
  intros Hsome Hnone. unfold parseIdentifier.
  apply returns_bind, returns_matchType.
  - intros Hty st1 Hst1. apply returns_bind, returns_previous.
    intros t st2 Hst2. apply returns_ret. rewrite Hst2, Hst1.
    apply Hsome. apply (type_not_end _ _ Hty). discriminate.
  - intros Hty st1 Hst1. apply returns_bind, returns_current.
    intros st2 Hst2. apply returns_bind, returns_error. intros st3 Hst3.
    apply returns_ret. rewrite Hst3, Hst2, Hst1. exact Hnone.
Qed.

(** *** Expressions *)

Ltac idx :=
  repeat match goal with
         | H : index ?s = _ |- context [index ?s] => rewrite H
         end.

Ltac facts :=
  repeat match goal with
         | H : tokenType_eqb (type (tokAt ?i)) ?ty = true |- _ =>
             lazymatch goal with
             | _ : atEndI i = false |- _ => fail
             | _ => assert (atEndI i = false)
                      by (apply (type_not_end i ty H); discriminate)
             end
         | H : isKeyword (tokAt ?i) ?kw = true |- _ =>
             lazymatch goal with
             | _ : atEndI i = false |- _ => fail
             | _ => assert (atEndI i = false)
                      by (apply (isKeyword_not_end i kw H))
             end
         end;
  repeat match goal with
         | H : atEndI ?i = false |- _ =>
             lazymatch goal with
             | _ : remI (advI i) < remI i |- _ => fail
             | _ => pose proof (remI_advI_lt i H)
             end
         end;
  repeat match goal with
         | |- context [advI ?i] =>
             lazymatch goal with
             | _ : remI (advI i) <= remI i |- _ => fail
             | _ => pose proof (remI_advI_le i)
             end
         end.

Ltac arith :=
  unfold ParserBounds.progress, ParserBounds.noGrowth in *; repeat split; intros; facts;
  repeat match goal with
         | H : _ /\ _ |- _ => destruct H
         | H : ?P -> _, H' : ?P |- _ => specialize (H H')
         end;
  lia.

Lemma primary_step (n : nat) :
  (forall m, m < n -> expressionBound m) ->
  (forall m, m < n -> callBound m) ->
  primaryBound n.
Proof.
  intros IHe IHc F st Hn HF.
  destruct F as [|f]; [lia|]. cbn [parsePrimary].
  apply returns_bind, returns_current. intros st0 H0.
  apply returns_bind, returns_matchType; idx;
    [intros Hty st1 H1; apply returns_ret; idx; arith|].
  intros _ st1 H1.
  apply returns_bind, returns_matchType; idx;
    [intros Hty st2 H2; apply returns_ret; idx; arith|].
  intros _ st2 H2.
  apply returns_bind, returns_matchType; idx;
    [intros Hty st3 H3; apply returns_ret; idx; arith|].
  intros _ st3 H3.
  apply returns_bind, returns_matchType; idx;
    [intros Hty st4 H4; apply returns_ret; idx; arith|].
  intros _ st4 H4.
  destruct (isKeyword (tokAt (index st)) "TRUE"
            || isKeyword (tokAt (index st)) "FALSE") eqn:Hbool.
  { apply returns_bind, returns_advance. intros t st5 H5.
    apply returns_ret. idx.
    assert (atEndI (index st) = false) as Hend.
    { apply orb_prop in Hbool as [H|H]; apply (isKeyword_not_end _ _ H). }
    arith. }
  apply returns_bind, returns_matchType; idx.
  { intros Hty st5 H5.
    apply returns_bind, returns_previous. intros t st6 H6.
    assert (remI (index st6) < n) as Hlt by (idx; arith).
    apply returns_bind.
    eapply returns_weaken;
      [apply (IHe _ Hlt f 1 st6 eq_refl); idx; arith|].
    intros e i Hi st7 H7.
    apply returns_bind.
    eapply returns_weaken; [apply returns_expectType_noGrowth|].
    intros t' i' Hi' st8 H8. apply returns_ret.
    revert Hi Hi'. idx. intros Hi Hi'. arith. }
  intros _ st5 H5.
  destruct (isNameToken (tokAt (index st))) eqn:Hname.
  { assert (atEndI (index st) = false) as Hend.
    { unfold isNameToken in Hname. apply orb_prop in Hname as [H|H].
      - apply (type_not_end _ _ H). discriminate.
      - apply andb_prop in H as [H _]. apply (type_not_end _ _ H).
        discriminate. }
    apply returns_bind, returns_advance. intros t st6 H6.
    assert (remI (index st6) < n) as Hlt by (idx; arith).
    eapply returns_weaken;
      [apply (IHc _ Hlt f (tokAt (index st)) st6 eq_refl); idx; arith|].
    intros e i Hi. revert Hi. idx. intros Hi. arith. }
  apply returns_bind, returns_error. intros st6 H6.
  apply returns_bind, returns_advance. intros t st7 H7.
  apply returns_ret. idx. arith.
Qed.

Ltac idx_in H := revert H; idx; intros H.

Lemma unary_step (n : nat) :
  (forall m, m < n -> unaryBound m) -> primaryBound n -> unaryBound n.
Proof.
  intros IHu Hp F st Hn HF.
  destruct F as [|f]; [lia|]. cbn [parseUnary].
  apply returns_bind, returns_matchType; idx.
  { intros Hty st1 H1.
    apply returns_bind, returns_previous. intros t st2 H2.
    assert (remI (index st2) < n) as Hlt by (idx; arith).
    apply returns_bind.
    eapply returns_weaken; [apply (IHu _ Hlt f st2 eq_refl); idx; arith|].
    intros e i Hi st3 H3. apply returns_ret. idx_in Hi. idx. arith. }
  intros _ st1 H1.
  apply returns_bind, returns_matchKeyword; idx.
  { intros Hkw st2 H2.
    apply returns_bind, returns_previous. intros t st3 H3.
    assert (remI (index st3) < n) as Hlt by (idx; arith).
    apply returns_bind.
    eapply returns_weaken; [apply (IHu _ Hlt f st3 eq_refl); idx; arith|].
    intros e i Hi st4 H4. apply returns_ret. idx_in Hi. idx. arith. }
  intros _ st2 H2.
  eapply returns_weaken; [apply (Hp f st2); idx; [exact Hn|lia]|].
  intros e i Hi. idx_in Hi. exact Hi.
Qed.

Lemma loop_step (n : nat) :
  (forall m, m < n -> expressionBound m) ->
  (forall m, m < n -> loopBound m) ->
  loopBound n.
Proof.
  intros IHe IHl F minPrecedence left_ st Hn HF.
  destruct F as [|f]; [lia|]. cbn [parseExpressionLoop].
  apply returns_bind, returns_peekBinaryOperator; idx;
    [|intros st1 H1; apply returns_ret; idx; arith].
  intros op Hend st1 H1.
  destruct (BINARY_OPERATORS op) as [opInfo|];
    [|apply returns_ret; idx; arith].
  destruct (Nat.ltb (precedence opInfo) minPrecedence);
    [apply returns_ret; idx; arith|].
  apply returns_bind, returns_advance. intros opToken st2 H2.
  assert (remI (index st2) < n) as Hlt by (idx; arith).
  apply returns_bind.
  eapply returns_weaken; [apply (IHe _ Hlt f _ st2 eq_refl); idx; arith|].
  intros right_ i Hi st3 H3. idx_in Hi.
  destruct (tokenType_eqb (type opToken) EOF);
    [apply returns_ret; idx; arith|].
  assert (remI (index st3) < n) as Hlt3 by (idx; arith).
  eapply returns_weaken; [apply (IHl _ Hlt3 f _ _ st3 eq_refl); idx; arith|].
  intros e i' Hi'. idx_in Hi'. arith.
Qed.

Lemma expression_step (n : nat) :
  unaryBound n -> (forall m, m <= n -> loopBound m) -> expressionBound n.
Proof.
  intros Hu Hl F minPrecedence st Hn HF.
  destruct F as [|f]; [lia|]. cbn [parseExpression].
  apply returns_bind.
  eapply returns_weaken; [apply (Hu f st Hn); lia|].
  intros left_ i Hi st1 H1.
  assert (remI (index st1) <= n) as Hle by (idx; arith).
  eapply returns_weaken; [apply (Hl _ Hle f _ _ st1 eq_refl); lia|].
  intros e i' Hi'. idx_in Hi'. arith.
Qed.

Lemma list_step (n : nat) :
  expressionBound n -> (forall m, m < n -> listBound m) -> listBound n.
Proof.
  intros He IHL F st Hn HF.
  destruct F as [|f]; [lia|]. cbn [parseExpressionList].
  apply returns_bind.
  eapply returns_weaken; [apply (He f 1 st Hn); lia|].
  intros first i Hi st1 H1.
  apply returns_bind, returns_matchType; idx;
    [|intros _ st2 H2; apply returns_ret; idx; arith].
  intros Hty st2 H2.
  assert (remI (index st2) < n) as Hlt by (idx; arith).
  apply returns_bind.
  eapply returns_weaken; [apply (IHL _ Hlt f st2 eq_refl); idx; arith|].
  intros more i' Hi' st3 H3. apply returns_ret. idx_in Hi'. idx. arith.
Qed.

Lemma call_step (n : nat) :
  (forall m, m < n -> listBound m) -> callBound n.
Proof.
  intros IHL F token st Hn HF.
  destruct F as [|f]; [lia|]. cbn [parseIdentifierOrCall].
  apply returns_bind, returns_matchType; idx.
  { intros Hty st1 H1.
    apply returns_bind, returns_checkType. intros st2 H2. idx.
    destruct (tokenType_eqb (type (tokAt (advI (index st)))) RPAREN).
    - apply returns_bind, returns_ret. intros st3 H3.
      apply returns_bind.
      eapply returns_weaken; [apply returns_expectType_noGrowth|].
      intros t i Hi st4 H4. apply returns_ret. idx_in Hi. idx. arith.
    - assert (remI (index st2) < n) as Hlt by (idx; arith).
      apply returns_bind.
      eapply returns_weaken; [apply (IHL _ Hlt f st2 eq_refl); idx; arith|].
      intros args i Hi st3 H3. idx_in Hi.
      apply returns_bind.
      eapply returns_weaken; [apply returns_expectType_noGrowth|].
      intros t i' Hi' st4 H4. apply returns_ret. idx_in Hi'. idx. arith. }
  intros _ st1 H1.
  apply returns_bind, returns_matchType; idx;
    [|intros _ st2 H2; apply returns_ret; idx; arith].
  intros Hty st2 H2.
  assert (remI (index st2) < n) as Hlt by (idx; arith).
  apply returns_bind.
  eapply returns_weaken; [apply (IHL _ Hlt f st2 eq_refl); idx; arith|].
  intros indices i Hi st3 H3. idx_in Hi.
  apply returns_bind.
  eapply returns_weaken; [apply returns_expectType_noGrowth|].
  intros t i' Hi' st4 H4. apply returns_ret. idx_in Hi'. idx. arith.
Qed.

Lemma expression_bounds (n : nat) :
  primaryBound n /\ unaryBound n /\ loopBound n /\ expressionBound n /\
  listBound n /\ callBound n.
Proof.
  induction n as [n IH] using lt_wf_ind.
  assert (primaryBound n) as Hp.
  { apply primary_step; intros m Hm; apply (IH m Hm). }
  assert (unaryBound n) as Hu.
  { apply unary_step; [intros m Hm; apply (IH m Hm)|exact Hp]. }
  assert (loopBound n) as Hl.
  { apply loop_step; intros m Hm; apply (IH m Hm). }
  assert (expressionBound n) as He.
  { apply expression_step; [exact Hu|].
    intros m Hm. destruct (Nat.eq_dec m n) as [->|Hne]; [exact Hl|].
    apply (IH m). lia. }
  assert (listBound n) as HL.
  { apply list_step; [exact He|intros m Hm; apply (IH m Hm)]. }
  assert (callBound n) as Hc.
  { apply call_step. intros m Hm. apply (IH m Hm). }
  tauto.
Qed.

(** With a budget of three steps per token left (and four to spare),
    the expression parsers return and do not move backwards; they
    consume a token unless they start at the end. *)
Lemma parseExpression_returns F minPrecedence st :
  3 * remI (index st) + 3 <= F ->
  returns (parseExpression tokens F minPrecedence) st (progress (index st)).
Proof.
  intros HF.
  apply (proj1 (proj2 (proj2 (proj2 (expression_bounds (remI (index st)))))));
    [reflexivity|exact HF].
Qed.

Lemma parseExpressionList_returns F st :
  3 * remI (index st) + 4 <= F ->
  returns (parseExpressionList tokens F) st (progress (index st)).
Proof.
  intros HF.
  apply (proj1 (proj2 (proj2 (proj2 (proj2
           (expression_bounds (remI (index st))))))));
    [reflexivity|exact HF].
Qed.

(** *** Types, parameters and simple statements *)

(** Run an action whose bound is known, and go on with the rest. *)
Ltac run_with L :=
  apply returns_bind; eapply returns_weaken; [apply L|];
  let a := fresh "a" in
  let i := fresh "i" in
  let Hi := fresh "Hi" in
  let st' := fresh "st" in
  let Hst := fresh "Hst" in
  intros a i Hi st' Hst; idx_in Hi.

Ltac finish := apply returns_ret; idx; arith.

Lemma returns_parseSignedIntegerLiteral c st :
  returns (parseSignedIntegerLiteral tokens c) st (noGrowth (index st)).
Proof.
  unfold parseSignedIntegerLiteral.
  apply returns_bind, returns_matchType; idx; intros Hty st1 H1;
    run_with returns_expectType_noGrowth; finish.
Qed.

Lemma returns_parseArrayDimension st :
  returns (parseArrayDimension tokens) st (noGrowth (index st)).
Proof.
  unfold parseArrayDimension.
  run_with returns_parseSignedIntegerLiteral.
  run_with returns_expectType_noGrowth.
  run_with returns_parseSignedIntegerLiteral.
  finish.
Qed.

Lemma returns_parseTypeNode st :
  returns (parseTypeNode tokens) st (noGrowth (index st)).
Proof.
  unfold parseTypeNode.
  apply returns_bind, returns_matchKeyword; idx.
  - intros Hkw st1 H1.
    apply returns_bind, returns_previous. intros t st2 H2.
    run_with returns_expectType_noGrowth.
    run_with returns_parseArrayDimension.
    apply returns_bind, returns_matchType; idx; intros Hty st5 H5.
    + apply returns_bind.
      run_with returns_parseArrayDimension.
      apply returns_ret. intros st7 H7.
      run_with returns_expectType_noGrowth.
      run_with returns_expectKeyword_noGrowth.
      run_with returns_expectType_noGrowth.
      destruct (basicTypeOfKeyword (keyword a4)).
      * apply returns_bind, returns_ret. intros st11 H11. finish.
      * apply returns_bind, returns_error. intros st11 H11. finish.
    + apply returns_bind, returns_ret. intros st7 H7.
      run_with returns_expectType_noGrowth.
      run_with returns_expectKeyword_noGrowth.
      run_with returns_expectType_noGrowth.
      destruct (basicTypeOfKeyword (keyword a3)).
      * apply returns_bind, returns_ret. intros st11 H11. finish.
      * apply returns_bind, returns_error. intros st11 H11. finish.
  - intros Hkw st1 H1.
    run_with returns_expectType_noGrowth.
    destruct (basicTypeOfKeyword (keyword a)); [finish|].
    apply returns_bind, returns_error. intros st3 H3. finish.
Qed.

Lemma returns_parseParameters F :
  forall st, remI (index st) + 1 <= F ->
             returns (parseParameters tokens F) st (noGrowth (index st)).
Proof.
  induction F as [|f IH]; intros st HF; [lia|]. cbn [parseParameters].
  run_with returns_expectType_noGrowth.
  run_with returns_expectType_noGrowth.
  run_with returns_parseTypeNode.
  apply returns_bind, returns_matchType; idx; intros Hty st4 H4; [|finish].
  apply returns_bind. eapply returns_weaken; [apply IH; idx; arith|].
  intros more i' Hi' st5 H5. idx_in Hi'. finish.
Qed.

Lemma returns_parseParameterList F st :
  remI (index st) + 1 <= F ->
  returns (parseParameterList tokens F) st (noGrowth (index st)).
Proof.
  intros HF. unfold parseParameterList.
  apply returns_bind, returns_matchType; idx; intros Hty st1 H1;
    cbn [negb]; [|finish].
  apply returns_bind, returns_checkType. intros st2 H2. idx.
  destruct (tokenType_eqb (type (tokAt (advI (index st)))) RPAREN).
  - apply returns_bind, returns_ret. intros st3 H3.
    run_with returns_expectType_noGrowth. finish.
  - apply returns_bind.
    eapply returns_weaken; [apply returns_parseParameters; idx; arith|].
    intros params i Hi st3 H3. idx_in Hi.
    run_with returns_expectType_noGrowth. finish.
Qed.

Ltac arith ::=
  unfold ParserBounds.progress, ParserBounds.noGrowth, ParserBounds.keywordProgress, ParserBounds.identifierProgress in *;
  repeat split; intros; facts;
  repeat match goal with
         | H : _ /\ _ |- _ => destruct H
         | H : ?P -> _, H' : ?P |- _ => specialize (H H')
         end;
  first [congruence | lia].

(** [expectKeyword], with the case distinction kept. *)
Ltac expect_keyword :=
  apply returns_bind, returns_expectKeyword; idx;
  let Hkw := fresh "Hkw" in
  let t := fresh "start" in
  let st' := fresh "st" in
  let Hst := fresh "Hst" in
  intros Hkw t st' Hst.

Ltac call_expression L :=
  apply returns_bind; eapply returns_weaken; [apply L; idx; arith|];
  let a := fresh "a" in
  let i := fresh "i" in
  let Hi := fresh "Hi" in
  let st' := fresh "st" in
  let Hst := fresh "Hst" in
  intros a i Hi st' Hst; idx_in Hi.

Lemma returns_parseAssignableTarget F st :
  3 * remI (index st) + 4 <= F ->
  returns (parseAssignableTarget tokens F) st (identifierProgress (index st)).
Proof.
  intros HF. unfold parseAssignableTarget.
  apply returns_bind, returns_expectType; idx; intros Hid t st1 H1;
    (apply returns_bind, returns_matchType; idx; intros Hty st2 H2;
     [|finish]);
    call_expression parseExpressionList_returns;
    run_with returns_expectType_noGrowth; finish.
Qed.

Lemma returns_parseDeclareStatement st :
  returns (parseDeclareStatement tokens) st (keywordProgress "DECLARE" (index st)).
Proof.
  unfold parseDeclareStatement.
  expect_keyword;
    (apply returns_bind, returns_parseIdentifier; idx;
     [intros ident Hend st2 H2|intros st2 H2; finish]);
    run_with returns_expectType_noGrowth;
    run_with returns_parseTypeNode; finish.
Qed.

Lemma returns_parseConstantStatement F st :
  3 * remI (index st) + 4 <= F ->
  returns (parseConstantStatement tokens F) st
          (keywordProgress "CONSTANT" (index st)).
Proof.
  intros HF. unfold parseConstantStatement.
  expect_keyword;
    (apply returns_bind, returns_parseIdentifier; idx;
     [intros ident Hend st2 H2|intros st2 H2; finish]);
    run_with returns_expectType_noGrowth;
    call_expression parseExpression_returns; finish.
Qed.

Lemma returns_parseInputStatement F st :
  3 * remI (index st) + 4 <= F ->
  returns (parseInputStatement tokens F) st (keywordProgress "INPUT" (index st)).
Proof.
  intros HF. unfold parseInputStatement.
  expect_keyword; call_expression returns_parseAssignableTarget;
    destruct a; finish.
Qed.

Lemma returns_parseOutputStatement F st :
  3 * remI (index st) + 4 <= F ->
  returns (parseOutputStatement tokens F) st
          (keywordProgress "OUTPUT" (index st)).
Proof.
  intros HF. unfold parseOutputStatement.
  expect_keyword; call_expression parseExpressionList_returns; finish.
Qed.

Lemma returns_parseCallStatement F st :
  3 * remI (index st) + 4 <= F ->
  returns (parseCallStatement tokens F) st (keywordProgress "CALL" (index st)).
Proof.
  intros HF. unfold parseCallStatement.
  expect_keyword; run_with returns_expectType_noGrowth;
    (apply returns_bind, returns_matchType; idx; intros Hty st3 H3;
     [|apply returns_bind, returns_ret; intros st4 H4; finish]);
    apply returns_bind, returns_bind, returns_checkType; intros st4 H4; idx;
    match goal with
    | |- context [if ?c then _ else _] => destruct c
    end;
    try (apply returns_bind, returns_ret; intros st5 H5;
         run_with returns_expectType_noGrowth;
         apply returns_ret; intros st7 H7; finish);
    call_expression parseExpressionList_returns;
    run_with returns_expectType_noGrowth;
    apply returns_ret; intros st7 H7; finish.
Qed.

Lemma returns_parseReturnStatement F st :
  3 * remI (index st) + 4 <= F ->
  returns (parseReturnStatement tokens F) st
          (keywordProgress "RETURN" (index st)).
Proof.
  intros HF. unfold parseReturnStatement.
  expect_keyword; call_expression parseExpression_returns; finish.
Qed.

Lemma returns_parseOpenFileStatement F st :
  3 * remI (index st) + 4 <= F ->
  returns (parseOpenFileStatement tokens F) st
          (keywordProgress "OPENFILE" (index st)).
Proof.
  intros HF. unfold parseOpenFileStatement.
  expect_keyword; call_expression parseExpression_returns;
    run_with returns_expectKeyword_noGrowth;
    run_with returns_expectType_noGrowth;
    match goal with
    | |- context [if ?c then _ else _] => destruct c
    end;
    [apply returns_bind, returns_error|apply returns_bind, returns_ret|
     apply returns_bind, returns_error|apply returns_bind, returns_ret];
    intros st9 H9; finish.
Qed.

Lemma returns_parseReadFileStatement F st :
  3 * remI (index st) + 4 <= F ->
  returns (parseReadFileStatement tokens F) st
          (keywordProgress "READFILE" (index st)).
Proof.
  intros HF. unfold parseReadFileStatement.
  expect_keyword; call_expression parseExpression_returns;
    run_with returns_expectType_noGrowth;
    call_expression returns_parseAssignableTarget;
    match goal with
    | |- context [match ?c with Some _ => _ | None => _ end] => destruct c
    end; finish.
Qed.

Lemma returns_parseWriteFileStatement F st :
  3 * remI (index st) + 4 <= F ->
  returns (parseWriteFileStatement tokens F) st
          (keywordProgress "WRITEFILE" (index st)).
Proof.
  intros HF. unfold parseWriteFileStatement.
  expect_keyword; call_expression parseExpression_returns;
    run_with returns_expectType_noGrowth;
    call_expression parseExpression_returns; finish.
Qed.

Lemma returns_parseCloseFileStatement F st :
  3 * remI (index st) + 4 <= F ->
  returns (parseCloseFileStatement tokens F) st
          (keywordProgress "CLOSEFILE" (index st)).
Proof.
  intros HF. unfold parseCloseFileStatement.
  expect_keyword; call_expression parseExpression_returns; finish.
Qed.

Lemma returns_parseAssignmentStatement F st :
  3 * remI (index st) + 4 <= F ->
  returns (parseAssignmentStatement tokens F) st
          (identifierProgress (index st)).
Proof.
  intros HF. unfold parseAssignmentStatement.
  call_expression returns_parseAssignableTarget.
  destruct a; [|finish].
  run_with returns_expectType_noGrowth.
  call_expression parseExpression_returns. finish.
Qed.

(** *** Structured statements *)

Ltac arith ::=
  unfold ParserBounds.progress, ParserBounds.noGrowth, ParserBounds.keywordProgress, ParserBounds.identifierProgress, ParserBounds.consumed,
    ParserBounds.statementPost in *;
  repeat split; intros; facts;
  repeat match goal with
         | H : _ /\ _ |- _ => destruct H
         | H : ?P -> _, H' : ?P |- _ => specialize (H H')
         end;
  first [congruence | lia].

(** Call [parseStatements] or another parser of the knot on a state
    with fewer tokens left. *)
Ltac call_smaller IH :=
  apply returns_bind;
  match goal with
  | |- returns _ ?s _ =>
      eapply returns_weaken;
      [apply (IH (remI (index s))); [idx; arith | reflexivity | idx; arith]|]
  end;
  let a := fresh "a" in
  let i := fresh "i" in
  let Hi := fresh "Hi" in
  let st' := fresh "st" in
  let Hst := fresh "Hst" in
  intros a i Hi st' Hst; idx_in Hi.

(** Enter a structured statement: the keyword is there. *)
Ltac enter_keyword Hkey :=
  apply returns_bind, returns_expectKeyword; idx;
  [|rewrite Hkey; discriminate];
  let t := fresh "start" in
  let st' := fresh "st" in
  let Hst := fresh "Hst" in
  intros _ t st' Hst.

Lemma if_step (n : nat) :
  (forall m, m < n -> statementsBound m) ->
  structuredBound "IF" (parseIfStatement tokens) n.
Proof.
  intros IH F st Hn Hkey HF.
  destruct F as [|f]; [lia|]. cbn [parseIfStatement].
  enter_keyword Hkey.
  call_expression parseExpression_returns.
  run_with returns_consumeNewlines.
  run_with returns_expectKeyword_noGrowth.
  run_with returns_consumeNewlines.
  call_smaller IH.
  apply returns_bind, returns_matchKeyword; idx; intros Helse st6 H6.
  - apply returns_bind, returns_bind.
    eapply returns_weaken; [apply returns_consumeNewlines|].
    intros u i' Hi' st7 H7. idx_in Hi'.
    match goal with
    | |- returns _ ?s _ =>
        eapply returns_weaken;
        [apply (IH (remI (index s))); [idx; arith | reflexivity | idx; arith]|]
    end.
    intros elseBody i'' Hi'' st8 H8. idx_in Hi''.
    run_with returns_expectKeyword_noGrowth. finish.
  - apply returns_bind, returns_ret. intros st7 H7.
    run_with returns_expectKeyword_noGrowth. finish.
Qed.

Lemma repeat_step (n : nat) :
  (forall m, m < n -> statementsBound m) ->
  structuredBound "REPEAT" (parseRepeatStatement tokens) n.
Proof.
  intros IH F st Hn Hkey HF.
  destruct F as [|f]; [lia|]. cbn [parseRepeatStatement].
  enter_keyword Hkey.
  run_with returns_consumeNewlines.
  call_smaller IH.
  run_with returns_expectKeyword_noGrowth.
  call_expression parseExpression_returns.
  finish.
Qed.

Lemma while_step (n : nat) :
  (forall m, m < n -> statementsBound m) ->
  structuredBound "WHILE" (parseWhileStatement tokens) n.
Proof.
  intros IH F st Hn Hkey HF.
  destruct F as [|f]; [lia|]. cbn [parseWhileStatement].
  enter_keyword Hkey.
  call_expression parseExpression_returns.
  run_with returns_consumeNewlines.
  run_with returns_expectKeyword_noGrowth.
  run_with returns_consumeNewlines.
  call_smaller IH.
  run_with returns_expectKeyword_noGrowth.
  finish.
Qed.

Lemma for_step (n : nat) :
  (forall m, m < n -> statementsBound m) ->
  structuredBound "FOR" (parseForStatement tokens) n.
Proof.
  intros IH F st Hn Hkey HF.
  destruct F as [|f]; [lia|]. cbn [parseForStatement].
  enter_keyword Hkey.
  assert (forall iterator st2,
            remI (index st2) <= remI (advI (index st)) ->
            returns
              (run expectType tokens ASSIGN "SYN025" ;;
               do startValue <- parseExpression tokens f 1 ;;
               run expectKeyword tokens "TO" "SYN026" ;;
               do endValue <- parseExpression tokens f 1 ;;
               do isStep <- matchKeyword tokens "STEP" ;;
               do stepValue <-
                 (if isStep
                  then do e <- parseExpression tokens f 1 ;; ret (Some e)
                  else ret None) ;;
               run consumeNewlines tokens ;;
               do body <- parseStatements tokens f [js "NEXT"] ;;
               run expectKeyword tokens "NEXT" "SYN027" ;;
               do atIdent <- checkType tokens IDENTIFIER ;;
               run (if atIdent then
                      do closingIterator <- advance tokens ;;
                      if negb (streq (toLowerCase (lexeme closingIterator))
                                     (toLowerCase (identName iterator)))
                      then error closingIterator "SYN028"
                      else ret tt
                    else ret tt) ;;
               do end_ <- previous tokens ;;
               ret (SFor iterator startValue endValue stepValue body
                         (spanFrom (span start) (span end_))))
              st2 (consumed (index st))) as Hrest.
  { intros iterator st2 Hst2.
    run_with returns_expectType_noGrowth.
    call_expression parseExpression_returns.
    run_with returns_expectKeyword_noGrowth.
    call_expression parseExpression_returns.
    assert (forall stepValue st9,
              remI (index st9) <= remI (advI (index st)) ->
              returns
                (run consumeNewlines tokens ;;
                 do body <- parseStatements tokens f [js "NEXT"] ;;
                 run expectKeyword tokens "NEXT" "SYN027" ;;
                 do atIdent <- checkType tokens IDENTIFIER ;;
                 run (if atIdent then
                        do closingIterator <- advance tokens ;;
                        if negb (streq (toLowerCase (lexeme closingIterator))
                                       (toLowerCase (identName iterator)))
                        then error closingIterator "SYN028"
                        else ret tt
                      else ret tt) ;;
                 do end_ <- previous tokens ;;
                 ret (SFor iterator a0 a2 stepValue body
                           (spanFrom (span start) (span end_))))
                st9 (consumed (index st))) as Hbody.
    { intros stepValue st9 Hst9.
      run_with returns_consumeNewlines.
      call_smaller IH.
      run_with returns_expectKeyword_noGrowth.
      apply returns_bind, returns_checkType. intros st13 H13. idx.
      destruct (tokenType_eqb (type (tokAt i5)) IDENTIFIER).
      - apply returns_bind, returns_bind, returns_advance.
        intros closing st14 H14.
        destruct (negb (streq (toLowerCase (lexeme closing))
                              (toLowerCase (identName iterator))));
          [apply returns_error|apply returns_ret];
          intros st15 H15;
          apply returns_bind, returns_previous; intros last st16 H16; finish.
      - apply returns_bind, returns_ret. intros st14 H14.
        apply returns_bind, returns_previous. intros last st15 H15. finish. }
    apply returns_bind, returns_matchKeyword; idx; intros Hstep st7 H7.
    - apply returns_bind, returns_bind.
      eapply returns_weaken;
        [apply parseExpression_returns; idx; arith|].
      intros e i' Hi' st8 H8. idx_in Hi'.
      apply returns_ret. intros st9 H9. apply Hbody. idx. arith.
    - apply returns_bind, returns_ret. intros st9 H9. apply Hbody. idx. arith. }
  apply returns_bind, returns_parseIdentifier; idx;
    [intros ident Hend st2 H2|intros st2 H2];
    apply Hrest; idx; arith.
Qed.

Lemma procedure_step (n : nat) :
  (forall m, m < n -> statementsBound m) ->
  structuredBound "PROCEDURE" (parseProcedureDefinition tokens) n.
Proof.
  intros IH F st Hn Hkey HF.
  destruct F as [|f]; [lia|]. cbn [parseProcedureDefinition].
  enter_keyword Hkey.
  run_with returns_expectType_noGrowth.
  apply returns_bind.
  eapply returns_weaken; [apply returns_parseParameterList; idx; arith|].
  intros params i' Hi' st3 H3. idx_in Hi'.
  run_with returns_consumeNewlines.
  call_smaller IH.
  run_with returns_expectKeyword_noGrowth.
  finish.
Qed.

Lemma function_step (n : nat) :
  (forall m, m < n -> statementsBound m) ->
  structuredBound "FUNCTION" (parseFunctionDefinition tokens) n.
Proof.
  intros IH F st Hn Hkey HF.
  destruct F as [|f]; [lia|]. cbn [parseFunctionDefinition].
  enter_keyword Hkey.
  run_with returns_expectType_noGrowth.
  apply returns_bind.
  eapply returns_weaken; [apply returns_parseParameterList; idx; arith|].
  intros params i' Hi' st3 H3. idx_in Hi'.
  run_with returns_expectKeyword_noGrowth.
  run_with returns_expectType_noGrowth.
  match goal with
  | |- context [match ?c with Some _ => _ | None => _ end] => destruct c
  end;
    [apply returns_bind, returns_ret|apply returns_bind, returns_error];
    intros st6 H6;
    run_with returns_consumeNewlines;
    call_smaller IH;
    run_with returns_expectKeyword_noGrowth;
    finish.
Qed.

Lemma case_step (n : nat) :
  (forall m, m < n -> clausesBound m) ->
  structuredBound "CASE" (parseCaseStatement tokens) n.
Proof.
  intros IH F st Hn Hkey HF.
  destruct F as [|f]; [lia|]. cbn [parseCaseStatement].
  enter_keyword Hkey.
  run_with returns_expectKeyword_noGrowth.
  call_expression parseExpression_returns.
  run_with returns_consumeNewlines.
  call_smaller IH.
  run_with returns_expectKeyword_noGrowth.
  finish.
Qed.

Lemma statement_step (n : nat) :
  structuredBound "IF" (parseIfStatement tokens) n ->
  structuredBound "CASE" (parseCaseStatement tokens) n ->
  structuredBound "FOR" (parseForStatement tokens) n ->
  structuredBound "REPEAT" (parseRepeatStatement tokens) n ->
  structuredBound "WHILE" (parseWhileStatement tokens) n ->
  structuredBound "PROCEDURE" (parseProcedureDefinition tokens) n ->
  structuredBound "FUNCTION" (parseFunctionDefinition tokens) n ->
  statementBound n.
Proof.
  intros Hif Hcase Hfor Hrepeat Hwhile Hproc Hfunc F st Hn HF.
  destruct F as [|f]; [lia|]. cbn [parseStatement].
  apply returns_bind, returns_current. intros st0 H0.
  assert (remI (index st0) = n) as Hn0 by (idx; exact Hn).
  destruct (tokenType_eqb (type (tokAt (index st))) KEYWORD) eqn:Hk.
  - destruct (isKeyword (tokAt (index st)) "DECLARE") eqn:E1.
    { eapply returns_weaken; [apply returns_parseDeclareStatement|].
      intros r i Hi. idx_in Hi. arith. }
    destruct (isKeyword (tokAt (index st)) "CONSTANT") eqn:E2.
    { eapply returns_weaken;
        [apply returns_parseConstantStatement; idx; arith|].
      intros r i Hi. idx_in Hi. arith. }
    destruct (isKeyword (tokAt (index st)) "INPUT") eqn:E3.
    { eapply returns_weaken; [apply returns_parseInputStatement; idx; arith|].
      intros r i Hi. idx_in Hi. arith. }
    destruct (isKeyword (tokAt (index st)) "OUTPUT") eqn:E4.
    { eapply returns_weaken; [apply returns_parseOutputStatement; idx; arith|].
      intros r i Hi. idx_in Hi. arith. }
    destruct (isKeyword (tokAt (index st)) "IF") eqn:E5.
    { apply returns_bind.
      eapply returns_weaken; [apply (Hif f st0 Hn0); idx; [exact E5|lia]|].
      intros r i Hi st1 H1. idx_in Hi. apply returns_ret. idx. arith. }
    destruct (isKeyword (tokAt (index st)) "CASE") eqn:E6.
    { apply returns_bind.
      eapply returns_weaken; [apply (Hcase f st0 Hn0); idx; [exact E6|lia]|].
      intros r i Hi st1 H1. idx_in Hi. apply returns_ret. idx. arith. }
    destruct (isKeyword (tokAt (index st)) "FOR") eqn:E7.
    { apply returns_bind.
      eapply returns_weaken; [apply (Hfor f st0 Hn0); idx; [exact E7|lia]|].
      intros r i Hi st1 H1. idx_in Hi. apply returns_ret. idx. arith. }
    destruct (isKeyword (tokAt (index st)) "REPEAT") eqn:E8.
    { apply returns_bind.
      eapply returns_weaken; [apply (Hrepeat f st0 Hn0); idx; [exact E8|lia]|].
      intros r i Hi st1 H1. idx_in Hi. apply returns_ret. idx. arith. }
    destruct (isKeyword (tokAt (index st)) "WHILE") eqn:E9.
    { apply returns_bind.
      eapply returns_weaken; [apply (Hwhile f st0 Hn0); idx; [exact E9|lia]|].
      intros r i Hi st1 H1. idx_in Hi. apply returns_ret. idx. arith. }
    destruct (isKeyword (tokAt (index st)) "PROCEDURE") eqn:E10.
    { apply returns_bind.
      eapply returns_weaken; [apply (Hproc f st0 Hn0); idx; [exact E10|lia]|].
      intros r i Hi st1 H1. idx_in Hi. apply returns_ret. idx. arith. }
    destruct (isKeyword (tokAt (index st)) "FUNCTION") eqn:E11.
    { apply returns_bind.
      eapply returns_weaken; [apply (Hfunc f st0 Hn0); idx; [exact E11|lia]|].
      intros r i Hi st1 H1. idx_in Hi. apply returns_ret. idx. arith. }
    destruct (isKeyword (tokAt (index st)) "CALL") eqn:E12.
    { eapply returns_weaken; [apply returns_parseCallStatement; idx; arith|].
      intros r i Hi. idx_in Hi. arith. }
    destruct (isKeyword (tokAt (index st)) "RETURN") eqn:E13.
    { eapply returns_weaken; [apply returns_parseReturnStatement; idx; arith|].
      intros r i Hi. idx_in Hi. arith. }
    destruct (isKeyword (tokAt (index st)) "OPENFILE") eqn:E14.
    { eapply returns_weaken;
        [apply returns_parseOpenFileStatement; idx; arith|].
      intros r i Hi. idx_in Hi. arith. }
    destruct (isKeyword (tokAt (index st)) "READFILE") eqn:E15.
    { eapply returns_weaken;
        [apply returns_parseReadFileStatement; idx; arith|].
      intros r i Hi. idx_in Hi. arith. }
    destruct (isKeyword (tokAt (index st)) "WRITEFILE") eqn:E16.
    { eapply returns_weaken;
        [apply returns_parseWriteFileStatement; idx; arith|].
      intros r i Hi. idx_in Hi. arith. }
    destruct (isKeyword (tokAt (index st)) "CLOSEFILE") eqn:E17.
    { eapply returns_weaken;
        [apply returns_parseCloseFileStatement; idx; arith|].
      intros r i Hi. idx_in Hi. arith. }
    apply returns_bind, returns_error. intros st1 H1.
    apply returns_ret. idx. arith.
  - destruct (tokenType_eqb (type (tokAt (index st))) IDENTIFIER) eqn:Hid.
    + eapply returns_weaken;
        [apply returns_parseAssignmentStatement; idx; arith|].
      intros r i Hi. idx_in Hi. arith.
    + apply returns_bind, returns_error. intros st1 H1.
      apply returns_ret. idx. arith.
Qed.

Lemma afterColon_step (n : nat) : statementBound n -> afterColonBound n.
Proof.
  intros Hs F st Hn HF.
  destruct F as [|f]; [lia|]. cbn [parseStatementAfterCaseColon].
  apply returns_bind, returns_current. intros st0 H0.
  destruct (tokenType_eqb (type (tokAt (index st))) NEWLINE).
  - apply returns_bind, returns_error. intros st1 H1. finish.
  - eapply returns_weaken; [apply (Hs f st0); idx; [exact Hn|lia]|].
    intros r i Hi. idx_in Hi. arith.
Qed.

Lemma clauses_step (n : nat) :
  (forall m, m < n -> afterColonBound m) ->
  (forall m, m < n -> clausesBound m) ->
  clausesBound n.
Proof.
  intros IHa IHc F st Hn HF.
  destruct F as [|f]; [lia|]. cbn [parseCaseClauses].
  apply returns_bind, returns_isAtEnd. intros st0 H0.
  apply returns_bind, returns_checkKeyword. intros st1 H1. idx.
  destruct (atEndI (index st)) eqn:Hend; cbn [orb]; [finish|].
  destruct (isKeyword (tokAt (index st)) "ENDCASE"); [finish|].
  apply returns_bind, returns_current. intros st2 H2.
  apply returns_bind, returns_matchKeyword; idx; intros Hother st3 H3.
  - apply returns_bind.
    call_smaller IHa.
    apply returns_ret. intros st5 H5.
    run_with returns_consumeNewlines.
    call_smaller IHc.
    finish.
  - apply returns_bind.
    call_expression parseExpression_returns.
    run_with returns_expectType_noGrowth.
    call_smaller IHa.
    apply returns_ret. intros st7 H7.
    run_with returns_consumeNewlines.
    call_smaller IHc.
    finish.
Qed.

Lemma remI_same_index i j :
  atEndI i = false -> remI j = remI i -> j = i.
Proof.
  intros Hend Hrem. pose proof (atEndI_false_lt i Hend).
  unfold ParserBounds.remI in Hrem. lia.
Qed.

Lemma statementsLoop_step (n : nat) :
  statementBound n ->
  (forall m, m < n -> statementsLoopBound m) ->
  statementsLoopBound n.
Proof.
  intros Hs IH F stop st Hn HF.
  destruct F as [|f]; [lia|]. cbn [parseStatementsLoop].
  apply returns_bind, returns_isAtEnd. intros st0 H0.
  destruct (atEndI (index st)) eqn:Hend; [finish|].
  apply returns_bind, returns_current. intros st1 H1. idx.
  destruct (isStopKeyword stop (tokAt (index st))); [finish|].
  destruct (tokenType_eqb (type (tokAt (index st))) EOF); [finish|].
  apply returns_bind.
  eapply returns_weaken; [apply (Hs f st1); idx; [exact Hn|lia]|].
  intros statement i Hi st2 H2. idx_in Hi.
  assert (forall st3, remI (index st3) < n ->
            returns
              (run consumeNewlines tokens ;;
               do more <- parseStatementsLoop tokens f stop ;;
               ret match statement with
                   | Some s0 => s0 :: more
                   | None => more
                   end)
              st3 (noGrowth (index st))) as Hrest.
  { intros st3 Hst3.
    run_with returns_consumeNewlines.
    call_smaller IH.
    finish. }
  destruct statement as [s0|].
  - apply returns_bind, returns_ret. intros st3 H3.
    apply Hrest. idx.
    assert (Some s0 <> None) as Hsome by discriminate. arith.
  - apply returns_bind.
    eapply returns_weaken; [apply returns_synchronizeLine|].
    intros u i' Hi' st3 H3. idx_in Hi'.
    apply Hrest. idx.
    destruct (Nat.eq_dec (remI i) (remI (index st))) as [Heq|Hne].
    + apply (remI_same_index _ _ Hend) in Heq. rewrite Heq in Hi'. arith.
    + arith.
Qed.

Lemma statements_step (n : nat) :
  (forall m, m <= n -> statementsLoopBound m) -> statementsBound n.
Proof.
  intros Hl F stop st Hn HF.
  destruct F as [|f]; [lia|]. cbn [parseStatements].
  run_with returns_consumeNewlines.
  eapply returns_weaken.
  - apply (Hl (remI (index st0))); [idx; arith|reflexivity|idx; arith].
  - intros r i' Hi'. idx_in Hi'. arith.
Qed.

Lemma statement_bounds (n : nat) :
  statementsBound n /\ statementsLoopBound n /\ statementBound n /\
  afterColonBound n /\ clausesBound n.
Proof.
  induction n as [n IH] using lt_wf_ind.
  assert (forall m, m < n -> statementsBound m) as IHs
      by (intros m Hm; apply (IH m Hm)).
  assert (forall m, m < n -> statementsLoopBound m) as IHl
      by (intros m Hm; apply (IH m Hm)).
  assert (forall m, m < n -> afterColonBound m) as IHa
      by (intros m Hm; apply (IH m Hm)).
  assert (forall m, m < n -> clausesBound m) as IHc
      by (intros m Hm; apply (IH m Hm)).
  assert (statementBound n) as Hs.
  { apply statement_step;
      [apply if_step|apply case_step|apply for_step|apply repeat_step
      |apply while_step|apply procedure_step|apply function_step];
      assumption. }
  assert (statementsLoopBound n) as Hl
      by (apply statementsLoop_step; assumption).
  assert (statementsBound n) as Hss.
  { apply statements_step. intros m Hm.
    destruct (Nat.eq_dec m n) as [->|Hne]; [exact Hl|]. apply IHl. lia. }
  assert (afterColonBound n) as Ha by (apply afterColon_step; exact Hs).
  assert (clausesBound n) as Hc by (apply clauses_step; assumption).
  tauto.
Qed.

(** [parseProgram] returns when its budget is four steps per token and
    twelve more. *)
Lemma parseProgram_returns (F : nat) (st : PState) :
  4 * remI (index st) + 12 <= F ->
  exists ast st', parseProgram tokens F st = Some (ast, st').
Proof.
  intros HF.
  assert (returns (parseProgram tokens F) st (fun _ _ => True)) as H.
  { unfold parseProgram.
    apply returns_bind, returns_current. intros st0 H0.
    apply returns_bind.
    eapply returns_weaken.
    - apply (proj1 (statement_bounds (remI (index st0))));
        [reflexivity|idx; exact HF].
    - intros body i _ st1 H1.
      apply returns_bind, returns_previous. intros t st2 H2.
      apply returns_ret. exact I. }
  destruct H as (ast & st' & H & _). eauto.
Qed.

End WithTokens.

(** [parseSource] returns for every source text. *)
Lemma parseSource_total (source : jsstring) :
  exists ast diagnostics, parseSource source = Some (ast, diagnostics).
Proof.
  unfold parseSource, parseSourceWith, sourceFuel.
  destruct (TokenizerFacts.tokenize_total source) as (tokens & ds & ->).
  destruct (parseProgram_returns tokens (parseFuel tokens) (mkPState 0 ds))
    as (ast & st' & ->).
  - unfold parseFuel, ParserBounds.remI. simpl. lia.
  - eauto.
Qed.

End ParserFacts.

(** [compilePseudocode] never stops for lack of steps: it returns a
    result, or the analyzer throws. *)
Lemma compilePseudocode_returns_or_throws (request : CompileRequest) :
  (exists r, Compiler.compilePseudocode request = Returned r) \/
  (exists e, Compiler.compilePseudocode request = Thrown e).
Proof.
  unfold Compiler.compilePseudocode, Compiler.compilePseudocodeWith.
  fold (Parser.parseSource (source request)).
  destruct (ParserFacts.parseSource_total (source request))
    as (ast & ds & ->).
  destruct (Semantics.analyzeProgram ast) as [sr|e]; eauto.
Qed.


(** ** Ordering of the returned diagnostics *)

Section SortCorrect.

Context {A : Type} (compare : A -> A -> Z) (le : A -> A -> Prop).
Hypothesis compare_le : forall x y, compare x y <= 0 -> le x y.
Hypothesis compare_gt : forall x y, 0 < compare x y -> le y x.

Lemma insertSorted_HdRel (y x : A) (l : list A) :
  HdRel le y l -> le y x -> HdRel le y (insertSorted compare x l).
Proof.
  intros Hhd Hyx. destruct l as [|z l]; simpl.
  - constructor. exact Hyx.
  - destruct (compare x z <=? 0).
    + constructor. exact Hyx.
    + constructor. inversion Hhd; assumption.
Qed.

Lemma insertSorted_Sorted (x : A) (l : list A) :
  Sorted le l -> Sorted le (insertSorted compare x l).
Proof.
  induction l as [|y l IH]; intros Hs; simpl.
  - repeat constructor.
  - destruct (compare x y <=? 0) eqn:Hc.
    + constructor; [exact Hs|]. constructor. apply compare_le. lia.
    + inversion Hs as [|? ? Hs' Hhd]; subst.
      constructor; [apply IH; exact Hs'|].
      apply insertSorted_HdRel; [exact Hhd|]. apply compare_gt. lia.
Qed.

Lemma sort_Sorted (l : list A) : Sorted le (sort compare l).
Proof.
  induction l as [|x l IH]; simpl.
  - constructor.
  - apply insertSorted_Sorted. exact IH.
Qed.

End SortCorrect.

Lemma insertSorted_In {A} (compare : A -> A -> Z) (x y : A) (l : list A) :
  In y (insertSorted compare x l) <-> y = x \/ In y l.
Proof.
  induction l as [|z l IH]; simpl.
  - intuition.
  - destruct (compare x z <=? 0); simpl; [intuition|].
    rewrite IH. intuition.
Qed.

Lemma sort_In {A} (compare : A -> A -> Z) (y : A) (l : list A) :
  In y (sort compare l) <-> In y l.
Proof.
  induction l as [|x l IH]; simpl; [tauto|].
  rewrite insertSorted_In, IH. intuition.
Qed.

Lemma localeCompare_le (a b : jsstring) :
  localeCompare a b <= 0 -> lexLe a b.
Proof.
  revert b. induction a as [|x a IH]; intros [|y b]; simpl; try tauto; try lia.
  destruct (N.ltb_spec x y); [intros _; left; assumption|].
  destruct (N.ltb_spec y x); [lia|].
  intros H1. right. split; [lia|]. apply IH. exact H1.
Qed.

Lemma localeCompare_gt (a b : jsstring) :
  0 < localeCompare a b -> lexLe b a.
Proof.
  revert b. induction a as [|x a IH]; intros [|y b]; simpl; try tauto; try lia.
  destruct (N.ltb_spec x y); [lia|].
  destruct (N.ltb_spec y x); [intros _; left; assumption|].
  intros H1. right. split; [lia|]. apply IH. exact H1.
Qed.

Lemma compareDiagnostics_le (a b : Diagnostic) :
  compareDiagnostics a b <= 0 -> diagnosticLe a b.
Proof.
  unfold compareDiagnostics, diagnosticLe.
  destruct (Z.eqb_spec (line a) (line b)) as [El|Nl]; simpl; [|intros; left; lia].
  destruct (Z.eqb_spec (column a) (column b)) as [Ec|Nc]; simpl.
  - intros H. right. split; [exact El|]. right. split; [exact Ec|].
    apply localeCompare_le. exact H.
  - intros H. right. split; [exact El|]. left. lia.
Qed.

Lemma compareDiagnostics_gt (a b : Diagnostic) :
  0 < compareDiagnostics a b -> diagnosticLe b a.
Proof.
  unfold compareDiagnostics, diagnosticLe.
  destruct (Z.eqb_spec (line a) (line b)) as [El|Nl]; simpl; [|intros; left; lia].
  destruct (Z.eqb_spec (column a) (column b)) as [Ec|Nc]; simpl.
  - intros H. right. split; [symmetry; exact El|]. right.
    split; [symmetry; exact Ec|]. apply localeCompare_gt. exact H.
  - intros H. right. split; [symmetry; exact El|]. left. lia.
Qed.

Lemma assemble_sorted numberToString ast parseDiagnostics semanticResult :
  Sorted diagnosticLe
    (diagnostics (assemble numberToString ast parseDiagnostics semanticResult)).
Proof.
  unfold assemble.
  destruct (existsb isError _); simpl;
    apply sort_Sorted;
    auto using compareDiagnostics_le, compareDiagnostics_gt.
Qed.

(** What a returned result is made of. *)
Lemma compilePseudocodeWith_Returned numberToString fuel request r :
  compilePseudocodeWith numberToString fuel request = Returned r ->
  exists ast parseDiagnostics semanticResult,
    Parser.parseSourceWith fuel (source request) = Some (ast, parseDiagnostics) /\
    Semantics.analyzeProgram ast = Normal semanticResult /\
    r = assemble numberToString ast parseDiagnostics semanticResult.
Proof.
  unfold compilePseudocodeWith.
  destruct (Parser.parseSourceWith fuel (source request)) as [[ast pd]|];
    [|discriminate].
  destruct (Semantics.analyzeProgram ast) as [sr|e] eqn:Ha; [|discriminate].
  intros H. injection H as <-. exists ast, pd, sr. auto.
Qed.

(** C8.  Whatever the source text (and whatever step budget the parser
    is run with), the diagnostics of a returned result are ordered by
    [(line, column, code)]: every adjacent pair is non-decreasing in
    line, then column, then code. *)
Theorem compilePseudocode_diagnostics_sorted :
  forall numberToString fuel request r,
    compilePseudocodeWith numberToString fuel request = Returned r ->
    Sorted diagnosticLe (diagnostics r).
Proof.
  intros numberToString fuel request r H.
  apply compilePseudocodeWith_Returned in H as (ast & pd & sr & _ & _ & ->).
  apply assemble_sorted.
Qed.

(** C1.  A returned result is built from the merged list, the
    diagnostics of the parser followed by those of the analyzer:
    [diagnostics] is that list sorted, [success] holds exactly when no
    diagnostic of the merged list is an error, and exactly when
    [pythonCode] is present, which is then the generated program. *)
Theorem compilePseudocode_success_iff :
  forall numberToString fuel request r,
    compilePseudocodeWith numberToString fuel request = Returned r ->
    exists ast parseDiagnostics semanticResult,
      Parser.parseSourceWith fuel (source request)
      = Some (ast, parseDiagnostics) /\
      Semantics.analyzeProgram ast = Normal semanticResult /\
      diagnostics r
      = sort compareDiagnostics
             (parseDiagnostics ++ srDiagnostics semanticResult) /\
      (success r = true <->
       forall d, In d (parseDiagnostics ++ srDiagnostics semanticResult) ->
                 severity d <> SevError) /\
      (success r = true <->
       forall d, In d (diagnostics r) -> severity d <> SevError) /\
      (success r = true <-> pythonCode r <> None) /\
      pythonCode r
      = (if success r
         then Some (Codegen.generatePythonCode numberToString ast
                                               semanticResult)
         else None) /\
      astJson r = Some ast.
Proof.
  intros numberToString fuel request r H.
  apply compilePseudocodeWith_Returned in H as (ast & pd & sr & Hp & Ha & ->).
  exists ast, pd, sr. split; [exact Hp|]. split; [exact Ha|].
  assert (existsb isError (sort compareDiagnostics (pd ++ srDiagnostics sr))
          = false <->
          forall d, In d (pd ++ srDiagnostics sr) -> severity d <> SevError)
    as Hmerged.
  { split.
    - intros Hno d Hd Hsev.
      assert (existsb isError
                (sort compareDiagnostics (pd ++ srDiagnostics sr)) = true)
        as Hex.
      { apply existsb_exists. exists d. split; [apply sort_In, Hd|].
        unfold isError. rewrite Hsev. reflexivity. }
      congruence.
    - intros Hall.
      destruct (existsb isError _) eqn:He; [|reflexivity].
      apply existsb_exists in He as (d & Hd & Herr).
      apply sort_In in Hd. exfalso. apply (Hall d Hd).
      unfold isError in Herr. destruct (severity d); congruence. }
  assert ((forall d, In d (sort compareDiagnostics (pd ++ srDiagnostics sr)) ->
                     severity d <> SevError) <->
          forall d, In d (pd ++ srDiagnostics sr) -> severity d <> SevError)
    as Hsorted.
  { split; intros Hall d Hd; apply Hall.
    - apply sort_In, Hd.
    - apply (proj1 (sort_In compareDiagnostics d _) Hd). }
  unfold assemble.
  destruct (existsb isError _) eqn:He; simpl.
  - assert (~ forall d, In d (pd ++ srDiagnostics sr) ->
                        severity d <> SevError) as Hnot.
    { intros Hall. apply Hmerged in Hall. congruence. }
    split; [reflexivity|].
    split; [|split; [|split; [|split; reflexivity]]].
    + split; [discriminate|intros Hall; exfalso; apply Hnot, Hall].
    + split; [discriminate|].
      intros Hall. exfalso. apply Hnot, Hsorted, Hall.
    + split; [discriminate|intros Hn; exfalso; apply Hn; reflexivity].
  - pose proof (proj1 Hmerged eq_refl) as Hall.
    split; [reflexivity|].
    split; [|split; [|split; [|split; reflexivity]]].
    + split; [intros _; exact Hall|reflexivity].
    + split; [intros _; apply Hsorted, Hall|reflexivity].
    + split; [intros _; discriminate|reflexivity].
Qed.

Lemma compilePseudocode_diagnostics_sorted_witness :
  exists r,
    compilePseudocodeWith Codegen.decimalNumberToString 64
      (requestOfLines [js "OUTPUT x + y"]) = Returned r /\
    map code (diagnostics r) = [js "SEM019"; js "SEM022"; js "SEM019"] /\
    Sorted diagnosticLe (diagnostics r).
Proof.
  eexists. split; [vm_compute; reflexivity|]. split; [reflexivity|].
  apply (compilePseudocode_diagnostics_sorted Codegen.decimalNumberToString 64
           (requestOfLines [js "OUTPUT x + y"])).
  vm_compute. reflexivity.
Defined.

Lemma compilePseudocode_success_iff_witness :
  exists r,
    compilePseudocodeWith Codegen.decimalNumberToString 64
      (requestOfLines [js "Value <- 7"; js "OUTPUT"]) = Returned r /\
    success r = false /\
    map code (diagnostics r) = [js "SEM019"; js "SYN060"] /\
    pythonCode r = None /\
    exists ast parseDiagnostics semanticResult,
      Parser.parseSourceWith 64
        (source (requestOfLines [js "Value <- 7"; js "OUTPUT"]))
      = Some (ast, parseDiagnostics) /\
      Semantics.analyzeProgram ast = Normal semanticResult /\
      diagnostics r
      = sort compareDiagnostics
             (parseDiagnostics ++ srDiagnostics semanticResult) /\
      (success r = true <->
       forall d, In d (parseDiagnostics ++ srDiagnostics semanticResult) ->
                 severity d <> SevError) /\
      (success r = true <->
       forall d, In d (diagnostics r) -> severity d <> SevError) /\
      (success r = true <-> pythonCode r <> None) /\
      pythonCode r
      = (if success r
         then Some (Codegen.generatePythonCode Codegen.decimalNumberToString
                                               ast semanticResult)
         else None) /\
      astJson r = Some ast.
Proof.
  eexists. split; [vm_compute; reflexivity|].
  split; [reflexivity|]. split; [reflexivity|]. split; [reflexivity|].
  apply (compilePseudocode_success_iff Codegen.decimalNumberToString 64
           (requestOfLines [js "Value <- 7"; js "OUTPUT"])).
  vm_compute. reflexivity.
Defined.

(** ** The stages on concrete programs *)

(** The first scenario of the test suite compiles, and the generated
    program ends with the translated main body. *)
Example totals_compile :
  exists r,
    compilePseudocode
      (requestOfLines
         [ js "DECLARE Total : INTEGER"; js "DECLARE Index : INTEGER";
           js "FOR Index <- 1 TO 3"; js "    Total <- Total + Index";
           js "NEXT Index"; js "OUTPUT Total" ]) = Returned r /\
    success r = true /\ diagnostics r = [] /\
    pythonCode r =
      Some (Codegen.join [10%N]
              (Codegen.prelude ++
               [ js "def __main__():"; js "    Total = 0"; js "    Index = 0";
                 js "    for Index in __inclusive_range(1, 3, 1):";
                 js "        Total = ((Total) + (Index))";
                 js "    __output(Total)"; []; js "__main__()" ])).
Proof. eexists. vm_compute. repeat split. Qed.

Example malformed_if_reports_SYN018 :
  codesOf (compilePseudocode
             (requestOfLines
                [ js "DECLARE Score : INTEGER"; js "IF Score > 10 THEN";
                  js "    OUTPUT " ++ quoted "High" ]))
  = [js "SYN018"].
Proof. vm_compute. reflexivity. Qed.

Example readfile_on_write_handle_reports_SEM015 :
  codesOf (compilePseudocode
             (requestOfLines
                [ js "DECLARE Line : STRING";
                  js "OPENFILE " ++ quoted "FileA.txt" ++ js " FOR WRITE";
                  js "READFILE " ++ quoted "FileA.txt" ++ js ", Line" ]))
  = [js "SEM015"].
Proof. vm_compute. reflexivity. Qed.

(** C9 (failing input).  The source [CALL constructor] makes the
    analyzer read [procedureSignatures["constructor"]], which is the
    function inherited from [Object.prototype]; its [params] is
    [undefined], and [validateCallArguments] throws a [TypeError] that
    [compilePseudocode] lets through to its caller. *)
Theorem compilePseudocode_throws_on_call_constructor :
  compilePseudocode (requestOfLines [js "CALL constructor"]) = Thrown TypeError.
Proof. vm_compute. reflexivity. Qed.

(** The same happens for a call expression. *)
Example compilePseudocode_throws_on_constructor_call_expression :
  compilePseudocode (requestOfLines [js "OUTPUT constructor()"])
  = Thrown TypeError.
Proof. vm_compute. reflexivity. Qed.

(** C2 (failing input).  A function whose RETURN statements all sit in
    the branches of an IF gets SEM011, although its body contains a
    RETURN. *)
Theorem nested_return_still_reports_SEM011 :
  codesOf (compilePseudocode
             (requestOfLines
                [ js "FUNCTION Sign(X : INTEGER) RETURNS INTEGER";
                  js "    IF X > 0 THEN"; js "        RETURN 1";
                  js "    ELSE"; js "        RETURN 0"; js "    ENDIF";
                  js "ENDFUNCTION" ]))
  = [js "SEM011"].
Proof. vm_compute. reflexivity. Qed.

(** A RETURN among the statements of the body itself is seen. *)
Example direct_return_is_accepted :
  codesOf (compilePseudocode
             (requestOfLines
                [ js "FUNCTION One() RETURNS INTEGER"; js "    RETURN 1";
                  js "ENDFUNCTION" ]))
  = [].
Proof. vm_compute. reflexivity. Qed.

(** C3 (failing input).  [Total] is declared and then used as [total]:
    the analyzer resolves the use, compilation succeeds, and the
    generated line spells the name as the use does, not as the
    declaration does. *)
Theorem emitted_name_keeps_spelling_of_use :
  exists r,
    compilePseudocode
      (requestOfLines [js "DECLARE Total : INTEGER"; js "OUTPUT total"])
    = Returned r /\
    success r = true /\
    pythonCode r =
      Some (Codegen.join [10%N]
              (Codegen.prelude ++
               [ js "def __main__():"; js "    Total = 0";
                 js "    __output(total)"; []; js "__main__()" ])).
Proof. eexists. vm_compute. repeat split. Qed.

(** C4 (failing input).  An undeclared operand of [+] yields SEM019 and
    then SEM022 for the addition; an undeclared array index yields
    SEM019 and then SEM028. *)
Theorem unknown_operand_cascades :
  codesOf (compilePseudocode (requestOfLines [js "OUTPUT x + 1"]))
  = [js "SEM019"; js "SEM022"] /\
  codesOf (compilePseudocode
             (requestOfLines
                [ js "DECLARE A : ARRAY[1:3] OF INTEGER";
                  js "OUTPUT A[y]" ]))
  = [js "SEM019"; js "SEM028"].
Proof. vm_compute. split; reflexivity. Qed.

(** C7 (failing input).  With the empty string literal as file
    identifier, OPENFILE ... FOR WRITE records nothing and the READFILE
    that follows is accepted without SEM015. *)
Theorem empty_file_name_is_not_tracked :
  exists r,
    compilePseudocode
      (requestOfLines
         [ js "DECLARE Line : STRING";
           js "OPENFILE " ++ quoted EmptyString ++ js " FOR WRITE";
           js "READFILE " ++ quoted EmptyString ++ js ", Line" ])
    = Returned r /\
    success r = true /\ diagnostics r = [].
Proof. eexists. vm_compute. repeat split. Qed.

(** ** Typing of arithmetic operators *)

Import Semantics.

Lemma streq_true (a b : jsstring) : streq a b = true <-> a = b.
Proof. unfold streq. apply bool_decide_eq_true. Qed.

Lemma includes_In (l : list jsstring) (x : jsstring) :
  includes l x = true <-> In x l.
Proof.
  unfold includes. rewrite existsb_exists. split.
  - intros (y & Hy & Heq). apply streq_true in Heq. subst. exact Hy.
  - intros H. exists x. split; [exact H|]. apply streq_true. reflexivity.
Qed.

Lemma isNumeric_cases (t : StaticType) :
  isNumeric t = true <-> t = T_INTEGER \/ t = T_REAL.
Proof.
  unfold T_INTEGER, T_REAL.
  destruct t as [|[] |]; simpl; split; intros H;
    try discriminate; try tauto; destruct H; discriminate.
Qed.

(** C6.  Let [op] be one of [+ - * / ^] and let the operands be typed
    [leftType] and [rightType].  If one of the two is not numeric, the
    analyzer appends SEM022 at the span of the expression.  Otherwise
    it appends nothing, and the inferred type is REAL when an operand
    is REAL or [op] is [/], and INTEGER in every other case. *)
Theorem arithmetic_result_type :
  forall op left_ right_ span scope st leftType st1 rightType st2,
    In op arithmeticOperators ->
    inferExpressionType left_ scope st = Normal (leftType, st1) ->
    inferExpressionType right_ scope st1 = Normal (rightType, st2) ->
    (isNumeric leftType = false \/ isNumeric rightType = false ->
     exists t,
       inferExpressionType (EBinary op left_ right_ span) scope st
       = Normal (t, withError st2 span "SEM022")) /\
    (isNumeric leftType = true -> isNumeric rightType = true ->
     (leftType = T_REAL \/ rightType = T_REAL \/ op = js "/" ->
      inferExpressionType (EBinary op left_ right_ span) scope st
      = Normal (T_REAL, st2)) /\
     (~ (leftType = T_REAL \/ rightType = T_REAL \/ op = js "/") ->
      inferExpressionType (EBinary op left_ right_ span) scope st
      = Normal (T_INTEGER, st2))).
Proof.
  intros op left_ right_ span scope st leftType st1 rightType st2 Hop Hl Hr.
  apply includes_In in Hop.
  remember (inferExpressionType (EBinary op left_ right_ span) scope st)
    as result eqn:Hres.
  cbn [inferExpressionType] in Hres. unfold bind at 1 in Hres.
  rewrite Hl in Hres. unfold bind at 1 in Hres. rewrite Hr, Hop in Hres.
  split.
  - intros Hnon. exists UNKNOWN.
    assert (negb (isNumeric leftType) || negb (isNumeric rightType) = true)
      as Hb.
    { destruct Hnon as [-> | ->]; simpl; [reflexivity|].
      apply orb_true_r. }
    rewrite Hb in Hres. subst result. reflexivity.
  - intros Hnl Hnr. rewrite Hnl, Hnr in Hres. simpl in Hres.
    apply isNumeric_cases in Hnl. apply isNumeric_cases in Hnr.
    unfold T_INTEGER, T_REAL in *.
    destruct (streq op (js "/")) eqn:Hdiv.
    + apply streq_true in Hdiv.
      split; [|intros Hno; exfalso; apply Hno; auto].
      intros _. subst result.
      destruct Hnl as [-> | ->], Hnr as [-> | ->]; reflexivity.
    + assert (op <> js "/") as Hne.
      { intros Heq. apply streq_true in Heq. congruence. }
      split.
      * intros [Hreal | [Hreal | Hreal]]; [| |contradiction]; subst result;
          destruct Hnl as [-> | ->], Hnr as [-> | ->];
          try discriminate; reflexivity.
      * intros Hno. subst result.
        destruct Hnl as [-> | ->], Hnr as [-> | ->];
          try reflexivity; exfalso; apply Hno; auto.
Qed.

Lemma arithmetic_result_type_witness :
  In (js "^") arithmeticOperators /\
  inferExpressionType
    (EBinary (js "^") (ELiteral (LNumber (NumInt 2)) INTEGER (mkSpan 1 1 1 1))
             (ELiteral (LNumber (NumInt 3)) INTEGER (mkSpan 1 5 1 5))
             (mkSpan 1 1 1 5))
    None initialState
  = Normal (T_INTEGER, initialState).
Proof.
  split.
  - simpl. tauto.
  - refine (proj2
      (proj2
         (arithmetic_result_type (js "^")
            (ELiteral (LNumber (NumInt 2)) INTEGER (mkSpan 1 1 1 1))
            (ELiteral (LNumber (NumInt 3)) INTEGER (mkSpan 1 5 1 5))
            (mkSpan 1 1 1 5) None initialState T_INTEGER initialState
            T_INTEGER initialState _ eq_refl eq_refl)
         eq_refl eq_refl) _).
    + simpl. tauto.
    + intros [H | [H | H]]; discriminate H.
Defined.

(** An unknown operand is "not numeric": the addition of an
    undeclared name reports SEM022 on top of SEM019. *)
Corollary unknown_operand_reports_SEM022 :
  forall op left_ right_ span scope st st1 rightType st2,
    In op arithmeticOperators ->
    inferExpressionType left_ scope st = Normal (UNKNOWN, st1) ->
    inferExpressionType right_ scope st1 = Normal (rightType, st2) ->
    exists t,
      inferExpressionType (EBinary op left_ right_ span) scope st
      = Normal (t, withError st2 span "SEM022").
Proof.
  intros op left_ right_ span scope st st1 rightType st2 Hop Hl Hr.
  apply includes_In in Hop. exists UNKNOWN.
  cbn [inferExpressionType]. unfold bind at 1. rewrite Hl.
  unfold bind at 1. rewrite Hr, Hop. reflexivity.
Qed.

(** ** The RETURN check of function definitions *)

Lemma flagIs_ret (b : bool) (scope : Scope) (openFiles : OpenFiles) :
  flagIs b (ret (b, scope, openFiles)).
Proof. intros st r st' H. injection H as <- _. reflexivity. Qed.

Lemma flagIs_bind {A} (m : M A) (k : A -> M StepResult) (b : bool) :
  (forall a, flagIs b (k a)) -> flagIs b (bind m k).
Proof.
  intros Hk st r st'. unfold bind.
  destruct (m st) as [[a st1]|e]; [|discriminate].
  apply Hk.
Qed.

Ltac flag_step :=
  first
    [ apply flagIs_ret
    | apply flagIs_bind; intros
    | match goal with
      | |- flagIs _ (let '(_, _) := ?x in _) => destruct x
      | |- flagIs _ (if ?c then _ else _) => destruct c
      end ].

(** One statement raises the flag exactly when it is a RETURN. *)
Lemma analyzeStatement_flag statement scope current openFiles :
  flagIs (isReturnStatement statement)
         (analyzeStatement statement scope current openFiles).
Proof.
  destruct statement; cbn [analyzeStatement isReturnStatement];
    repeat flag_step.
Qed.

(** [sawReturn] after a block: was there a RETURN among the statements
    of the block itself. *)
Lemma analyzeStatementsFrom_flag statements :
  forall sawReturn scope current openFiles st r st',
    analyzeStatementsFrom analyzeStatement statements sawReturn scope current
                          openFiles st = Normal (r, st') ->
    fst (fst r) = sawReturn || existsb isReturnStatement statements.
Proof.
  induction statements as [|s rest IH];
    intros sawReturn scope current openFiles st r st' H.
  - injection H as <- _. simpl. rewrite orb_false_r. reflexivity.
  - cbn [analyzeStatementsFrom] in H. unfold bind in H.
    destruct (analyzeStatement s scope current openFiles st)
      as [[[[isReturn scope1] openFiles1] st1]|e] eqn:Hs; [|discriminate].
    apply analyzeStatement_flag in Hs. simpl in Hs. subst isReturn.
    apply IH in H. rewrite H. simpl. rewrite orb_assoc. reflexivity.
Qed.

(** SEM011 for a function definition: the state after the body, with
    SEM011 appended exactly when no statement of the body itself is a
    RETURN; RETURN statements inside nested blocks play no part. *)
Lemma functionDefinition_SEM011 name params returnType body span :
  forall scope current openFiles st r st',
    analyzeStatement (SFunctionDefinition name params returnType body span)
                     scope current openFiles st = Normal (r, st') ->
    exists functionScope stParams bodyResult stBody,
      defineParams params (newScope (Some scope)) st
      = Normal (functionScope, stParams) /\
      analyzeStatements body functionScope (Some (TBasic returnType)) ∅ stParams
      = Normal (bodyResult, stBody) /\
      st' = if existsb isReturnStatement body then stBody
            else withError stBody span "SEM011".
Proof.
  intros scope current openFiles st r st' H.
  cbn [analyzeStatement] in H. unfold bind at 1 in H.
  destruct (defineParams params (newScope (Some scope)) st)
    as [[functionScope stParams]|e] eqn:Hp; [|discriminate].
  unfold bind at 1 in H.
  destruct (analyzeStatementsFrom analyzeStatement body false functionScope
              (Some (TBasic returnType)) ∅ stParams)
    as [[bodyResult stBody]|e] eqn:Hb; [|discriminate].
  exists functionScope, stParams, bodyResult, stBody.
  split; [reflexivity|]. split; [exact Hb|].
  pose proof (analyzeStatementsFrom_flag _ _ _ _ _ _ _ _ Hb) as Hflag.
  simpl in Hflag. rewrite Hflag in H.
  destruct (existsb isReturnStatement body); simpl in H;
    unfold bind, pushError, ret in H; injection H as _ <-; reflexivity.
Qed.

(** ** Identifier resolution and emitted names *)

(** Scope lookup depends on the name up to letter case. *)
Lemma lookup_case_insensitive (scope : Scope) (a b : jsstring) :
  toLowerCase a = toLowerCase b -> lookup scope a = lookup scope b.
Proof.
  intros Hab. revert scope.
  fix IH 1. intros scope.
  destruct scope as [m [q|]]; simpl; rewrite Hab;
    destruct (m !! toLowerCase b); try reflexivity.
  apply IH.
Qed.

(** The generator writes a name as the node spells it. *)
Lemma emitExpression_identifier numberToString name span :
  Codegen.emitExpression numberToString (EIdentifier name span) = name.
Proof. reflexivity. Qed.

(** ** File-mode tracking *)

Lemma setProperty_insert {V} (o : gmap jsstring V) (k : jsstring) (v : V) :
  k <> js "__proto__" -> setProperty o k v = <[k := v]> o.
Proof.
  intros Hk. unfold setProperty.
  destruct (streq k (js "__proto__")) eqn:E; [|reflexivity].
  apply streq_true in E. contradiction.
Qed.

Lemma getProperty_own {V} (o : gmap jsstring V) (k : jsstring) (v : V) :
  k <> js "__proto__" -> o !! k = Some v -> getProperty o k = Own v.
Proof.
  intros Hk Hv. unfold getProperty.
  destruct (streq k (js "__proto__")) eqn:E.
  - apply streq_true in E. contradiction.
  - rewrite Hv. reflexivity.
Qed.

(** OPENFILE on a non-empty literal name records the mode. *)
Lemma openfile_literal_records (f : jsstring) (sp : SourceSpan) (mode : FileMode)
      (span : SourceSpan) (scope : Scope)
      (current : option StaticType) (openFiles : OpenFiles) (st : AState) :
  f <> [] -> f <> js "__proto__" ->
  analyzeStatement (SOpenFile (stringLiteral f sp) mode span) scope current
                   openFiles st
  = Normal ((false, scope, <[f := mode]> openFiles), st).
Proof.
  intros Hne Hproto. destruct f as [|c f]; [contradiction|].
  cbn. rewrite setProperty_insert by exact Hproto. reflexivity.
Qed.

(** CLOSEFILE on a non-empty literal name removes the record. *)
Lemma closefile_literal_removes (f : jsstring) (sp span : SourceSpan)
      (scope : Scope)
      (current : option StaticType) (openFiles : OpenFiles) (st : AState) :
  f <> [] ->
  analyzeStatement (SCloseFile (stringLiteral f sp) span) scope current
                   openFiles st
  = Normal ((false, scope, delete f openFiles), st).
Proof.
  intros Hne. destruct f as [|c f]; [contradiction|]. reflexivity.
Qed.

(** READFILE on a literal name recorded in WRITE mode reports SEM015,
    and then checks its target. *)
Lemma readfile_on_write_handle (f : jsstring) (sp : SourceSpan)
      (target : ExpressionNode) (span : SourceSpan) (scope : Scope)
      (current : option StaticType) (openFiles : OpenFiles) (st : AState) :
  f <> [] -> f <> js "__proto__" -> openFiles !! f = Some WRITE ->
  analyzeStatement (SReadFile (stringLiteral f sp) target span) scope current
                   openFiles st
  = bind (resolveAssignableType target scope)
         (fun _ => ret (false, scope, openFiles))
         (withError st span "SEM015").
Proof.
  intros Hne Hproto Hw. destruct f as [|c f]; [contradiction|].
  cbn [analyzeStatement stringLiteral literalFileName].
  unfold bind at 1. unfold ret at 1.
  unfold openInOtherMode, nonEmpty.
  rewrite (getProperty_own _ _ _ Hproto Hw). reflexivity.
Qed.

(** WRITEFILE on a literal name recorded in READ mode reports SEM016,
    and then types its value. *)
Lemma writefile_on_read_handle (f : jsstring) (sp : SourceSpan)
      (value : ExpressionNode) (span : SourceSpan) (scope : Scope)
      (current : option StaticType) (openFiles : OpenFiles) (st : AState) :
  f <> [] -> f <> js "__proto__" -> openFiles !! f = Some READ ->
  analyzeStatement (SWriteFile (stringLiteral f sp) value span) scope current
                   openFiles st
  = bind (inferExpressionType value (Some scope))
         (fun _ => ret (false, scope, openFiles))
         (withError st span "SEM016").
Proof.
  intros Hne Hproto Hw. destruct f as [|c f]; [contradiction|].
  cbn [analyzeStatement stringLiteral literalFileName].
  unfold bind at 1. unfold ret at 1.
  unfold openInOtherMode, nonEmpty.
  rewrite (getProperty_own _ _ _ Hproto Hw). reflexivity.
Qed.

Lemma literalFileName_non_literal (e : ExpressionNode) (scope : Scope) :
  isStringLiteral e = false ->
  literalFileName e scope
  = bind (inferExpressionType e (Some scope)) (fun _ => ret None).
Proof.
  destruct e as [[n|v|b] [] sp| | | | |]; simpl; intros H;
    try discriminate; reflexivity.
Qed.

(** With any other file identifier the four statements only type their
    operands: [openFiles] is handed on as it was and no mode diagnostic
    is added. *)
Lemma non_literal_skips_mode_tracking (e : ExpressionNode) (scope : Scope)
      (current : option StaticType) (openFiles : OpenFiles) (st : AState) :
  isStringLiteral e = false ->
  let typed := inferExpressionType e (Some scope) in
  (forall mode span,
     analyzeStatement (SOpenFile e mode span) scope current openFiles st
     = bind typed (fun _ => bind typed (fun _ =>
         ret (false, scope, openFiles))) st) /\
  (forall span,
     analyzeStatement (SCloseFile e span) scope current openFiles st
     = bind typed (fun _ => bind typed (fun _ =>
         ret (false, scope, openFiles))) st) /\
  (forall target span,
     analyzeStatement (SReadFile e target span) scope current openFiles st
     = bind typed (fun _ => bind typed (fun _ =>
         bind (resolveAssignableType target scope) (fun _ =>
           ret (false, scope, openFiles)))) st) /\
  (forall value span,
     analyzeStatement (SWriteFile e value span) scope current openFiles st
     = bind typed (fun _ => bind typed (fun _ =>
         bind (inferExpressionType value (Some scope)) (fun _ =>
           ret (false, scope, openFiles)))) st).
Proof.
  intros He typed. subst typed.
  repeat split; intros; cbn [analyzeStatement];
    rewrite (literalFileName_non_literal e scope He);
    unfold bind;
    destruct (inferExpressionType e (Some scope) st) as [[t1 st1]|];
    try reflexivity; cbn;
    destruct (inferExpressionType e (Some scope) st1) as [[t2 st2]|];
    reflexivity.
Qed.

(** ** What the tokenizer returns *)

Module TokenizerOutput.
Import Tokenizer.
Local Open Scope nat_scope.
#[local] Arguments advance : simpl never.
#[local] Arguments scanWhile : simpl never.

Lemma scanned_refl st : scanned st st [] [].
Proof. split; rewrite app_nil_r; reflexivity. Qed.

Lemma scanned_trans a b c ts1 ds1 ts2 ds2 :
  scanned a b ts1 ds1 -> scanned b c ts2 ds2 ->
  scanned a c (ts1 ++ ts2) (ds1 ++ ds2).
Proof.
  intros [H1 H2] [H3 H4]. split.
  - rewrite H3, H1, app_assoc. reflexivity.
  - rewrite H4, H2, app_assoc. reflexivity.
Qed.

Lemma scanned_two a b c :
  scanned a b [] [] -> scanned b c [] [] -> scanned a c [] [].
Proof. intros H1 H2. apply (scanned_trans _ _ _ _ _ _ _ H1 H2). Qed.

Lemma scanned_advance st : scanned st (snd (advance st)) [] [].
Proof.
  unfold advance.
  destruct (current st =? cLF)%N; split; simpl; rewrite app_nil_r; reflexivity.
Qed.

Lemma scanned_addToken ty lx sl sc el ec kw st :
  scanned st (addToken ty lx sl sc el ec kw st)
          [mkToken ty lx kw (mkSpan sl sc el ec)] [].
Proof. split; simpl; [reflexivity|rewrite app_nil_r; reflexivity]. Qed.

Lemma scanned_pushLexDiagnostic c l col el ec st :
  scanned st (pushLexDiagnostic c l col el ec st) []
          [mkDiagnostic (js c) SevError l col el ec].
Proof. split; simpl; [rewrite app_nil_r; reflexivity|reflexivity]. Qed.

Lemma scanned_advanceWhile n p st :
  scanned st (snd (advanceWhile n p st)) [] [].
Proof.
  revert st. induction n as [|n IH]; intros st; cbn [advanceWhile];
    [apply scanned_refl|].
  destruct (p (current st)); [|apply scanned_refl].
  pose proof (scanned_advance st) as H.
  destruct (advance st) as [c st1]. cbn [snd] in H.
  specialize (IH st1). destruct (advanceWhile n p st1) as [l st2].
  cbn [snd] in *. apply (scanned_two _ _ _ H IH).
Qed.

Lemma scanned_scanWhile p st : scanned st (snd (scanWhile p st)) [] [].
Proof. apply scanned_advanceWhile. Qed.

(** The code units taken by a scanning loop pass its test. *)
Lemma advanceWhile_all n p st :
  forallb p (fst (advanceWhile n p st)) = true.
Proof.
  revert st. induction n as [|n IH]; intros st; cbn [advanceWhile];
    [reflexivity|].
  destruct (p (current st)) eqn:Hp; [|reflexivity].
  unfold advance. simpl.
  match goal with
  | |- context [advanceWhile n p ?s] =>
      specialize (IH s); destruct (advanceWhile n p s) as [l st2]
  end.
  simpl in *. rewrite Hp, IH. reflexivity.
Qed.

Lemma scanWhile_all p st : forallb p (fst (scanWhile p st)) = true.
Proof. apply advanceWhile_all. Qed.

(** A scanning loop entered on a code unit that passes its test takes
    that code unit first. *)
Lemma scanWhile_first p st :
  rest st <> [] -> p (current st) = true ->
  exists r, fst (scanWhile p st) = current st :: r.
Proof.
  intros Hne Hp. unfold scanWhile.
  destruct (rest st) as [|c r] eqn:Hr; [contradiction|].
  simpl length. cbn [advanceWhile]. rewrite Hp.
  unfold advance. simpl.
  match goal with
  | |- context [advanceWhile ?n p ?s] => destruct (advanceWhile n p s) as [l st2]
  end.
  simpl. eauto.
Qed.

Lemma isDecimalFrom_parts (intPart fracPart : jsstring) (seenDigit : bool) :
  forallb isDigitUnit intPart = true ->
  isDecimalFrom seenDigit (intPart ++ cDOT :: fracPart)
  = (seenDigit || negb (Nat.eqb (length intPart) 0)) && isDigits fracPart.
Proof.
  revert seenDigit. induction intPart as [|c intPart IH]; intros seenDigit H.
  - simpl. rewrite orb_false_r. destruct seenDigit; reflexivity.
  - simpl in H. apply andb_prop in H as [Hc H].
    simpl. rewrite Hc, (IH true H). rewrite orb_true_r. reflexivity.
Qed.

Lemma current_after_advance st : current (snd (advance st)) = peek st.
Proof.
  unfold advance, current, peek. destruct (_ =? _)%N; reflexivity.
Qed.

Lemma rest_after_advance st : rest (snd (advance st)) = tl (rest st).
Proof. unfold advance. destruct (_ =? _)%N; reflexivity. Qed.

Lemma stepOutput_silent st st' : scanned st st' [] [] -> stepOutput st st'.
Proof. intros H. exists [], []. split; [exact H|]. split; constructor. Qed.

Lemma stepOutput_token st st1 ds ty lx sl sc el ec kw :
  scanned st st1 [] ds -> errorsOnly ds ->
  wellFormed (mkToken ty lx kw (mkSpan sl sc el ec)) = true ->
  stepOutput st (addToken ty lx sl sc el ec kw st1).
Proof.
  intros H Hds Hwf. exists [mkToken ty lx kw (mkSpan sl sc el ec)], ds.
  split; [|split; [simpl; rewrite Hwf; reflexivity|exact Hds]].
  pose proof (scanned_trans _ _ _ _ _ _ _ H
                (scanned_addToken ty lx sl sc el ec kw st1)) as H'.
  rewrite app_nil_r in H'. exact H'.
Qed.

Lemma stepOutput_scanQuoted quote ty errCode sl sc st :
  ty = STRING_LITERAL \/ ty = CHAR_LITERAL ->
  stepOutput st (scanQuoted quote ty errCode sl sc st).
Proof.
  intros Hty. unfold scanQuoted.
  pose proof (scanned_advance st) as H1.
  destruct (advance st) as [c0 st1]. cbn [snd] in H1.
  match goal with
  | |- context [scanWhile ?p st1] =>
      pose proof (scanned_scanWhile p st1) as H2;
      destruct (scanWhile p st1) as [body st2]
  end.
  cbn [snd] in H2.
  pose proof (scanned_two _ _ _ H1 H2) as H12.
  destruct (negb (current st2 =? quote)%N).
  - eapply stepOutput_token.
    + apply (scanned_trans _ _ _ _ _ _ _ H12
               (scanned_pushLexDiagnostic _ _ _ _ _ _)).
    + repeat constructor.
    + destruct Hty as [-> | ->]; reflexivity.
  - pose proof (scanned_advance st2) as H3.
    destruct (advance st2) as [c1 st3]. cbn [snd] in H3.
    eapply stepOutput_token.
    + apply (scanned_two _ _ _ H12 H3).
    + constructor.
    + destruct Hty as [-> | ->]; reflexivity.
Qed.

Lemma singleCharTokens_type char ty :
  singleCharTokens char = Some ty ->
  ty <> EOF /\ ty <> KEYWORD /\ ty <> IDENTIFIER /\ ty <> INTEGER_LITERAL /\
  ty <> REAL_LITERAL.
Proof.
  unfold singleCharTokens.
  repeat match goal with
         | |- context [if ?c then _ else _] => destruct c
         end;
    intros H; try discriminate; injection H as <-; repeat split; discriminate.
Qed.

(** One round of the main loop adds well-formed tokens and errors. *)
Lemma tokenizeStep_output st :
  rest st <> [] -> stepOutput st (tokenizeStep st).
Proof.
  intros Hne. unfold tokenizeStep.
  destruct ((current st =? cSPACE)%N || (current st =? cTAB)%N
            || (current st =? cCR)%N);
    [apply stepOutput_silent, scanned_advance|].
  destruct (current st =? cLF)%N.
  { eapply stepOutput_token; [apply scanned_advance|constructor|reflexivity]. }
  destruct ((current st =? cSLASH)%N && (peek st =? cSLASH)%N).
  { apply stepOutput_silent, scanned_scanWhile. }
  destruct ((current st =? cARROW)%N
            || (current st =? cLESS)%N && (peek st =? cDASH)%N).
  { destruct (current st =? cARROW)%N.
    - pose proof (scanned_advance st) as H1.
      destruct (advance st) as [c st1]. cbn [snd] in H1.
      eapply stepOutput_token; [exact H1|constructor|reflexivity].
    - pose proof (scanned_advance st) as H1.
      destruct (advance st) as [c1 st1]. cbn [snd] in H1.
      pose proof (scanned_advance st1) as H2.
      destruct (advance st1) as [c2 st2]. cbn [snd] in H2.
      eapply stepOutput_token;
        [exact (scanned_two _ _ _ H1 H2)|constructor|reflexivity]. }
  destruct ((current st =? cLESS)%N && (peek st =? cEQUALS)%N).
  { eapply stepOutput_token;
      [exact (scanned_two _ _ _ (scanned_advance _) (scanned_advance _))
      |constructor|reflexivity]. }
  destruct ((current st =? cGREATER)%N && (peek st =? cEQUALS)%N).
  { eapply stepOutput_token;
      [exact (scanned_two _ _ _ (scanned_advance _) (scanned_advance _))
      |constructor|reflexivity]. }
  destruct ((current st =? cLESS)%N && (peek st =? cGREATER)%N).
  { eapply stepOutput_token;
      [exact (scanned_two _ _ _ (scanned_advance _) (scanned_advance _))
      |constructor|reflexivity]. }
  destruct (singleCharTokens (current st)) as [ty|] eqn:Hsingle.
  { apply singleCharTokens_type in Hsingle.
    eapply stepOutput_token; [apply scanned_advance|constructor|].
    unfold wellFormed. simpl. destruct ty; try reflexivity; tauto. }
  destruct (current st =? cDQUOTE)%N;
    [apply stepOutput_scanQuoted; auto|].
  destruct ((current st =? cQUOTE)%N || (current st =? cMODQUOTE)%N);
    [apply stepOutput_scanQuoted; auto|].
  destruct (isDigitUnit (current st)) eqn:Hdigit.
  { pose proof (scanned_scanWhile isDigitUnit st) as H1.
    pose proof (scanWhile_all isDigitUnit st) as Hall.
    destruct (scanWhile_first isDigitUnit st Hne Hdigit) as [r Hfirst].
    destruct (scanWhile isDigitUnit st) as [intPart st1].
    cbn [snd fst] in *.
    assert (isDigits intPart = true) as Hint.
    { rewrite Hfirst in *. exact Hall. }
    destruct ((current st1 =? cDOT)%N && isDigitUnit (peek st1)) eqn:Hdot.
    - apply andb_prop in Hdot as [Hdot Hpeek]. apply N.eqb_eq in Hdot.
      pose proof (scanned_advance st1) as H2.
      pose proof (current_after_advance st1) as Hcur.
      pose proof (rest_after_advance st1) as Hrest.
      assert (fst (advance st1) = cDOT) as Hfst by exact Hdot.
      destruct (advance st1) as [dot st2]. cbn [snd fst] in *.
      assert (rest st2 <> []) as Hne2.
      { rewrite Hrest. unfold peek in Hpeek.
        destruct (tl (rest st1)); discriminate. }
      rewrite <- Hcur in Hpeek.
      pose proof (scanned_scanWhile isDigitUnit st2) as H3.
      pose proof (scanWhile_all isDigitUnit st2) as Hall2.
      destruct (scanWhile_first isDigitUnit st2 Hne2 Hpeek) as [r2 Hfirst2].
      destruct (scanWhile isDigitUnit st2) as [fracPart st3].
      cbn [snd fst] in *.
      eapply stepOutput_token;
        [exact (scanned_two _ _ _ H1 (scanned_two _ _ _ H2 H3))|constructor|].
      unfold wellFormed, isDecimal. cbn [type lexeme keyword noKeyword].
      rewrite andb_true_r, Hfst, (isDecimalFrom_parts _ _ _ Hall).
      rewrite Hfirst. simpl. rewrite Hfirst2 in *. exact Hall2.
    - eapply stepOutput_token; [exact H1|constructor|].
      unfold wellFormed. simpl. rewrite Hint. reflexivity. }
  destruct (isLetterUnit (current st)) eqn:Hletter.
  { assert (isAlnumUnit (current st) = true) as Halnum.
    { unfold isAlnumUnit. rewrite Hletter. reflexivity. }
    pose proof (scanned_scanWhile isAlnumUnit st) as H1.
    pose proof (scanWhile_all isAlnumUnit st) as Hall.
    destruct (scanWhile_first isAlnumUnit st Hne Halnum) as [r Hfirst].
    destruct (scanWhile isAlnumUnit st) as [lexeme1 st1].
    cbn [snd fst] in *.
    assert (isWord lexeme1 = true) as Hword.
    { rewrite Hfirst in *. simpl in *. rewrite Hletter.
      apply andb_prop in Hall as [_ Hall]. exact Hall. }
    destruct (includes KEYWORDS (toUpperCase lexeme1)) eqn:Hkw.
    - destruct (negb (streq lexeme1 (toUpperCase lexeme1))).
      + eapply stepOutput_token.
        * apply (scanned_trans _ _ _ _ _ _ _ H1
                   (scanned_pushLexDiagnostic _ _ _ _ _ _)).
        * repeat constructor.
        * unfold wellFormed. cbn [type lexeme keyword noKeyword].
          rewrite Hword, Hkw.
          unfold streq. rewrite bool_decide_eq_true_2 by reflexivity.
          reflexivity.
      + eapply stepOutput_token; [exact H1|constructor|].
        unfold wellFormed. cbn [type lexeme keyword noKeyword].
        rewrite Hword, Hkw.
        unfold streq. rewrite bool_decide_eq_true_2 by reflexivity.
        reflexivity.
    - eapply stepOutput_token; [exact H1|constructor|].
      unfold wellFormed. cbn [type lexeme keyword noKeyword].
      rewrite Hword, Hkw. reflexivity. }
  exists [], [mkDiagnostic (js "SYN002") SevError (lxLine st) (lxColumn st)
                (lxLine st) (lxColumn st)].
  split; [|split; repeat constructor].
  pose proof (scanned_trans _ _ _ _ _ _ _
                (scanned_pushLexDiagnostic "SYN002" (lxLine st) (lxColumn st)
                   (lxLine st) (lxColumn st) st)
                (scanned_advance _)) as H.
  rewrite app_nil_r in H. exact H.
Qed.

Lemma tokenizeLoop_output fuel :
  forall st st', tokenizeLoop fuel st = Some st' -> stepOutput st st'.
Proof.
  induction fuel as [|fuel IH]; intros st st'; simpl.
  - destruct (rest st); [|discriminate].
    intros H. injection H as <-. apply stepOutput_silent, scanned_refl.
  - destruct (rest st) as [|c r] eqn:Hr.
    + intros H. injection H as <-. apply stepOutput_silent, scanned_refl.
    + intros H. apply IH in H.
      assert (rest st <> []) as Hne by (rewrite Hr; discriminate).
      destruct (tokenizeStep_output st Hne) as (ts1 & ds1 & He1 & Hw1 & Hd1).
      destruct H as (ts2 & ds2 & He2 & Hw2 & Hd2).
      exists (ts1 ++ ts2), (ds1 ++ ds2). split; [|split].
      * apply (scanned_trans _ _ _ _ _ _ _ He1 He2).
      * rewrite forallb_app, Hw1, Hw2. reflexivity.
      * apply Forall_app. split; assumption.
Qed.

(** The token array: well-formed tokens, then one EOF token; the
    diagnostics are errors. *)
Lemma tokenize_output (source : jsstring) tokens diagnostics :
  tokenize source = Some (tokens, diagnostics) ->
  exists body eof,
    tokens = body ++ [eof] /\ type eof = EOF /\ keyword eof = None /\
    forallb wellFormed body = true /\
    errorsOnly diagnostics.
Proof.
  unfold tokenize.
  destruct (tokenizeLoop _ _) as [st|] eqn:Hloop; [|discriminate].
  intros H. injection H as <- <-.
  apply tokenizeLoop_output in Hloop as (ts & ds & [Ht Hd] & Hw & He).
  simpl in *. rewrite Ht, Hd. simpl.
  eexists. eexists. split; [reflexivity|]. repeat split; assumption.
Qed.

Lemma wellFormed_not_EOF (t : Token) : wellFormed t = true -> type t <> EOF.
Proof. unfold wellFormed. intros H E. rewrite E in H. discriminate. Qed.

(** X1.  For every source text the tokenizer returns a token array
    that ends with an EOF token and holds no other EOF token: the
    parser's end test [isAtEnd] fires at the last token and nowhere
    before. *)
Theorem tokenize_ends_with_the_only_EOF :
  forall source,
    exists body eof diagnostics,
      tokenize source = Some (body ++ [eof], diagnostics) /\
      type eof = EOF /\
      Forall (fun t => type t <> EOF) body.
Proof.
  intros source.
  destruct (TokenizerFacts.tokenize_total source) as (tokens & ds & Ht).
  destruct (tokenize_output source tokens ds Ht)
    as (body & eof & -> & Heof & _ & Hwf & _).
  exists body, eof, ds. split; [exact Ht|]. split; [exact Heof|].
  apply List.Forall_forall. intros t Hin. apply wellFormed_not_EOF.
  rewrite forallb_forall in Hwf. apply Hwf, Hin.
Qed.

(** A scanning loop that stands at a run of code units passing its
    test, none of them a line break, followed by one that fails it,
    takes exactly the run. *)
Lemma advanceWhile_run (p : N -> bool) (w : jsstring) :
  forall n tail st,
    forallb p w = true ->
    forallb (fun c => negb (c =? cLF)%N) w = true ->
    p (hd cNUL tail) = false ->
    length w <= n ->
    rest st = w ++ tail ->
    advanceWhile n p st
    = (w, mkLexState tail (lxLine st) (lxColumn st + Z.of_nat (length w))
                     (tokens st) (lxDiagnostics st)).
Proof.
  induction w as [|c w IH]; intros n tail st Hp Hlf Htail Hn Hrest.
  - simpl in Hrest. destruct st as [r l col ts ds]. simpl in *. subst r.
    rewrite Z.add_0_r.
    destruct n as [|n]; cbn [advanceWhile]; [reflexivity|].
    unfold current. simpl. rewrite Htail. reflexivity.
  - simpl in Hp, Hlf, Hn.
    apply andb_prop in Hp as [Hc Hp]. apply andb_prop in Hlf as [Hcl Hlf].
    destruct n as [|n]; [lia|]. cbn [advanceWhile].
    unfold current. rewrite Hrest. simpl hd. rewrite Hc.
    unfold advance, current. rewrite Hrest. simpl hd. simpl tl.
    apply negb_true_iff in Hcl. rewrite Hcl.
    erewrite (IH n tail _ Hp Hlf Htail ltac:(lia)) by reflexivity.
    cbn [lxLine lxColumn tokens lxDiagnostics length].
    replace (lxColumn st + 1 + Z.of_nat (length w))%Z
      with (lxColumn st + Z.of_nat (S (length w)))%Z by lia.
    reflexivity.
Qed.

Lemma alnum_not_LF (w : jsstring) :
  forallb isAlnumUnit w = true ->
  forallb (fun c => negb (c =? cLF)%N) w = true.
Proof.
  intros H. apply forallb_forall. intros c Hc.
  rewrite forallb_forall in H. specialize (H c Hc).
  unfold isAlnumUnit, isLetterUnit, isUpperUnit, isLowerUnit, isDigitUnit in H.
  apply negb_true_iff, N.eqb_neq. unfold cLF. intros ->. discriminate.
Qed.

Lemma isWord_alnum (w : jsstring) :
  isWord w = true -> forallb isAlnumUnit w = true.
Proof.
  destruct w as [|c w]; [discriminate|]. simpl. intros H.
  apply andb_prop in H as [Hc Hw]. unfold isAlnumUnit at 1.
  rewrite Hc, Hw. reflexivity.
Qed.

(** One round of the main loop on a word. *)
Lemma tokenizeStep_word (word tail : jsstring) (st : LexState) :
  isWord word = true ->
  isAlnumUnit (hd cNUL tail) = false ->
  rest st = word ++ tail ->
  tokenizeStep st
  = mkLexState tail (lxLine st) (lxColumn st + Z.of_nat (length word))
      (tokens st ++ [wordToken word (lxLine st) (lxColumn st)])
      (lxDiagnostics st ++ wordDiagnostics word (lxLine st) (lxColumn st)).
Proof.
  intros Hword Htail Hrest.
  pose proof (isWord_alnum word Hword) as Halnum.
  pose proof (advanceWhile_run isAlnumUnit word (length (rest st)) tail st
                Halnum (alnum_not_LF word Halnum) Htail
                ltac:(rewrite Hrest, length_app; lia) Hrest) as Hscan.
  destruct word as [|c word]; [discriminate|].
  simpl in Hword. apply andb_prop in Hword as [Hc _].
  unfold tokenizeStep.
  assert (current st = c) as Hcur by (unfold current; rewrite Hrest; reflexivity).
  rewrite Hcur.
  assert (65 <= c <= 90 \/ 97 <= c <= 122)%N as Hrange.
  { unfold isLetterUnit, isUpperUnit, isLowerUnit in Hc.
    apply orb_true_iff in Hc as [H|H]; apply andb_prop in H as [H1 H2];
      apply N.leb_le in H1, H2; lia. }
  unfold cSPACE, cTAB, cCR, cLF, cSLASH, cARROW, cLESS, cGREATER, cDQUOTE,
    cQUOTE, cMODQUOTE, singleCharTokens, isDigitUnit.
  repeat match goal with
         | |- context [(c =? ?k)%N] =>
             destruct (N.eqb_spec c k); [lia|]
         end.
  cbn [orb andb].
  assert ((48 <=? c)%N && (c <=? 57)%N = false) as ->.
  { apply andb_false_iff. destruct Hrange; [right|right];
      apply N.leb_gt; lia. }
  rewrite Hc. fold (scanWhile isAlnumUnit st). unfold scanWhile.
  rewrite Hscan. unfold wordToken, wordDiagnostics.
  set (w := c :: word) in *.
  destruct (includes KEYWORDS (toUpperCase w)); cbn [andb].
  - destruct (negb (streq w (toUpperCase w))); unfold addToken, pushLexDiagnostic;
      simpl; rewrite ?app_nil_r; repeat f_equal; lia.
  - unfold addToken. simpl. rewrite app_nil_r. repeat f_equal; lia.
Qed.

(** X2.  Keywords are recognised in any letter case, wherever they
    stand.  When the scanner stands at a word (a letter followed by
    letters and digits, up to a code unit that is neither), one round
    of the main loop takes the whole word and adds exactly one token
    for it: a KEYWORD whose [keyword] field is the uppercased spelling
    when that spelling is reserved, an IDENTIFIER with no [keyword]
    field otherwise; it adds the diagnostic SYN001 over the word
    exactly when the word is a keyword not written in capitals.  In
    particular a source that starts with a word has that token as its
    first token. *)
Theorem words_become_keywords_or_identifiers :
  forall (word tail : jsstring),
    isWord word = true ->
    isAlnumUnit (hd cNUL tail) = false ->
    (forall line column tokens diagnostics,
       tokenizeStep (mkLexState (word ++ tail) line column tokens diagnostics)
       = mkLexState tail line (column + Z.of_nat (length word))
           (tokens ++ [wordToken word line column])
           (diagnostics ++ wordDiagnostics word line column)) /\
    exists moreTokens moreDiagnostics,
      tokenize (word ++ tail)
      = Some (wordToken word 1 1 :: moreTokens,
              wordDiagnostics word 1 1 ++ moreDiagnostics).
Proof.
  intros word tail Hword Htail.
  assert (forall line column tokens diagnostics,
            tokenizeStep
              (mkLexState (word ++ tail) line column tokens diagnostics)
            = mkLexState tail line (column + Z.of_nat (length word))
                (tokens ++ [wordToken word line column])
                (diagnostics ++ wordDiagnostics word line column)) as Hstep.
  { intros line column tokens diagnostics.
    apply (tokenizeStep_word word tail
             (mkLexState (word ++ tail) line column tokens diagnostics)
             Hword Htail).
    reflexivity. }
  split; [exact Hstep|].
  unfold tokenize.
  destruct word as [|c word]; [discriminate|].
  cbn [app length tokenizeLoop rest]. rewrite <- app_comm_cons in Hstep.
  rewrite Hstep.
  match goal with
  | |- context [tokenizeLoop ?k ?s] =>
      destruct (TokenizerFacts.tokenizeLoop_total k s) as [st' Hloop]
  end.
  { unfold remaining. cbn [rest]. rewrite length_app. lia. }
  rewrite Hloop.
  apply tokenizeLoop_output in Hloop as (ts & ds & [Hts Hds] & _ & _).
  cbn [tokens lxDiagnostics app] in Hts, Hds.
  cbn [addToken tokens lxDiagnostics]. rewrite Hts, Hds.
  exists (ts ++ [mkToken EOF [] None
                         (mkSpan (lxLine st') (lxColumn st') (lxLine st')
                                 (lxColumn st'))]), ds.
  reflexivity.
Qed.

Lemma words_become_keywords_or_identifiers_witness :
  exists moreTokens moreDiagnostics,
    tokenize (js "While" ++ js " x")
    = Some (mkToken KEYWORD (js "While") (Some (js "WHILE")) (mkSpan 1 1 1 5)
            :: moreTokens,
            [mkDiagnostic (js "SYN001") SevError 1 1 1 5] ++ moreDiagnostics).
Proof.
  apply (proj2 (words_become_keywords_or_identifiers (js "While") (js " x")
                  eq_refl eq_refl)).
Defined.




End TokenizerOutput.

(** ** The diagnostics of the parser *)

Module ParserDiagnostics.
Import Tokenizer Parser ParserBounds.
Local Open Scope nat_scope.

Lemma pExtends_refl st : pExtends st st.
Proof. exists []. rewrite app_nil_r. split; [reflexivity|constructor]. Qed.

Lemma pExtends_trans a b c : pExtends a b -> pExtends b c -> pExtends a c.
Proof.
  intros (x & Hx & Fx) (y & Hy & Fy). exists (x ++ y).
  rewrite Hy, Hx, app_assoc. split; [reflexivity|].
  apply Forall_app. split; assumption.
Qed.

Lemma pExtends_index st i : pExtends st (mkPState i (pDiagnostics st)).
Proof. exists []. simpl. rewrite app_nil_r. split; [reflexivity|constructor]. Qed.

Lemma grows_ret {A} (a : A) : grows (ret a).
Proof. intros st x st' H. injection H as _ <-. apply pExtends_refl. Qed.

Lemma grows_outOfFuel {A} : grows (@outOfFuel A).
Proof. intros st x st' H. discriminate. Qed.

Lemma grows_bind {A B} (m : P A) (k : A -> P B) :
  grows m -> (forall a, grows (k a)) -> grows (bind m k).
Proof.
  intros Hm Hk st b st'. unfold bind.
  destruct (m st) as [[a st1]|] eqn:E; [|discriminate].
  intros H. eapply pExtends_trans; [eapply Hm, E|eapply Hk, H].
Qed.

Section WithTokens.

Variable tokens : list Token.

Lemma pExtends_advanceAt st : pExtends st (advanceAt tokens st).
Proof.
  unfold advanceAt. destruct (isAtEndAt tokens st);
    [apply pExtends_refl|apply pExtends_index].
Qed.

Lemma grows_current : grows (current tokens).
Proof. intros st x st' H. injection H as _ <-. apply pExtends_refl. Qed.

Lemma grows_previous : grows (previous tokens).
Proof. intros st x st' H. injection H as _ <-. apply pExtends_refl. Qed.

Lemma grows_isAtEnd : grows (isAtEnd tokens).
Proof. intros st x st' H. injection H as _ <-. apply pExtends_refl. Qed.

Lemma grows_checkKeyword kw : grows (checkKeyword tokens kw).
Proof. intros st x st' H. injection H as _ <-. apply pExtends_refl. Qed.

Lemma grows_checkType ty : grows (checkType tokens ty).
Proof. intros st x st' H. injection H as _ <-. apply pExtends_refl. Qed.

Lemma grows_advance : grows (advance tokens).
Proof. intros st x st' H. injection H as _ <-. apply pExtends_advanceAt. Qed.

Lemma grows_error token c : grows (error token c).
Proof.
  intros st x st' H. injection H as _ <-. eexists. simpl.
  split; [reflexivity|]. repeat constructor.
Qed.

Lemma pExtends_consumeNewlinesFrom n :
  forall st, pExtends st (consumeNewlinesFrom tokens n st).
Proof.
  induction n as [|n IH]; intros st; simpl; [apply pExtends_refl|].
  destruct (tokenType_eqb _ _); [|apply pExtends_refl].
  eapply pExtends_trans; [apply pExtends_advanceAt|apply IH].
Qed.

Lemma pExtends_skipLineFrom n :
  forall st, pExtends st (skipLineFrom tokens n st).
Proof.
  induction n as [|n IH]; intros st; simpl; [apply pExtends_refl|].
  destruct (_ && _); [|apply pExtends_refl].
  eapply pExtends_trans; [apply pExtends_advanceAt|apply IH].
Qed.

Lemma grows_consumeNewlines : grows (consumeNewlines tokens).
Proof.
  intros st x st' H. injection H as _ <-. apply pExtends_consumeNewlinesFrom.
Qed.

Lemma grows_synchronizeLine : grows (synchronizeLine tokens).
Proof.
  intros st x st' H. unfold synchronizeLine, consumeNewlines in H.
  injection H as _ <-.
  eapply pExtends_trans;
    [apply pExtends_skipLineFrom|apply pExtends_consumeNewlinesFrom].
Qed.

Ltac grows_step :=
  first
    [ apply grows_ret
    | apply grows_outOfFuel
    | apply grows_current
    | apply grows_previous
    | apply grows_isAtEnd
    | apply grows_checkKeyword
    | apply grows_checkType
    | apply grows_advance
    | apply grows_error
    | apply grows_consumeNewlines
    | apply grows_synchronizeLine
    | assumption
    | match goal with
      | H : forall _, grows _ |- _ => apply H
      | H : forall _ _, grows _ |- _ => apply H
      end
    | apply grows_bind; [|intros]
    | match goal with
      | |- grows (let '(_, _) := ?x in _) => destruct x
      | |- grows (if ?c then _ else _) => destruct c
      | |- grows (match ?x with _ => _ end) => destruct x
      end ].

Lemma grows_matchKeyword kw : grows (matchKeyword tokens kw).
Proof. unfold matchKeyword. repeat grows_step. Qed.

Lemma grows_matchType ty : grows (matchType tokens ty).
Proof. unfold matchType. repeat grows_step. Qed.

Lemma grows_expectKeyword kw c : grows (expectKeyword tokens kw c).
Proof. unfold expectKeyword. repeat grows_step. Qed.

Lemma grows_expectType ty c : grows (expectType tokens ty c).
Proof. unfold expectType. repeat grows_step. Qed.

Lemma grows_peekBinaryOperator : grows (peekBinaryOperator tokens).
Proof. unfold peekBinaryOperator. repeat grows_step. Qed.

Lemma grows_parseIdentifier : grows (parseIdentifier tokens).
Proof.
  unfold parseIdentifier.
  apply grows_bind; [apply grows_matchType|intros]. repeat grows_step.
Qed.

Ltac grows_more :=
  first
    [ apply grows_matchKeyword
    | apply grows_matchType
    | apply grows_expectKeyword
    | apply grows_expectType
    | apply grows_peekBinaryOperator
    | apply grows_parseIdentifier
    | grows_step ].

Lemma grows_expressions (fuel : nat) :
  (forall minPrecedence, grows (parseExpression tokens fuel minPrecedence)) /\
  (forall minPrecedence left_,
     grows (parseExpressionLoop tokens fuel minPrecedence left_)) /\
  grows (parseUnary tokens fuel) /\
  grows (parsePrimary tokens fuel) /\
  (forall token, grows (parseIdentifierOrCall tokens fuel token)) /\
  grows (parseExpressionList tokens fuel).
Proof.
  induction fuel as [|f (IHe & IHl & IHu & IHp & IHc & IHlist)].
  - repeat split; intros; apply grows_outOfFuel.
  - repeat split; intros.
    + cbn [parseExpression]. repeat grows_more.
    + cbn [parseExpressionLoop]. repeat grows_more.
    + cbn [parseUnary]. repeat grows_more.
    + cbn [parsePrimary]. repeat grows_more.
    + cbn [parseIdentifierOrCall]. repeat grows_more.
    + cbn [parseExpressionList]. repeat grows_more.
Qed.

Ltac grows_step ::=
  first
    [ apply grows_ret
    | apply grows_outOfFuel
    | apply grows_current
    | apply grows_previous
    | apply grows_isAtEnd
    | apply grows_checkKeyword
    | apply grows_checkType
    | apply grows_advance
    | apply grows_error
    | apply grows_consumeNewlines
    | apply grows_synchronizeLine
    | apply grows_matchKeyword
    | apply grows_matchType
    | apply grows_expectKeyword
    | apply grows_expectType
    | apply grows_peekBinaryOperator
    | apply grows_parseIdentifier
    | apply (proj1 (grows_expressions _))
    | apply (proj2 (proj2 (proj2 (proj2 (proj2 (grows_expressions _))))))
    | assumption
    | match goal with
      | H : forall _, grows _ |- _ => apply H
      | H : forall _ _, grows _ |- _ => apply H
      end
    | apply grows_bind; [|intros]
    | match goal with
      | |- grows (let '(_, _) := ?x in _) => destruct x
      | |- grows (if ?c then _ else _) => destruct c
      | |- grows (match ?x with _ => _ end) => destruct x
      end ].

Lemma grows_parseSignedIntegerLiteral c :
  grows (parseSignedIntegerLiteral tokens c).
Proof. unfold parseSignedIntegerLiteral. repeat grows_step. Qed.

Lemma grows_parseArrayDimension : grows (parseArrayDimension tokens).
Proof.
  unfold parseArrayDimension.
  repeat first [apply grows_parseSignedIntegerLiteral | grows_step].
Qed.

Lemma grows_parseTypeNode : grows (parseTypeNode tokens).
Proof.
  unfold parseTypeNode.
  repeat first [apply grows_parseArrayDimension | grows_step].
Qed.

Lemma grows_parseParameters fuel : grows (parseParameters tokens fuel).
Proof.
  induction fuel as [|f IH]; cbn [parseParameters];
    repeat first [apply grows_parseTypeNode | grows_step].
Qed.

Lemma grows_parseParameterList fuel : grows (parseParameterList tokens fuel).
Proof.
  unfold parseParameterList.
  repeat first [apply grows_parseParameters | grows_step].
Qed.

Lemma grows_parseAssignableTarget fuel :
  grows (parseAssignableTarget tokens fuel).
Proof. unfold parseAssignableTarget. repeat grows_step. Qed.

Lemma grows_parseDeclareStatement : grows (parseDeclareStatement tokens).
Proof.
  unfold parseDeclareStatement.
  repeat first [apply grows_parseTypeNode | grows_step].
Qed.

Lemma grows_parseConstantStatement fuel :
  grows (parseConstantStatement tokens fuel).
Proof. unfold parseConstantStatement. repeat grows_step. Qed.

Lemma grows_parseInputStatement fuel : grows (parseInputStatement tokens fuel).
Proof.
  unfold parseInputStatement.
  repeat first [apply grows_parseAssignableTarget | grows_step].
Qed.

Lemma grows_parseOutputStatement fuel : grows (parseOutputStatement tokens fuel).
Proof. unfold parseOutputStatement. repeat grows_step. Qed.

Lemma grows_parseCallStatement fuel : grows (parseCallStatement tokens fuel).
Proof. unfold parseCallStatement. repeat grows_step. Qed.

Lemma grows_parseReturnStatement fuel : grows (parseReturnStatement tokens fuel).
Proof. unfold parseReturnStatement. repeat grows_step. Qed.

Lemma grows_parseOpenFileStatement fuel :
  grows (parseOpenFileStatement tokens fuel).
Proof. unfold parseOpenFileStatement. repeat grows_step. Qed.

Lemma grows_parseReadFileStatement fuel :
  grows (parseReadFileStatement tokens fuel).
Proof.
  unfold parseReadFileStatement.
  repeat first [apply grows_parseAssignableTarget | grows_step].
Qed.

Lemma grows_parseWriteFileStatement fuel :
  grows (parseWriteFileStatement tokens fuel).
Proof. unfold parseWriteFileStatement. repeat grows_step. Qed.

Lemma grows_parseCloseFileStatement fuel :
  grows (parseCloseFileStatement tokens fuel).
Proof. unfold parseCloseFileStatement. repeat grows_step. Qed.

Lemma grows_parseAssignmentStatement fuel :
  grows (parseAssignmentStatement tokens fuel).
Proof.
  unfold parseAssignmentStatement.
  repeat first [apply grows_parseAssignableTarget | grows_step].
Qed.

Ltac grows_statement :=
  first
    [ apply grows_parseDeclareStatement
    | apply grows_parseConstantStatement
    | apply grows_parseInputStatement
    | apply grows_parseOutputStatement
    | apply grows_parseCallStatement
    | apply grows_parseReturnStatement
    | apply grows_parseOpenFileStatement
    | apply grows_parseReadFileStatement
    | apply grows_parseWriteFileStatement
    | apply grows_parseCloseFileStatement
    | apply grows_parseAssignmentStatement
    | apply grows_parseParameterList
    | grows_step ].

Lemma grows_statements (fuel : nat) :
  (forall stop, grows (parseStatements tokens fuel stop)) /\
  (forall stop, grows (parseStatementsLoop tokens fuel stop)) /\
  grows (parseStatement tokens fuel) /\
  grows (parseIfStatement tokens fuel) /\
  grows (parseCaseStatement tokens fuel) /\
  grows (parseCaseClauses tokens fuel) /\
  grows (parseStatementAfterCaseColon tokens fuel) /\
  grows (parseForStatement tokens fuel) /\
  grows (parseRepeatStatement tokens fuel) /\
  grows (parseWhileStatement tokens fuel) /\
  grows (parseProcedureDefinition tokens fuel) /\
  grows (parseFunctionDefinition tokens fuel).
Proof.
  induction fuel as [|f (IH1 & IH2 & IH3 & IH4 & IH5 & IH6 & IH7 & IH8 & IH9
                         & IH10 & IH11 & IH12)].
  - repeat split; intros; apply grows_outOfFuel.
  - repeat split; intros.
    + cbn [parseStatements]. repeat grows_statement.
    + cbn [parseStatementsLoop]. repeat grows_statement.
    + cbn [parseStatement]. repeat grows_statement.
    + cbn [parseIfStatement]. repeat grows_statement.
    + cbn [parseCaseStatement]. repeat grows_statement.
    + cbn [parseCaseClauses]. repeat grows_statement.
    + cbn [parseStatementAfterCaseColon]. repeat grows_statement.
    + cbn [parseForStatement]. repeat grows_statement.
    + cbn [parseRepeatStatement]. repeat grows_statement.
    + cbn [parseWhileStatement]. repeat grows_statement.
    + cbn [parseProcedureDefinition]. repeat grows_statement.
    + cbn [parseFunctionDefinition]. repeat grows_statement.
Qed.

Lemma grows_parseProgram fuel : grows (parseProgram tokens fuel).
Proof.
  unfold parseProgram.
  repeat first [apply (proj1 (grows_statements fuel)) | grows_step].
Qed.

End WithTokens.

(** The diagnostics of [parseSource]: those of the tokenizer, in their
    order, followed by those of the parser; all of them errors. *)
Lemma parseSourceWith_diagnostics fuel source ast diagnostics :
  parseSourceWith fuel source = Some (ast, diagnostics) ->
  exists tokens lexical syntactic,
    tokenize source = Some (tokens, lexical) /\
    diagnostics = lexical ++ syntactic /\
    errorsOnly diagnostics.
Proof.
  unfold parseSourceWith.
  destruct (tokenize source) as [[tokens lexical]|] eqn:Ht; [|discriminate].
  destruct (parseProgram tokens fuel _) as [[a st]|] eqn:Hp; [|discriminate].
  intros H. injection H as <- <-.
  apply grows_parseProgram in Hp as (added & Hadd & Herr). simpl in Hadd.
  exists tokens, lexical, added. split; [reflexivity|].
  split; [exact Hadd|]. rewrite Hadd. apply Forall_app. split; [|exact Herr].
  apply TokenizerOutput.tokenize_output in Ht
    as (body & eof & _ & _ & _ & _ & He).
  exact He.
Qed.

(** X4.  Whenever [parseSource] returns, with whatever budget of
    nested calls, its diagnostics are those of the tokenizer, unchanged
    and in their order, followed by those the parser adds, and every
    one of them has severity error: the parser drops no lexical
    diagnostic, whatever recovery it performs. *)
Theorem parseSource_keeps_lexical_diagnostics :
  forall fuel source ast diagnostics,
    parseSourceWith fuel source = Some (ast, diagnostics) ->
    exists tokens lexical syntactic,
      tokenize source = Some (tokens, lexical) /\
      diagnostics = lexical ++ syntactic /\
      errorsOnly lexical /\
      errorsOnly syntactic.
Proof.
  intros fuel source ast diagnostics Hp.
  apply parseSourceWith_diagnostics in Hp
    as (tokens & lexical & syntactic & Ht & -> & Herr).
  exists tokens, lexical, syntactic.
  split; [exact Ht|]. split; [reflexivity|].
  unfold errorsOnly in *. apply Forall_app in Herr. exact Herr.
Qed.

Lemma parseSource_keeps_lexical_diagnostics_witness :
  exists ast diagnostics,
    parseSourceWith 64 (js "x <- ?") = Some (ast, diagnostics) /\
    map code diagnostics = [js "SYN002"; js "SYN060"] /\
    exists tokens lexical syntactic,
      tokenize (js "x <- ?") = Some (tokens, lexical) /\
      diagnostics = lexical ++ syntactic /\
      errorsOnly lexical /\
      errorsOnly syntactic.
Proof.
  eexists. eexists. split; [vm_compute; reflexivity|].
  split; [reflexivity|].
  eapply (parseSource_keeps_lexical_diagnostics 64 (js "x <- ?")).
  vm_compute. reflexivity.
Defined.

End ParserDiagnostics.

(** ** Induction over the syntax tree *)

Section ExpressionInduction.

Variable P : ExpressionNode -> Prop.
Hypothesis onLiteral : forall v t s, P (ELiteral v t s).
Hypothesis onIdentifier : forall n s, P (EIdentifier n s).
Hypothesis onUnary : forall o e s, P e -> P (EUnary o e s).
Hypothesis onBinary : forall o l r s, P l -> P r -> P (EBinary o l r s).
Hypothesis onCall : forall n args s, Forall P args -> P (ECall n args s).
Hypothesis onArrayAccess :
  forall n indices s, Forall P indices -> P (EArrayAccess n indices s).

Lemma ExpressionNode_induction : forall e, P e.
Proof.
  fix IH 1. intros [v t s|n s|o e s|o l r s|n args s|n indices s].
  - apply onLiteral.
  - apply onIdentifier.
  - apply onUnary, IH.
  - apply onBinary; apply IH.
  - apply onCall. induction args as [|a args IHargs]; constructor;
      [apply IH|exact IHargs].
  - apply onArrayAccess. induction indices as [|a indices IHi]; constructor;
      [apply IH|exact IHi].
Qed.

End ExpressionInduction.

Section StatementInduction.

Variable P : StatementNode -> Prop.
Hypothesis onDeclare : forall i t s, P (SDeclare i t s).
Hypothesis onConstant : forall i v s, P (SConstant i v s).
Hypothesis onAssignment : forall t v s, P (SAssignment t v s).
Hypothesis onInput : forall t s, P (SInput t s).
Hypothesis onOutput : forall v s, P (SOutput v s).
Hypothesis onIf :
  forall c t e s, Forall P t -> Forall P e -> P (SIf c t e s).
Hypothesis onCase :
  forall e clauses s,
    Forall (fun clause : option ExpressionNode * StatementNode * SourceSpan =>
              P (snd (fst clause))) clauses ->
    P (SCase e clauses s).
Hypothesis onFor :
  forall i a b st body s, Forall P body -> P (SFor i a b st body s).
Hypothesis onRepeat : forall body c s, Forall P body -> P (SRepeat body c s).
Hypothesis onWhile : forall c body s, Forall P body -> P (SWhile c body s).
Hypothesis onProcedure :
  forall n ps body s, Forall P body -> P (SProcedureDefinition n ps body s).
Hypothesis onFunction :
  forall n ps t body s, Forall P body -> P (SFunctionDefinition n ps t body s).
Hypothesis onCallStatement : forall n a s, P (SCallStatement n a s).
Hypothesis onReturn : forall v s, P (SReturn v s).
Hypothesis onOpenFile : forall f m s, P (SOpenFile f m s).
Hypothesis onReadFile : forall f t s, P (SReadFile f t s).
Hypothesis onWriteFile : forall f v s, P (SWriteFile f v s).
Hypothesis onCloseFile : forall f s, P (SCloseFile f s).

Lemma StatementNode_induction : forall statement, P statement.
Proof.
  fix IH 1.
  assert (forall body, Forall P body) as Hbody.
  { induction body as [|b body IHbody]; constructor; [apply IH|exact IHbody]. }
  intros [i t s|i v s|t v s|t s|v s|c t e s|e clauses s|i a b st body s
         |body c s|c body s|n ps body s|n ps t body s|n a s|v s|f m s|f t s
         |f v s|f s].
  - apply onDeclare.
  - apply onConstant.
  - apply onAssignment.
  - apply onInput.
  - apply onOutput.
  - apply onIf; apply Hbody.
  - apply onCase.
    induction clauses as [|[[v st] sp] clauses IHc]; constructor;
      [apply IH|exact IHc].
  - apply onFor, Hbody.
  - apply onRepeat, Hbody.
  - apply onWhile, Hbody.
  - apply onProcedure, Hbody.
  - apply onFunction, Hbody.
  - apply onCallStatement.
  - apply onReturn.
  - apply onOpenFile.
  - apply onReadFile.
  - apply onWriteFile.
  - apply onCloseFile.
Qed.

End StatementInduction.

(** ** The analyzer: diagnostics and exceptions *)

Module AnalyzerFacts.
Import Semantics.

Lemma extends_refl (st : AState) : extends st st.
Proof. exists []. rewrite app_nil_r. split; [reflexivity|constructor]. Qed.

Lemma extends_trans (a b c : AState) : extends a b -> extends b c -> extends a c.
Proof.
  intros (x & Hx & Fx) (y & Hy & Fy). exists (x ++ y).
  rewrite Hy, Hx, app_assoc. split; [reflexivity|].
  apply Forall_app. split; assumption.
Qed.

Section Keeps.

Variable safe : Prop.

Lemma keeps_ret {A} (a : A) : keeps safe (ret a).
Proof. intros st. apply extends_refl. Qed.

Lemma keeps_bind {A B} (m : M A) (k : A -> M B) :
  keeps safe m -> (forall a, keeps safe (k a)) -> keeps safe (bind m k).
Proof.
  intros Hm Hk st. unfold bind. specialize (Hm st).
  destruct (m st) as [[a st1]|e]; [|exact Hm].
  specialize (Hk a st1). destruct (k a st1) as [[b st2]|e]; [|exact Hk].
  eapply extends_trans; eassumption.
Qed.

Lemma keeps_throw {A} (e : JsError) : ~ safe -> keeps safe (@throw A e).
Proof. intros H st. exact H. Qed.

Lemma keeps_pushError (span : SourceSpan) (c : string) :
  keeps safe (pushError span c).
Proof.
  intros st. simpl. eexists. split; [reflexivity|].
  constructor; [reflexivity|constructor].
Qed.

Lemma keeps_setSymbolType (name : jsstring) (t : StaticType) :
  keeps safe (setSymbolType name t).
Proof. intros st. exists []. simpl. rewrite app_nil_r. split; [reflexivity|constructor]. Qed.

Lemma keeps_setProcedureSignature key sig :
  keeps safe (setProcedureSignature key sig).
Proof. intros st. exists []. simpl. rewrite app_nil_r. split; [reflexivity|constructor]. Qed.

Lemma keeps_setFunctionSignature key sig :
  keeps safe (setFunctionSignature key sig).
Proof. intros st. exists []. simpl. rewrite app_nil_r. split; [reflexivity|constructor]. Qed.

Lemma keeps_getFunctionSignature key : keeps safe (getFunctionSignature key).
Proof. intros st. apply extends_refl. Qed.

Lemma keeps_getProcedureSignature key : keeps safe (getProcedureSignature key).
Proof. intros st. apply extends_refl. Qed.

End Keeps.

(** A property read is inherited only under a name of
    [Object.prototype]. *)
Lemma getProperty_Inherited {V} (o : gmap jsstring V) (k : jsstring) :
  getProperty o k = Inherited -> includes objectPrototypeKeys k = true.
Proof.
  unfold getProperty.
  destruct (streq k (js "__proto__")) eqn:E.
  - intros _. apply streq_true in E. subst. reflexivity.
  - destruct (o !! k); [discriminate|].
    destruct (includes objectPrototypeKeys k); [reflexivity|discriminate].
Qed.

(** Uppercased names hold no lowercase letter, and every name of
    [Object.prototype] holds one. *)
Lemma toUpperCase_no_lower (s : jsstring) :
  existsb isLowerUnit (toUpperCase s) = false.
Proof.
  induction s as [|c s IH]; simpl; [reflexivity|]. rewrite IH, orb_false_r.
  destruct (isLowerUnit c) eqn:E; [|exact E].
  unfold isLowerUnit in *.
  apply andb_prop in E as [H1 H2].
  apply N.leb_le in H1. apply N.leb_le in H2.
  apply andb_false_iff. left. apply N.leb_gt. lia.
Qed.

Lemma toUpperCase_not_prototype (s : jsstring) :
  includes objectPrototypeKeys (toUpperCase s) = false.
Proof.
  destruct (includes objectPrototypeKeys (toUpperCase s)) eqn:E; [|reflexivity].
  apply includes_In in E.
  assert (forallb (existsb isLowerUnit) objectPrototypeKeys = true) as Hall
    by reflexivity.
  rewrite forallb_forall in Hall. apply Hall in E.
  rewrite toUpperCase_no_lower in E. discriminate.
Qed.

Lemma avoidPrototype_cons name names :
  avoidPrototype (name :: names) = true ->
  includes objectPrototypeKeys (toLowerCase name) = false /\
  avoidPrototype names = true.
Proof.
  unfold avoidPrototype. simpl. intros H. apply andb_prop in H as [H1 H2].
  split; [apply negb_true_iff; exact H1|exact H2].
Qed.

Lemma avoidPrototype_app a b :
  avoidPrototype (a ++ b) = true <->
  avoidPrototype a = true /\ avoidPrototype b = true.
Proof.
  unfold avoidPrototype. rewrite forallb_app. apply andb_true_iff.
Qed.

Section Analyzer.

Variable safe : Prop.

Ltac keeps_step :=
  first
    [ apply keeps_ret
    | apply keeps_pushError
    | apply keeps_setSymbolType
    | apply keeps_setProcedureSignature
    | apply keeps_setFunctionSignature
    | apply keeps_getFunctionSignature
    | apply keeps_getProcedureSignature
    | assumption
    | apply keeps_bind; [|intros]
    | match goal with
      | |- keeps _ (let '(_, _) := ?x in _) => destruct x
      | |- keeps _ (if ?c then _ else _) => destruct c
      | |- keeps _ (match ?x with _ => _ end) => destruct x
      end ].

Lemma safe_all (es : list ExpressionNode) :
  (safe -> avoidPrototype (flat_map expressionCalls es) = true) ->
  Forall (safeExpression safe) es.
Proof.
  induction es as [|e es IH]; intros H; constructor.
  - intros Hs. specialize (H Hs). simpl in H.
    apply avoidPrototype_app in H. tauto.
  - apply IH. intros Hs. specialize (H Hs). simpl in H.
    apply avoidPrototype_app in H. tauto.
Qed.

Lemma keeps_checkArguments (infer : ExpressionNode -> M StaticType)
    (args : list ExpressionNode) :
  Forall (fun a => keeps safe (infer a)) args ->
  forall expected, keeps safe (checkArguments infer args expected).
Proof.
  induction 1 as [|a args Ha _ IH]; intros [|exp expected]; simpl;
    repeat keeps_step.
  apply IH.
Qed.

Lemma keeps_checkIndices (infer : ExpressionNode -> M StaticType)
    (indices : list ExpressionNode) :
  Forall (fun a => keeps safe (infer a)) indices ->
  keeps safe (checkIndices infer indices).
Proof.
  induction 1 as [|a indices Ha _ IH]; simpl; repeat keeps_step.
Qed.

Lemma keeps_validateCallArgumentsWith (infer : ExpressionNode -> M StaticType)
    (args : list ExpressionNode) (expected : option (list StaticType))
    (span : SourceSpan) :
  Forall (fun a => keeps safe (infer a)) args ->
  (expected = None -> ~ safe) ->
  keeps safe (validateCallArgumentsWith infer args expected span).
Proof.
  intros Hargs Hnone. unfold validateCallArgumentsWith.
  destruct expected as [expected|]; [|apply keeps_throw; auto].
  destruct (negb _); [apply keeps_pushError|].
  apply keeps_checkArguments. exact Hargs.
Qed.

Lemma keeps_resolveArrayAccessTypeWith (infer : ExpressionNode -> M StaticType)
    name indices span scope :
  Forall (fun a => keeps safe (infer a)) indices ->
  keeps safe (resolveArrayAccessTypeWith infer name indices span scope).
Proof.
  intros H. unfold resolveArrayAccessTypeWith.
  pose proof (keeps_checkIndices infer indices H).
  repeat keeps_step.
Qed.

Lemma keeps_call (infer : ExpressionNode -> M StaticType)
    (args : list ExpressionNode) (span : SourceSpan)
    (signature : Property FunctionSignature) :
  Forall (fun a => keeps safe (infer a)) args ->
  (signature = Inherited -> ~ safe) ->
  keeps safe
    (if negb (truthy signature) then
       bind (pushError span "SEM024") (fun _ => ret UNKNOWN)
     else
       bind (validateCallArgumentsWith infer args (functionParams signature)
                                       span)
            (fun _ => ret (functionReturnType signature))).
Proof.
  intros Hargs Hin.
  destruct signature; cbn [negb truthy].
  - apply keeps_bind; [|intros; apply keeps_ret].
    apply keeps_validateCallArgumentsWith; [exact Hargs|discriminate].
  - apply keeps_bind; [|intros; apply keeps_ret].
    apply keeps_validateCallArgumentsWith; [exact Hargs|auto].
  - repeat keeps_step.
Qed.

Lemma keeps_inferExpressionType :
  forall e scope, safeExpression safe e -> keeps safe (inferExpressionType e scope).
Proof.
  intros e scope. revert e.
  apply (ExpressionNode_induction
           (fun e => safeExpression safe e ->
                     keeps safe (inferExpressionType e scope))).
  - intros v t s _. apply keeps_ret.
  - intros n s _. cbn [inferExpressionType]. repeat keeps_step.
  - intros o e s IH Hs. cbn [inferExpressionType].
    assert (keeps safe (inferExpressionType e scope)) by (apply IH, Hs).
    repeat keeps_step.
  - intros o l r s IHl IHr Hs. cbn [inferExpressionType].
    assert (keeps safe (inferExpressionType l scope)).
    { apply IHl. intros H. specialize (Hs H). simpl in Hs.
      apply avoidPrototype_app in Hs. tauto. }
    assert (keeps safe (inferExpressionType r scope)).
    { apply IHr. intros H'. specialize (Hs H'). simpl in Hs.
      apply avoidPrototype_app in Hs. tauto. }
    repeat keeps_step.
  - intros n args s IH Hs. cbn [inferExpressionType].
    assert (Forall (fun a => keeps safe (inferExpressionType a scope)) args)
      as Hargs.
    { assert (Forall (safeExpression safe) args) as Hsafe.
      { apply safe_all. intros H. specialize (Hs H). simpl in Hs.
        apply avoidPrototype_cons in Hs. tauto. }
      clear Hs. induction IH as [|a args Ha _ IHargs]; constructor;
        inversion Hsafe; subst; auto. }
    destruct (truthy (getProperty BUILTIN_FUNCTIONS (toUpperCase n))) eqn:Hb.
    + apply keeps_bind; [|intros; apply keeps_ret].
      apply keeps_validateCallArgumentsWith; [exact Hargs|].
      intros Hnone.
      destruct (getProperty BUILTIN_FUNCTIONS (toUpperCase n)) eqn:Hp;
        try discriminate.
      apply getProperty_Inherited in Hp.
      rewrite toUpperCase_not_prototype in Hp. discriminate.
    + intros st.
      apply (keeps_call (fun e => inferExpressionType e scope) args s
               (getProperty (functionSignatures st) (toLowerCase n)) Hargs).
      intros Hp H. specialize (Hs H). simpl in Hs.
      apply avoidPrototype_cons in Hs as [Hs _].
      apply getProperty_Inherited in Hp. congruence.
  - intros n indices s IH Hs. cbn [inferExpressionType].
    apply keeps_resolveArrayAccessTypeWith.
    assert (Forall (safeExpression safe) indices) as Hsafe.
    { apply safe_all. exact Hs. }
    clear Hs. induction IH as [|a indices Ha _ IHi]; constructor;
      inversion Hsafe; subst; auto.
Qed.

End Analyzer.

Section Statements.

Variable safe : Prop.

Lemma safe_app_l a b :
  (safe -> avoidPrototype (a ++ b) = true) -> safe -> avoidPrototype a = true.
Proof. intros H Hs. apply avoidPrototype_app in H; tauto. Qed.

Lemma safe_app_r a b :
  (safe -> avoidPrototype (a ++ b) = true) -> safe -> avoidPrototype b = true.
Proof. intros H Hs. apply avoidPrototype_app in H; tauto. Qed.

Lemma safe_cons_r n b :
  (safe -> avoidPrototype (n :: b) = true) -> safe -> avoidPrototype b = true.
Proof. intros H Hs. apply avoidPrototype_cons in H; tauto. Qed.

Lemma safe_nil : safe -> avoidPrototype [] = true.
Proof. reflexivity. Qed.

Ltac safe_parts :=
  repeat match goal with
         | H : safe -> avoidPrototype (?a ++ ?b) = true |- _ =>
             pose proof (safe_app_l a b H);
             pose proof (safe_app_r a b H);
             clear H
         end.

Ltac keeps_expr :=
  first
    [ apply keeps_inferExpressionType; unfold safeExpression; assumption
    | apply keeps_inferExpressionType; unfold safeExpression; exact safe_nil ].

Ltac keeps_step :=
  first
    [ apply keeps_ret
    | apply keeps_pushError
    | apply keeps_setSymbolType
    | apply keeps_setProcedureSignature
    | apply keeps_setFunctionSignature
    | apply keeps_getFunctionSignature
    | apply keeps_getProcedureSignature
    | assumption
    | keeps_expr
    | apply keeps_bind; [|intros]
    | match goal with
      | |- keeps _ (let '(_, _) := ?x in _) => destruct x
      | |- keeps _ (if ?c then _ else _) => destruct c
      | |- keeps _ (match ?x with _ => _ end) => destruct x
      end ].

Lemma keeps_all (scope : option Scope) (es : list ExpressionNode) :
  (safe -> avoidPrototype (flat_map expressionCalls es) = true) ->
  Forall (fun a => keeps safe (inferExpressionType a scope)) es.
Proof.
  intros H. apply safe_all in H.
  induction H as [|e es He _ IH]; constructor; [|exact IH].
  apply keeps_inferExpressionType. exact He.
Qed.

Lemma keeps_resolveAssignableType target scope :
  (safe -> avoidPrototype (expressionCalls target) = true) ->
  keeps safe (resolveAssignableType target scope).
Proof.
  intros H. destruct target; cbn [resolveAssignableType]; repeat keeps_step.
  unfold resolveArrayAccessType. apply keeps_resolveArrayAccessTypeWith.
  apply keeps_all. exact H.
Qed.

Lemma keeps_literalFileName e scope :
  (safe -> avoidPrototype (expressionCalls e) = true) ->
  keeps safe (literalFileName e scope).
Proof.
  intros H. unfold literalFileName.
  destruct e as [[| |]| | | | |]; try destruct literalType;
    repeat keeps_step.
Qed.

Lemma keeps_defineParams params :
  forall scope, keeps safe (defineParams params scope).
Proof.
  induction params as [|p params IH]; intros scope; simpl;
    repeat keeps_step.
  apply IH.
Qed.

Lemma keeps_checkForBounds exprs scope :
  (safe -> avoidPrototype (flat_map expressionCalls exprs) = true) ->
  keeps safe (checkForBounds exprs scope).
Proof.
  induction exprs as [|e exprs IH]; intros H; simpl in *; safe_parts;
    repeat keeps_step.
  apply IH. assumption.
Qed.

Lemma keeps_inferAll values scope :
  (safe -> avoidPrototype (flat_map expressionCalls values) = true) ->
  keeps safe (inferAll values scope).
Proof.
  induction values as [|e values IH]; intros H; simpl in *; safe_parts;
    repeat keeps_step.
  apply IH. assumption.
Qed.

Lemma keeps_validateCallArguments args (signature : Property ProcedureSignature)
    span scope :
  (safe -> avoidPrototype (flat_map expressionCalls args) = true) ->
  (signature = Inherited -> ~ safe) ->
  truthy signature = true ->
  keeps safe (validateCallArguments args (procedureParams signature) span scope).
Proof.
  intros Hargs Hin Ht. unfold validateCallArguments.
  apply keeps_validateCallArgumentsWith; [apply keeps_all; exact Hargs|].
  destruct signature; simpl; auto; discriminate.
Qed.

Lemma keeps_analyzeStatementsFrom (body : list StatementNode) :
  Forall (keepsStatement safe) body ->
  (safe -> avoidPrototype (flat_map statementCalls body) = true) ->
  forall sawReturn scope current openFiles,
    keeps safe (analyzeStatementsFrom analyzeStatement body sawReturn scope
                                      current openFiles).
Proof.
  induction 1 as [|s body Hs _ IH]; intros Hsafe sawReturn scope current
                                            openFiles;
    cbn [analyzeStatementsFrom]; simpl in Hsafe; safe_parts.
  - apply keeps_ret.
  - apply keeps_bind; [apply Hs; assumption|].
    intros [[isReturn scope'] openFiles']. apply IH. assumption.
Qed.

Lemma keeps_analyzeClauses
    (clauses : list (option ExpressionNode * StatementNode * SourceSpan)) :
  Forall (fun clause => keepsStatement safe (snd (fst clause))) clauses ->
  (safe ->
   avoidPrototype
     (flat_map (fun clause : option ExpressionNode * StatementNode * SourceSpan =>
                  match fst (fst clause) with
                  | Some v => expressionCalls v
                  | None => []
                  end ++ statementCalls (snd (fst clause)))
               clauses) = true) ->
  forall scope current openFiles,
    keeps safe (analyzeClauses analyzeStatement clauses scope current openFiles).
Proof.
  induction 1 as [|[[value s] sp] clauses Hs _ IH]; intros Hsafe scope current
                                                           openFiles;
    cbn [analyzeClauses]; simpl in Hsafe; safe_parts.
  - apply keeps_ret.
  - apply keeps_bind; [destruct value; repeat keeps_step|intros _].
    apply keeps_bind; [|intros _; apply IH; assumption].
    cbn [analyzeStatementsFrom].
    apply keeps_bind; [apply Hs; assumption|].
    intros [[isReturn scope'] openFiles']. apply keeps_ret.
Qed.

Lemma keeps_analyzeStatement : forall s, keepsStatement safe s.
Proof.
  apply StatementNode_induction; unfold keepsStatement, safeStatement;
    intros; cbn [analyzeStatement]; cbn [statementCalls] in *; safe_parts.
  - repeat keeps_step.
  - repeat keeps_step.
  - apply keeps_bind; [apply keeps_resolveAssignableType; assumption|intros].
    repeat keeps_step.
  - apply keeps_bind; [apply keeps_resolveAssignableType; assumption|intros].
    repeat keeps_step.
  - apply keeps_bind; [apply keeps_inferAll; assumption|intros].
    repeat keeps_step.
  - repeat (apply keeps_bind; [|intros]); try apply keeps_ret;
      try (apply keeps_analyzeStatementsFrom; assumption);
      repeat keeps_step.
  - repeat (apply keeps_bind; [|intros]); try apply keeps_ret;
      try (apply keeps_analyzeClauses; assumption);
      repeat keeps_step.
  - repeat (apply keeps_bind; [|intros]); try apply keeps_ret;
      try (apply keeps_analyzeStatementsFrom; assumption);
      try (apply keeps_checkForBounds; destruct st; simpl;
           rewrite ?app_nil_r; intros Hsafe;
           repeat (apply avoidPrototype_app; split); auto);
      repeat keeps_step.
  - repeat (apply keeps_bind; [|intros]); try apply keeps_ret;
      try (apply keeps_analyzeStatementsFrom; assumption);
      repeat keeps_step.
  - repeat (apply keeps_bind; [|intros]); try apply keeps_ret;
      try (apply keeps_analyzeStatementsFrom; assumption);
      repeat keeps_step.
  - repeat (apply keeps_bind; [|intros]); try apply keeps_ret;
      try (apply keeps_analyzeStatementsFrom; assumption);
      try apply keeps_defineParams;
      repeat keeps_step.
  - repeat (apply keeps_bind; [|intros]); try apply keeps_ret;
      try (apply keeps_analyzeStatementsFrom; assumption);
      try apply keeps_defineParams;
      repeat keeps_step.
  - intros st0. unfold bind at 1. unfold getProcedureSignature at 1.
    destruct (truthy (getProperty (procedureSignatures st0) (toLowerCase n)))
      eqn:Ht; cbn [negb].
    + apply (keeps_bind safe _ _
               (keeps_validateCallArguments a
                  (getProperty (procedureSignatures st0) (toLowerCase n)) s
                  scope (safe_cons_r _ _ H)
                  (fun Hp Hs =>
                     eq_ind true (fun b => b = false -> False)
                       (fun E => diff_true_false E) _
                       (eq_sym (getProperty_Inherited _ _ Hp))
                       (proj1 (avoidPrototype_cons _ _ (H Hs))))
                  Ht)
               (fun _ => keeps_ret safe _)).
    + apply (keeps_bind safe _ _ (keeps_pushError safe s "SEM012")
               (fun _ => keeps_ret safe _)).
  - repeat keeps_step.
  - apply keeps_bind; [apply keeps_literalFileName; assumption|intros].
    repeat keeps_step.
  - apply keeps_bind; [apply keeps_literalFileName; assumption|intros].
    apply keeps_bind; [repeat keeps_step|intros].
    apply keeps_bind; [repeat keeps_step|intros].
    apply keeps_bind; [apply keeps_resolveAssignableType; assumption|intros].
    apply keeps_ret.
  - apply keeps_bind; [apply keeps_literalFileName; assumption|intros].
    repeat keeps_step.
  - apply keeps_bind; [apply keeps_literalFileName; assumption|intros].
    repeat keeps_step.
Qed.

End Statements.

Lemma keeps_predeclareRoutine safe statement scope :
  keeps safe (predeclareRoutine statement scope).
Proof.
  destruct statement; cbn [predeclareRoutine]; try apply keeps_ret;
    (apply keeps_bind; [apply keeps_getProcedureSignature
                       |intros; apply keeps_bind;
                        [apply keeps_getFunctionSignature|intros]]) ||
    (apply keeps_bind; [apply keeps_getFunctionSignature
                       |intros; apply keeps_bind;
                        [apply keeps_getProcedureSignature|intros]]);
    destruct (_ || _);
    (apply keeps_bind; [|intros; apply keeps_ret]);
    first [apply keeps_pushError | apply keeps_setProcedureSignature
          | apply keeps_setFunctionSignature].
Qed.

Lemma keeps_predeclareRoutines safe statements :
  forall scope, keeps safe (predeclareRoutines statements scope).
Proof.
  induction statements as [|s statements IH]; intros scope; simpl.
  - apply keeps_ret.
  - apply keeps_bind; [apply keeps_predeclareRoutine|intros; apply IH].
Qed.

Lemma keeps_analyze safe program :
  (safe -> avoidPrototype (programCalls program) = true) ->
  keeps safe (analyze program).
Proof.
  intros Hsafe. unfold analyze.
  apply keeps_bind; [apply keeps_predeclareRoutines|intros scope].
  apply keeps_bind.
  - unfold analyzeStatements. apply keeps_analyzeStatementsFrom; [|exact Hsafe].
    apply Forall_forall. intros s _. apply keeps_analyzeStatement.
  - intros _ st. apply extends_refl.
Qed.

Lemma analyzeProgram_errors program semanticResult :
  analyzeProgram program = Normal semanticResult ->
  errorsOnly (srDiagnostics semanticResult).
Proof.
  pose proof (keeps_analyze False program (fun H => False_ind _ H) initialState)
    as H.
  unfold analyzeProgram.
  destruct (analyze program initialState) as [[r st]|e] eqn:Ha; [|discriminate].
  intros E. injection E as <-.
  destruct H as (added & Hadd & Herr).
  revert Ha. unfold analyze, bind.
  destruct (predeclareRoutines _ _ _) as [[g st1]|]; [|discriminate].
  destruct (analyzeStatements _ _ _ _ _) as [[x st2]|]; [|discriminate].
  intros E. injection E as <- <-. simpl.
  rewrite Hadd. exact Herr.
Qed.

(** X5.  The analyzer throws a [TypeError] only on a program that
    calls, by CALL or in an expression at any depth, a routine whose
    lowercased name is a property that JavaScript objects inherit
    (among words, [constructor] in any letter case): the reads of the
    signature tables under such a name are its only source. *)
Theorem analyzeProgram_TypeError_only_on_prototype_name :
  forall program,
    analyzeProgram program = Throw TypeError ->
    avoidPrototype (programCalls program) = false.
Proof.
  intros program Hthrow.
  destruct (avoidPrototype (programCalls program)) eqn:Hsafe; [|reflexivity].
  pose proof (keeps_analyze True program (fun _ => Hsafe) initialState) as H.
  unfold analyzeProgram in Hthrow.
  destruct (analyze program initialState) as [[r st]|e]; [discriminate|].
  exfalso. apply H. exact I.
Qed.

Lemma analyzeProgram_TypeError_only_on_prototype_name_witness :
  analyzeProgram
    (mkProgram [SCallStatement (js "Constructor") [] (mkSpan 1 1 1 18)]
               (mkSpan 1 1 1 18))
  = Throw TypeError /\
  avoidPrototype
    (programCalls
       (mkProgram [SCallStatement (js "Constructor") [] (mkSpan 1 1 1 18)]
                  (mkSpan 1 1 1 18)))
  = false.
Proof.
  split; [vm_compute; reflexivity|].
  apply (analyzeProgram_TypeError_only_on_prototype_name
           (mkProgram [SCallStatement (js "Constructor") [] (mkSpan 1 1 1 18)]
                      (mkSpan 1 1 1 18))).
  vm_compute. reflexivity.
Defined.

(** *** Routines declared ahead *)

Lemma truthy_setProperty {V} (o : gmap jsstring V) (k k' : jsstring) (v : V) :
  truthy (getProperty o k') = true ->
  truthy (getProperty (setProperty o k v) k') = true.
Proof.
  unfold getProperty, setProperty.
  destruct (streq k' (js "__proto__")); [reflexivity|].
  destruct (streq k (js "__proto__")); [tauto|].
  destruct (decide (k = k')) as [->|Hne].
  - rewrite lookup_insert_eq. reflexivity.
  - rewrite lookup_insert_ne by exact Hne. tauto.
Qed.

Lemma truthy_setProperty_same {V} (o : gmap jsstring V) (k : jsstring) (v : V) :
  truthy (getProperty (setProperty o k v) k) = true.
Proof.
  unfold getProperty, setProperty.
  destruct (streq k (js "__proto__")) eqn:E; [reflexivity|].
  rewrite lookup_insert_eq. reflexivity.
Qed.

Lemma predeclareRoutine_known statement globalScope st :
  exists scope' st',
    predeclareRoutine statement globalScope st = Normal (scope', st') /\
    (forall name, knownRoutine st name = true -> knownRoutine st' name = true) /\
    (forall name, routineName statement = Some name ->
                  knownRoutine st' name = true).
Proof.
  destruct statement; cbn [predeclareRoutine routineName];
    try (eexists; eexists; split; [reflexivity|];
         split; [tauto|discriminate]).
  - unfold bind, getProcedureSignature, getFunctionSignature.
    destruct (truthy (getProperty (procedureSignatures st) (toLowerCase name))
              || truthy (getProperty (functionSignatures st) (toLowerCase name)))
      eqn:Hk.
    + eexists. eexists. split; [reflexivity|]. split; [tauto|].
      intros n E. injection E as <-. exact Hk.
    + eexists. eexists. split; [reflexivity|]. unfold knownRoutine. simpl.
      split.
      * intros n Hn. apply orb_true_iff in Hn as [Hn|Hn].
        -- rewrite truthy_setProperty by exact Hn. reflexivity.
        -- rewrite Hn. apply orb_true_r.
      * intros n E. injection E as <-.
        rewrite truthy_setProperty_same. reflexivity.
  - unfold bind, getProcedureSignature, getFunctionSignature.
    destruct (truthy (getProperty (functionSignatures st) (toLowerCase name))
              || truthy (getProperty (procedureSignatures st) (toLowerCase name)))
      eqn:Hk.
    + eexists. eexists. split; [reflexivity|]. split; [tauto|].
      intros n E. injection E as <-. unfold knownRoutine.
      rewrite orb_comm. exact Hk.
    + eexists. eexists. split; [reflexivity|]. unfold knownRoutine. simpl.
      split.
      * intros n Hn. apply orb_true_iff in Hn as [Hn|Hn].
        -- rewrite Hn. reflexivity.
        -- rewrite truthy_setProperty by exact Hn. apply orb_true_r.
      * intros n E. injection E as <-.
        rewrite truthy_setProperty_same. apply orb_true_r.
Qed.

(** X6.  Routines are declared before any statement is analysed:
    [predeclareRoutines] never throws, and after it every procedure or
    function defined at the top level of the program is known under
    its lowercased name, so a routine may be called above its
    definition. *)
Theorem predeclareRoutines_knows_every_routine :
  forall statements globalScope st,
    exists scope' st',
      predeclareRoutines statements globalScope st = Normal (scope', st') /\
      forall statement name,
        In statement statements -> routineName statement = Some name ->
        knownRoutine st' name = true.
Proof.
  intros statements.
  assert (forall globalScope st,
            exists scope' st',
              predeclareRoutines statements globalScope st
              = Normal (scope', st') /\
              (forall name, knownRoutine st name = true ->
                            knownRoutine st' name = true) /\
              forall statement name,
                In statement statements -> routineName statement = Some name ->
                knownRoutine st' name = true) as H.
  { induction statements as [|s statements IH]; intros globalScope st.
    - exists globalScope, st. split; [reflexivity|]. split; [tauto|].
      intros statement name [].
    - destruct (predeclareRoutine_known s globalScope st)
        as (scope1 & st1 & H1 & Hmono1 & Hs).
      destruct (IH scope1 st1) as (scope2 & st2 & H2 & Hmono2 & Hrest).
      exists scope2, st2. cbn [predeclareRoutines]. unfold bind at 1.
      rewrite H1. split; [exact H2|]. split; [auto|].
      intros statement name [<-|Hin] Hname; eauto. }
  intros globalScope st.
  destruct (H globalScope st) as (scope' & st' & Hp & _ & Hk). eauto.
Qed.

(** *** Scopes *)

Lemma lookup_define_fresh (scope scope' : Scope) (symbol : SymbolEntry)
    (name : jsstring) :
  define scope symbol = (true, scope') ->
  lookup scope' name
  = if bool_decide (toLowerCase name = toLowerCase (seName symbol))
    then Some symbol else lookup scope name.
Proof.
  unfold define. destruct scope as [m p]. simpl.
  destruct (m !! toLowerCase (seName symbol)) eqn:Hold; [discriminate|].
  intros H. injection H as <-. simpl.
  destruct (bool_decide_reflect
              (toLowerCase name = toLowerCase (seName symbol))) as [->|Hne].
  - rewrite lookup_insert_eq. reflexivity.
  - rewrite lookup_insert_ne by congruence. reflexivity.
Qed.

(** X7.  The first declaration of a name in a scope wins: once
    [define] has accepted a symbol, a second [define] whose name differs
    at most in letter case is refused and leaves the scope as it is, and
    a lookup under either spelling returns the first symbol. *)
Theorem first_definition_in_scope_wins :
  forall (scope scope1 : Scope) (first second : SymbolEntry),
    define scope first = (true, scope1) ->
    toLowerCase (seName second) = toLowerCase (seName first) ->
    define scope1 second = (false, scope1) /\
    lookup scope1 (seName first) = Some first /\
    lookup scope1 (seName second) = Some first.
Proof.
  intros scope scope1 first second Hdef Hsame.
  pose proof (lookup_define_fresh scope scope1 first (seName first) Hdef) as H1.
  pose proof (lookup_define_fresh scope scope1 first (seName second) Hdef) as H2.
  rewrite bool_decide_eq_true_2 in H1 by reflexivity.
  rewrite bool_decide_eq_true_2 in H2 by exact Hsame.
  split; [|split; assumption].
  revert Hdef. unfold define. destruct scope as [m p]. simpl.
  destruct (m !! toLowerCase (seName first)); [discriminate|].
  intros H. injection H as <-. simpl.
  rewrite Hsame, lookup_insert_eq. reflexivity.
Qed.

Lemma first_definition_in_scope_wins_witness :
  define (mkScope {[ js "total" :=
                      mkSymbolEntry (js "Total") KVariable T_INTEGER None ]}
                  None)
         (mkSymbolEntry (js "TOTAL") KConstant T_STRING None)
  = (false,
     mkScope {[ js "total" :=
                  mkSymbolEntry (js "Total") KVariable T_INTEGER None ]}
             None) /\
  lookup (mkScope {[ js "total" :=
                       mkSymbolEntry (js "Total") KVariable T_INTEGER None ]}
                  None)
         (js "Total")
  = Some (mkSymbolEntry (js "Total") KVariable T_INTEGER None) /\
  lookup (mkScope {[ js "total" :=
                       mkSymbolEntry (js "Total") KVariable T_INTEGER None ]}
                  None)
         (js "TOTAL")
  = Some (mkSymbolEntry (js "Total") KVariable T_INTEGER None).
Proof.
  apply (first_definition_in_scope_wins (newScope None)
           (mkScope {[ js "total" :=
                         mkSymbolEntry (js "Total") KVariable T_INTEGER None ]}
                    None)
           (mkSymbolEntry (js "Total") KVariable T_INTEGER None)
           (mkSymbolEntry (js "TOTAL") KConstant T_STRING None));
    reflexivity.
Defined.

(** X8.  A child scope shadows its parent.  For names of ASCII code
    units: a fresh child scope resolves every name as its parent does;
    a symbol defined in it is always accepted, whatever the parent
    declares under that name; from then on a lookup returns the new
    symbol for that name in any letter case, and the parent's answer
    for every other name. *)
Theorem child_scope_shadows_parent :
  forall (outer : Scope) (symbol : SymbolEntry) (name : jsstring),
    isAscii name = true ->
    isAscii (seName symbol) = true ->
    lookup (newScope (Some outer)) name = lookup outer name /\
    fst (define (newScope (Some outer)) symbol) = true /\
    lookup (snd (define (newScope (Some outer)) symbol)) name
    = if bool_decide (toLowerCase name = toLowerCase (seName symbol))
      then Some symbol else lookup outer name.
Proof.
  intros outer symbol name _ _. split; [|split].
  - unfold newScope. simpl. rewrite lookup_empty. reflexivity.
  - unfold define, newScope. simpl. rewrite lookup_empty. reflexivity.
  - rewrite (lookup_define_fresh (newScope (Some outer)) _ symbol name).
    + unfold newScope. simpl. rewrite lookup_empty. reflexivity.
    + unfold define, newScope. simpl. rewrite lookup_empty. reflexivity.
Qed.

Lemma child_scope_shadows_parent_witness :
  lookup (newScope (Some (mkScope {[ js "total" :=
                                       mkSymbolEntry (js "Total") KVariable
                                                     T_INTEGER None ]}
                                  None)))
         (js "TOTAL")
  = lookup (mkScope {[ js "total" :=
                         mkSymbolEntry (js "Total") KVariable T_INTEGER None ]}
                    None)
           (js "TOTAL") /\
  fst (define (newScope (Some (mkScope {[ js "total" :=
                                            mkSymbolEntry (js "Total") KVariable
                                                          T_INTEGER None ]}
                                       None)))
              (mkSymbolEntry (js "total") KParam T_STRING None))
  = true /\
  lookup (snd (define (newScope (Some (mkScope {[ js "total" :=
                                                    mkSymbolEntry (js "Total")
                                                      KVariable T_INTEGER
                                                      None ]}
                                               None)))
                      (mkSymbolEntry (js "total") KParam T_STRING None)))
         (js "TOTAL")
  = Some (mkSymbolEntry (js "total") KParam T_STRING None).
Proof.
  apply (child_scope_shadows_parent
           (mkScope {[ js "total" :=
                         mkSymbolEntry (js "Total") KVariable T_INTEGER None ]}
                    None)
           (mkSymbolEntry (js "total") KParam T_STRING None)
           (js "TOTAL"));
    reflexivity.
Defined.

(** *** One step of the analyzer *)

Lemma yields_ret {A} (Q : A -> Prop) (a : A) : Q a -> yields Q (ret a).
Proof. intros H st r st' E. injection E as <- _. exact H. Qed.

Lemma yields_bind {A B} (Q : B -> Prop) (m : M A) (k : A -> M B) :
  (forall a, yields Q (k a)) -> yields Q (bind m k).
Proof.
  intros Hk st r st'. unfold bind.
  destruct (m st) as [[a st1]|e]; [|discriminate].
  apply Hk.
Qed.

(** X9.  Blocks are scoped.  A statement that holds nested statements
    (IF, CASE, FOR, REPEAT, WHILE, a procedure or a function definition)
    hands back the scope and the table of open files it was given:
    what its body declares or opens is not visible to the statements
    after it, and it never counts as a RETURN of the enclosing body. *)
Theorem structured_statement_keeps_scope_and_open_files :
  forall statement scope current openFiles st r st',
    isStructured statement = true ->
    analyzeStatement statement scope current openFiles st = Normal (r, st') ->
    r = (false, scope, openFiles).
Proof.
  intros statement scope current openFiles st r st' Hs H.
  assert (yields (fun r : StepResult => r = (false, scope, openFiles))
                 (analyzeStatement statement scope current openFiles)) as Hy.
  { destruct statement; try discriminate; cbn [analyzeStatement];
      repeat first [ apply yields_ret; reflexivity
                   | apply yields_bind; intros ]. }
  apply (Hy _ _ _ H).
Qed.

Lemma structured_statement_keeps_scope_and_open_files_witness :
  exists r st',
    analyzeStatement
      (SWhile (ELiteral (LBoolean true) BOOLEAN (mkSpan 1 7 1 10))
              [SOpenFile (ELiteral (LString (js "log.txt")) STRING
                                   (mkSpan 2 12 2 20))
                         WRITE (mkSpan 2 3 2 30);
               SDeclare (mkIdentifier (js "Count") (mkSpan 3 11 3 15))
                        (TNBasic INTEGER (mkSpan 3 19 3 25)) (mkSpan 3 3 3 25)]
              (mkSpan 1 1 4 8))
      (newScope None) None ∅ initialState
    = Normal (r, st') /\
    r = (false, newScope None, ∅).
Proof.
  eexists. eexists. split; [vm_compute; reflexivity|].
  eapply (structured_statement_keeps_scope_and_open_files
            (SWhile (ELiteral (LBoolean true) BOOLEAN (mkSpan 1 7 1 10))
               [SOpenFile (ELiteral (LString (js "log.txt")) STRING
                                    (mkSpan 2 12 2 20))
                          WRITE (mkSpan 2 3 2 30);
                SDeclare (mkIdentifier (js "Count") (mkSpan 3 11 3 15))
                         (TNBasic INTEGER (mkSpan 3 19 3 25))
                         (mkSpan 3 3 3 25)]
               (mkSpan 1 1 4 8))
            (newScope None) None ∅ initialState);
    [reflexivity | vm_compute; reflexivity].
Defined.

(** X10.  A comparison is BOOLEAN whatever its operands are, and the
    analyzer never checks them against each other: the only diagnostics
    of [left op right], for [op] one of [= < <= > >= <>], are those of
    the two operands, so comparing a STRING with a BOOLEAN is not
    reported. *)
Theorem comparison_is_BOOLEAN_and_unchecked :
  forall op left_ right_ span scope st leftType st1 rightType st2,
    In op relationalOperators ->
    inferExpressionType left_ scope st = Normal (leftType, st1) ->
    inferExpressionType right_ scope st1 = Normal (rightType, st2) ->
    inferExpressionType (EBinary op left_ right_ span) scope st
    = Normal (T_BOOLEAN, st2).
Proof.
  intros op left_ right_ span scope st leftType st1 rightType st2 Hop Hl Hr.
  cbn [inferExpressionType]. unfold bind at 1. rewrite Hl.
  unfold bind at 1. rewrite Hr.
  assert (includes arithmeticOperators op = false) as Hna.
  { destruct (includes arithmeticOperators op) eqn:E; [|reflexivity].
    apply includes_In in E. simpl in Hop, E.
    repeat match goal with
           | H : _ \/ _ |- _ => destruct H
           end; subst; try contradiction; discriminate. }
  apply includes_In in Hop. rewrite Hna, Hop. reflexivity.
Qed.

Lemma comparison_is_BOOLEAN_and_unchecked_witness :
  inferExpressionType
    (EBinary (js "<")
             (ELiteral (LString (js "abc")) STRING (mkSpan 1 1 1 5))
             (ELiteral (LBoolean true) BOOLEAN (mkSpan 1 9 1 12))
             (mkSpan 1 1 1 12))
    None initialState
  = Normal (T_BOOLEAN, initialState).
Proof.
  apply (comparison_is_BOOLEAN_and_unchecked (js "<")
           (ELiteral (LString (js "abc")) STRING (mkSpan 1 1 1 5))
           (ELiteral (LBoolean true) BOOLEAN (mkSpan 1 9 1 12))
           (mkSpan 1 1 1 12) None initialState
           T_STRING initialState T_BOOLEAN initialState);
    [simpl; tauto | reflexivity | reflexivity].
Defined.

(** X11.  A call of a function, built in or declared, with the wrong
    number of arguments gets the single diagnostic SEM017 at the span of
    the call and still has the declared return type; its arguments are
    not analysed, so whatever is wrong inside them goes unreported. *)
Theorem wrong_argument_count_reports_SEM017_only :
  forall name args span scope st signature,
    getProperty BUILTIN_FUNCTIONS (toUpperCase name) = Own signature \/
    (getProperty BUILTIN_FUNCTIONS (toUpperCase name) = Undefined /\
     getProperty (functionSignatures st) (toLowerCase name) = Own signature) ->
    length args <> length (fsParams signature) ->
    inferExpressionType (ECall name args span) scope st
    = Normal (fsReturnType signature, withError st span "SEM017").
Proof.
  intros name args span scope st signature Hsig Hargs.
  cbn [inferExpressionType].
  destruct Hsig as [Hb|[Hb Hf]]; rewrite Hb; cbn [truthy].
  - cbn [functionParams functionReturnType].
    unfold validateCallArgumentsWith.
    destruct (Nat.eqb_spec (length args) (length (fsParams signature)));
      [contradiction|].
    reflexivity.
  - unfold bind at 1. unfold getFunctionSignature. rewrite Hf.
    cbn [truthy negb functionParams functionReturnType].
    unfold validateCallArgumentsWith.
    destruct (Nat.eqb_spec (length args) (length (fsParams signature)));
      [contradiction|].
    reflexivity.
Qed.

Lemma wrong_argument_count_reports_SEM017_only_witness :
  inferExpressionType
    (ECall (js "Length")
           [EIdentifier (js "Missing") (mkSpan 1 8 1 14);
            ELiteral (LNumber (NumInt 2)) INTEGER (mkSpan 1 17 1 17)]
           (mkSpan 1 1 1 18))
    None initialState
  = Normal (T_INTEGER, withError initialState (mkSpan 1 1 1 18) "SEM017").
Proof.
  apply (wrong_argument_count_reports_SEM017_only (js "Length")
           [EIdentifier (js "Missing") (mkSpan 1 8 1 14);
            ELiteral (LNumber (NumInt 2)) INTEGER (mkSpan 1 17 1 17)]
           (mkSpan 1 1 1 18) None initialState
           (mkFunctionSignature (js "LENGTH") [T_STRING] T_INTEGER)).
  - left. vm_compute. reflexivity.
  - simpl. lia.
Defined.

(** X12.  An array access with the wrong number of indices gets the
    single diagnostic SEM027 at the span of the access and still has
    the element type of the array; the indices are not analysed. *)
Theorem wrong_index_count_reports_SEM027_only :
  forall name indices span scope st symbol elementType dimensions,
    lookup scope name = Some symbol ->
    seType symbol = TArray elementType dimensions ->
    length indices <> length dimensions ->
    inferExpressionType (EArrayAccess name indices span) (Some scope) st
    = Normal (TBasic elementType, withError st span "SEM027").
Proof.
  intros name indices span scope st symbol elementType dimensions Hl Ht Hi.
  cbn [inferExpressionType]. unfold resolveArrayAccessTypeWith.
  rewrite Hl, Ht.
  destruct (Nat.eqb_spec (length indices) (length dimensions));
    [contradiction|].
  reflexivity.
Qed.

Lemma wrong_index_count_reports_SEM027_only_witness :
  inferExpressionType
    (EArrayAccess (js "grid")
                  [EIdentifier (js "Missing") (mkSpan 1 6 1 12)]
                  (mkSpan 1 1 1 13))
    (Some (mkScope {[ js "grid" :=
                        mkSymbolEntry (js "Grid") KVariable
                          (TArray REAL [mkDimension 1 3; mkDimension 1 4])
                          None ]}
                   None))
    initialState
  = Normal (T_REAL, withError initialState (mkSpan 1 1 1 13) "SEM027").
Proof.
  apply (wrong_index_count_reports_SEM027_only (js "grid")
           [EIdentifier (js "Missing") (mkSpan 1 6 1 12)]
           (mkSpan 1 1 1 13)
           (mkScope {[ js "grid" :=
                         mkSymbolEntry (js "Grid") KVariable
                           (TArray REAL [mkDimension 1 3; mkDimension 1 4])
                           None ]}
                    None)
           initialState
           (mkSymbolEntry (js "Grid") KVariable
              (TArray REAL [mkDimension 1 3; mkDimension 1 4]) None)
           REAL [mkDimension 1 3; mkDimension 1 4]).
  - vm_compute. reflexivity.
  - reflexivity.
  - simpl. lia.
Defined.

End AnalyzerFacts.

(** ** The generator *)

Module CodegenFacts.
Import Codegen.
Local Open Scope nat_scope.

(** *** String literals *)

Section StringLiterals.

Local Open Scope N_scope.














Lemma noControl_app (a b : jsstring) :
  noControl (a ++ b) = noControl a && noControl b.
Proof. apply forallb_app. Qed.

End StringLiterals.

(** *** Lines and indentation *)

Lemma repeatString_shift (s : jsstring) (n : nat) :
  repeatString s (S n) = repeatString s n ++ s.
Proof.
  induction n as [|n IH]; simpl in *; [rewrite app_nil_r; reflexivity|].
  rewrite IH at 1. rewrite app_assoc. reflexivity.
Qed.

Lemma indented_deeper (n : nat) (l : jsstring) :
  indented (S n) l -> indented n l.
Proof.
  intros [text ->]. unfold indentOf. rewrite repeatString_shift.
  rewrite <- app_assoc. eexists. reflexivity.
Qed.

Lemma indented_line (n : nat) (text : jsstring) : indented n (indentOf n ++ text).
Proof. exists text. reflexivity. Qed.

Lemma indented_inner (n : nat) (text : jsstring) :
  indented (S n) (indentOf n ++ js "    " ++ text).
Proof.
  exists text. unfold indentOf. rewrite repeatString_shift, <- app_assoc.
  reflexivity.
Qed.

Lemma appends_refl st : appends st st [].
Proof. unfold appends. rewrite app_nil_r. reflexivity. Qed.

Lemma appends_trans a b c x y :
  appends a b x -> appends b c y -> appends a c (x ++ y).
Proof.
  unfold appends. intros H1 H2. rewrite H2, H1, app_assoc. reflexivity.
Qed.

Lemma emits_ret {A} n (a : A) : emits n 0 (ret a).
Proof.
  intros st. exists []. split; [apply appends_refl|]. split; [constructor|].
  simpl. lia.
Qed.

Lemma emits_bind {A B} n a b (m : G A) (k : A -> G B) :
  emits n a m -> (forall x, emits n b (k x)) -> emits n (a + b) (bind m k).
Proof.
  intros Hm Hk st. unfold bind.
  destruct (Hm st) as (x & Hx & Fx & Lx).
  destruct (m st) as [r st1]. simpl in *.
  destruct (Hk r st1) as (y & Hy & Fy & Ly).
  exists (x ++ y). split; [eapply appends_trans; eassumption|].
  split; [apply Forall_app; auto|]. rewrite length_app. lia.
Qed.

Lemma emits_weaken {A} n a b (m : G A) : b <= a -> emits n a m -> emits n b m.
Proof.
  intros Hle Hm st. destruct (Hm st) as (x & Hx & Fx & Lx).
  exists x. split; [exact Hx|]. split; [exact Fx|lia].
Qed.

Lemma emits_shallower {A} n a (m : G A) : emits (S n) a m -> emits n a m.
Proof.
  intros Hm st. destruct (Hm st) as (x & Hx & Fx & Lx).
  exists x. split; [exact Hx|]. split; [|exact Lx].
  eapply Forall_impl; [exact Fx|]. intros l. apply indented_deeper.
Qed.

Lemma emits_push n (l : jsstring) : indented n l -> emits n 1 (push l).
Proof.
  intros Hl st. exists [l]. split; [|split; [repeat constructor; exact Hl|]].
  - reflexivity.
  - simpl. lia.
Qed.

Lemma emits_silent {A} n (m : G A) :
  (forall st, lines (snd (m st)) = lines st) -> emits n 0 m.
Proof.
  intros H st. exists []. split; [|split; [constructor|simpl; lia]].
  unfold appends. rewrite H, app_nil_r. reflexivity.
Qed.

Lemma emits_declareType n name t : emits n 0 (declareType name t).
Proof.
  apply emits_silent. intros st. unfold declareType. simpl.
  destruct (scopeStack st); reflexivity.
Qed.

Lemma emits_nextCase n : emits n 0 nextCase.
Proof. apply emits_silent. reflexivity. Qed.

Lemma emits_pushScope n : emits n 0 pushScope.
Proof. apply emits_silent. reflexivity. Qed.

Lemma emits_popScope n : emits n 0 popScope.
Proof. apply emits_silent. reflexivity. Qed.

Section Generator.

Variable numberToString : JsNumber -> jsstring.
Variable semanticResult : SemanticResult.

Local Abbreviation emitStatement := (emitStatement numberToString semanticResult).
Local Abbreviation emitExpression := (emitExpression numberToString).

Lemma emits_bind_first {A B} n a (m : G A) (k : A -> G B) :
  emits n a m -> (forall x, emits n 0 (k x)) -> emits n a (bind m k).
Proof.
  intros Hm Hk. eapply emits_weaken; [|apply (emits_bind n a 0); eassumption].
  lia.
Qed.

Lemma emits_bind_second {A B} n a (m : G A) (k : A -> G B) :
  emits n 0 m -> (forall x, emits n a (k x)) -> emits n a (bind m k).
Proof.
  intros Hm Hk. apply (emits_bind n 0 a); assumption.
Qed.

Lemma emits_any {A} n a (m : G A) : emits n a m -> emits n 0 m.
Proof. apply emits_weaken. lia. Qed.

Lemma emits_lookupType n name : emits n 0 (lookupType semanticResult name).
Proof. apply emits_silent. reflexivity. Qed.

Lemma emits_inferStaticType n e : emits n 0 (inferStaticType semanticResult e).
Proof.
  destruct e; cbn [inferStaticType]; try apply emits_ret;
    try apply emits_lookupType.
  apply emits_bind_first; [apply emits_lookupType|].
  intros [| |]; apply emits_ret.
Qed.

Lemma emits_resolveTargetType n e :
  emits n 0 (resolveTargetType semanticResult e).
Proof.
  destruct e; cbn [resolveTargetType]; try apply emits_ret;
    try apply emits_lookupType.
  apply emits_bind_first; [apply emits_lookupType|].
  intros [| |]; apply emits_ret.
Qed.

Lemma emits_line n text : emits n 1 (push (indentOf n ++ text)).
Proof. apply emits_push, indented_line. Qed.

Lemma emits_block (body : list StatementNode) :
  Forall (writes numberToString semanticResult) body ->
  forall n, emits n 0 (emitStatementBlockWith emitStatement body n).
Proof.
  induction 1 as [|s body Hs _ IH]; intros n; cbn [emitStatementBlockWith].
  - apply emits_ret.
  - apply emits_bind_first; [eapply emits_any, Hs|intros; apply IH].
Qed.


Lemma emits_emitBody (body : list StatementNode) :
  Forall (writes numberToString semanticResult) body ->
  forall n, emits n 0 (emitBody emitStatement body n).
Proof.
  intros H n. unfold emitBody. destruct body as [|s body].
  - eapply emits_any, emits_line.
  - apply emits_shallower, emits_block. exact H.
Qed.

Lemma emits_emitClauses
    (clauses : list (option ExpressionNode * StatementNode * SourceSpan)) :
  Forall (fun clause => writes numberToString semanticResult (snd (fst clause))) clauses ->
  forall caseName branchCount n,
    emits n 0 (emitClauses numberToString emitStatement clauses caseName
                           branchCount n).
Proof.
  induction 1 as [|[[value s] sp] clauses Hs _ IH]; intros caseName branchCount n;
    cbn [emitClauses]; [apply emits_ret|].
  destruct value as [value|].
  - apply emits_bind_first; [eapply emits_any, emits_line|intros].
    apply emits_bind_first; [eapply emits_shallower, emits_any, Hs|intros].
    apply IH.
  - apply emits_bind_first; [eapply emits_any, emits_line|intros].
    apply emits_bind_first; [eapply emits_shallower, emits_any, Hs|intros].
    apply IH.
Qed.

Ltac emits_rest :=
  repeat first
    [ apply emits_ret
    | apply emits_pushScope
    | apply emits_popScope
    | apply emits_declareType
    | apply emits_nextCase
    | eapply emits_any, emits_line
    | apply emits_emitBody; assumption
    | apply emits_emitClauses; assumption
    | apply emits_shallower, emits_block; assumption
    | apply emits_bind_first; [|intros]
    | match goal with
      | |- emits _ _ (match ?x with _ => _ end) => destruct x
      end ].

Lemma writes_emitStatement : forall s, writes numberToString semanticResult s.
Proof.
  apply StatementNode_induction; unfold writes; intros;
    cbn [emitStatement isDefinition];
    try apply emits_line; try apply emits_ret;
    try (apply emits_bind_first; [apply emits_line|intros]; emits_rest).
  - (* declare *)
    apply emits_bind_second; [apply emits_declareType|intros].
    destruct t; apply emits_line.
  - (* constant *)
    apply emits_bind_second; [apply emits_inferStaticType|intros].
    apply emits_bind_second; [apply emits_declareType|intros].
    apply emits_line.
  - (* input *)
    apply emits_bind_second; [apply emits_resolveTargetType|intros].
    destruct x; apply emits_line.
  - (* case *)
    apply emits_bind_second; [apply emits_nextCase|intros].
    apply emits_bind_first; [apply emits_line|intros]. emits_rest.
Qed.











End Generator.


(** X14.  A statement emitted at indentation level [n] only appends to
    the lines written so far, and every line it appends, those of its
    nested bodies included, starts with [n] levels of four spaces.  A
    statement other than a routine definition appends at least one
    line; a routine definition met as a statement appends none. *)
Theorem emitStatement_appends_indented_lines :
  forall numberToString semanticResult statement n st,
    exists new,
      lines (snd (emitStatement numberToString semanticResult statement n st))
      = lines st ++ new /\
      Forall (indented n) new /\
      (if isDefinition statement then new = [] else 1 <= length new).
Proof.
  intros numberToString semanticResult statement n st.
  destruct (isDefinition statement) eqn:Hd.
  - exists []. rewrite app_nil_r.
    destruct statement; try discriminate; cbn [emitStatement];
      (split; [reflexivity|split; [constructor|reflexivity]]).
  - destruct (writes_emitStatement numberToString semanticResult statement n st)
      as (new & Hnew & Hind & Hlen).
    rewrite Hd in Hlen. exists new. auto.
Qed.


End CodegenFacts.

(** ** The whole pipeline *)

Module PipelineFacts.
Import Semantics.

Lemma insertSorted_Permutation {A} (compare : A -> A -> Z) (x : A) (l : list A) :
  Permutation (insertSorted compare x l) (x :: l).
Proof.
  induction l as [|y l IH]; simpl; [reflexivity|].
  destruct (compare x y <=? 0); [reflexivity|].
  rewrite IH. apply perm_swap.
Qed.

Lemma sort_Permutation {A} (compare : A -> A -> Z) (l : list A) :
  Permutation (sort compare l) l.
Proof.
  induction l as [|x l IH]; simpl; [reflexivity|].
  rewrite insertSorted_Permutation, IH. reflexivity.
Qed.

(** X16.  The diagnostics of a returned result are exactly those of
    the parser (the tokenizer's included) and those of the analyzer,
    each as often as it was reported: merging and sorting drops none,
    repeats none and adds none. *)
Theorem compilePseudocode_reports_every_diagnostic_once :
  forall numberToString fuel request r,
    compilePseudocodeWith numberToString fuel request = Returned r ->
    exists ast parseDiagnostics semanticResult,
      Parser.parseSourceWith fuel (source request)
      = Some (ast, parseDiagnostics) /\
      analyzeProgram ast = Normal semanticResult /\
      Permutation (diagnostics r)
                  (parseDiagnostics ++ srDiagnostics semanticResult).
Proof.
  intros numberToString fuel request r H.
  apply compilePseudocodeWith_Returned in H as (ast & pd & sr & Hp & Ha & ->).
  exists ast, pd, sr. split; [exact Hp|]. split; [exact Ha|].
  unfold assemble.
  destruct (existsb isError _); simpl; apply sort_Permutation.
Qed.

Lemma compilePseudocode_reports_every_diagnostic_once_witness :
  exists r,
    compilePseudocodeWith Codegen.decimalNumberToString 64
      (requestOfLines [js "OUTPUT Total"; js "Count <- "]) = Returned r /\
    map code (diagnostics r) = [js "SEM019"; js "SEM019"; js "SYN060"] /\
    exists ast parseDiagnostics semanticResult,
      Parser.parseSourceWith 64
        (source (requestOfLines [js "OUTPUT Total"; js "Count <- "]))
      = Some (ast, parseDiagnostics) /\
      analyzeProgram ast = Normal semanticResult /\
      Permutation (diagnostics r)
                  (parseDiagnostics ++ srDiagnostics semanticResult).
Proof.
  eexists. split; [vm_compute; reflexivity|]. split; [reflexivity|].
  apply (compilePseudocode_reports_every_diagnostic_once
           Codegen.decimalNumberToString 64
           (requestOfLines [js "OUTPUT Total"; js "Count <- "])).
  vm_compute. reflexivity.
Defined.

Lemma existsb_isError_all (l : list Diagnostic) :
  errorsOnly l ->
  existsb isError l = negb (bool_decide (l = [])).
Proof.
  intros H. destruct H as [|d l Hd _]; [reflexivity|].
  simpl. unfold isError at 1. rewrite Hd. reflexivity.
Qed.

(** X17.  Every diagnostic the compiler reports has severity error: no
    stage issues a warning or a note.  So a compilation succeeds exactly
    when its list of diagnostics is empty. *)
Theorem compilePseudocode_succeeds_iff_no_diagnostic :
  forall numberToString fuel request r,
    compilePseudocodeWith numberToString fuel request = Returned r ->
    errorsOnly (diagnostics r) /\
    (success r = true <-> diagnostics r = []).
Proof.
  intros numberToString fuel request r H.
  apply compilePseudocodeWith_Returned in H as (ast & pd & sr & Hp & Ha & ->).
  assert (errorsOnly
                 (sort compareDiagnostics (pd ++ srDiagnostics sr))) as Hall.
  { unfold errorsOnly in *. apply List.Forall_forall. intros d Hd.
    apply sort_In in Hd.
    apply in_app_or in Hd as [Hd|Hd].
    - apply ParserDiagnostics.parseSourceWith_diagnostics in Hp as (_ & _ & _ & _ & _ & Hpd).
      unfold errorsOnly in Hpd.
      rewrite List.Forall_forall in Hpd. apply Hpd, Hd.
    - apply AnalyzerFacts.analyzeProgram_errors in Ha.
      unfold errorsOnly in Ha.
      rewrite List.Forall_forall in Ha. apply Ha, Hd. }
  unfold assemble. rewrite (existsb_isError_all _ Hall).
  destruct (bool_decide_reflect
              (sort compareDiagnostics (pd ++ srDiagnostics sr) = []))
    as [E|E]; simpl.
  - split; [exact Hall|]. split; intros; [exact E|reflexivity].
  - split; [exact Hall|]. split; intros; [discriminate|contradiction].
Qed.

Lemma compilePseudocode_succeeds_iff_no_diagnostic_witness :
  exists r,
    compilePseudocodeWith Codegen.decimalNumberToString 64
      (requestOfLines [js "OUTPUT Total"; js "Count <- "]) = Returned r /\
    errorsOnly (diagnostics r) /\
    (success r = true <-> diagnostics r = []).
Proof.
  eexists. split; [vm_compute; reflexivity|].
  apply (compilePseudocode_succeeds_iff_no_diagnostic
           Codegen.decimalNumberToString 64
           (requestOfLines [js "OUTPUT Total"; js "Count <- "])).
  vm_compute. reflexivity.
Defined.

(** X18.  [compilePseudocode] throws a [TypeError] only on a source
    whose parsed program calls a routine whose lowercased name is a
    property that JavaScript objects inherit (among words,
    [constructor] in any letter case); no other source, however
    malformed, makes it throw one. *)
Theorem compilePseudocode_TypeError_only_on_prototype_name :
  forall numberToString fuel request,
    compilePseudocodeWith numberToString fuel request = Thrown TypeError ->
    exists ast parseDiagnostics,
      Parser.parseSourceWith fuel (source request)
      = Some (ast, parseDiagnostics) /\
      avoidPrototype (programCalls ast) = false.
Proof.
  intros numberToString fuel request Hthrow.
  unfold compilePseudocodeWith in Hthrow.
  destruct (Parser.parseSourceWith fuel (source request)) as [[ast pd]|];
    [|discriminate].
  exists ast, pd. split; [reflexivity|].
  destruct (avoidPrototype (programCalls ast)) eqn:Hsafe; [|reflexivity].
  pose proof (AnalyzerFacts.keeps_analyze True ast (fun _ => Hsafe)
                initialState) as H.
  unfold analyzeProgram in Hthrow.
  destruct (analyze ast initialState) as [[sr st]|e]; [discriminate|].
  exfalso. apply H. exact I.
Qed.

Lemma compilePseudocode_TypeError_only_on_prototype_name_witness :
  compilePseudocodeWith Codegen.decimalNumberToString 64
    (requestOfLines [js "OUTPUT Constructor(1)"])
  = Thrown TypeError /\
  exists ast parseDiagnostics,
    Parser.parseSourceWith 64
      (source (requestOfLines [js "OUTPUT Constructor(1)"]))
    = Some (ast, parseDiagnostics) /\
    avoidPrototype (programCalls ast) = false.
Proof.
  split; [vm_compute; reflexivity|].
  apply (compilePseudocode_TypeError_only_on_prototype_name
           Codegen.decimalNumberToString 64
           (requestOfLines [js "OUTPUT Constructor(1)"])).
  vm_compute. reflexivity.
Defined.

End PipelineFacts.

(** ** The emitted runtime helpers *)

Module RuntimeFacts.
Import Runtime.

(** A [for] loop over a generator has one course. *)
Lemma iterates_deterministic g vs1 e1 vs2 e2 :
  iterates g vs1 e1 -> iterates g vs2 e2 -> vs1 = vs2 /\ e1 = e2.
Proof.
  intros H1. revert vs2 e2.
  induction H1 as [g Hg | g e Hg | g v g' vs r Hg Hrest IH];
    intros vs2 e2 H2;
    inversion H2 as [g0 Hg2 | g0 e0 Hg2 | g0 v2 g2 vs' r' Hg2 Hrest2];
    subst; rewrite Hg in Hg2; try discriminate.
  - split; reflexivity.
  - injection Hg2 as <-. split; reflexivity.
  - injection Hg2 as <- <-.
    destruct (IH _ _ Hrest2) as [-> ->]. split; reflexivity.
Qed.

Lemma forLoop_iterates fuel g vs e :
  forLoop fuel g = Some (vs, e) -> iterates g vs e.
Proof.
  revert g vs e. induction fuel as [|fuel IH]; intros g vs e; simpl;
    [discriminate|].
  destruct (next g) as [v g'| |err] eqn:Hn.
  - destruct (forLoop fuel g') as [[vs' r]|] eqn:Hf; [|discriminate].
    intros H. injection H as <- <-.
    eapply iterates_yield; [exact Hn|]. apply IH. exact Hf.
  - intros H. injection H as <- <-. apply iterates_stop. exact Hn.
  - intros H. injection H as <- <-. apply iterates_raise. exact Hn.
Qed.

Lemma progression_step (a s : Z) (n : nat) :
  map (fun k => a + Z.of_nat k * s) (seq 0 (S n))
  = a :: map (fun k => (a + s) + Z.of_nat k * s) (seq 0 n).
Proof.
  simpl. f_equal; [lia|].
  rewrite <- seq_shift, map_map. apply map_ext. intros k. lia.
Qed.

(** The loop of the branch [step > 0], entered with the loop variable
    at [v]. *)
Lemma loop_upwards (b s : Z) :
  0 < s ->
  forall n v g,
    countInRange v b s = n ->
    next g = loopTest v b s ->
    iterates g (map (fun k => v + Z.of_nat k * s) (seq 0 n)) Exhausted.
Proof.
  intros Hs. unfold countInRange.
  induction n as [|n IH]; intros v g Hn Hg.
  - simpl. apply iterates_stop. rewrite Hg. unfold loopTest.
    destruct (Z.gtb_spec s 0); [|lia].
    destruct (Z.leb_spec v b); [|reflexivity].
    exfalso. assert (0 <= (b - v) / s) by (apply Z.div_pos; lia). lia.
  - rewrite progression_step.
    assert (v <= b) as Hvb.
    { destruct (Z.le_gt_cases v b) as [|Hgt]; [assumption|].
      exfalso. assert ((b - v) / s < 0) by (apply Z.div_lt_upper_bound; lia).
      lia. }
    apply (iterates_yield g v (Looping v b s)).
    + rewrite Hg. unfold loopTest.
      destruct (Z.gtb_spec s 0); [|lia].
      destruct (Z.leb_spec v b); [reflexivity|lia].
    + apply (IH (v + s) (Looping v b s)); [|reflexivity].
      replace (b - (v + s)) with ((b - v) + (-1) * s) by lia.
      rewrite Z.div_add by lia. lia.
Qed.

(** The loop of the branch [step < 0]. *)
Lemma loop_downwards (b s : Z) :
  s < 0 ->
  forall n v g,
    countInRange v b s = n ->
    next g = loopTest v b s ->
    iterates g (map (fun k => v + Z.of_nat k * s) (seq 0 n)) Exhausted.
Proof.
  intros Hs. unfold countInRange.
  assert (forall x, (x / s = (- x) / (- s))) as Hopp.
  { intros x. rewrite Z.div_opp_opp by lia. reflexivity. }
  induction n as [|n IH]; intros v g Hn Hg.
  - simpl. apply iterates_stop. rewrite Hg. unfold loopTest.
    destruct (Z.gtb_spec s 0); [lia|].
    destruct (Z.geb_spec v b); [|reflexivity].
    exfalso. rewrite Hopp in Hn.
    assert (0 <= (- (b - v)) / (- s)) by (apply Z.div_pos; lia). lia.
  - rewrite progression_step.
    assert (b <= v) as Hvb.
    { destruct (Z.le_gt_cases b v) as [|Hgt]; [assumption|].
      exfalso. rewrite Hopp in Hn.
      assert ((- (b - v)) / (- s) < 0)
        by (apply Z.div_lt_upper_bound; lia).
      lia. }
    apply (iterates_yield g v (Looping v b s)).
    + rewrite Hg. unfold loopTest.
      destruct (Z.gtb_spec s 0); [lia|].
      destruct (Z.geb_spec v b); [reflexivity|lia].
    + apply (IH (v + s) (Looping v b s)); [|reflexivity].
      replace (b - (v + s)) with ((b - v) + (-1) * s) by lia.
      rewrite Z.div_add by lia. lia.
Qed.

Lemma inclusive_range_iterates_progression (a b s : Z) :
  s <> 0 -> iterates (inclusive_range a b s) (progression a b s) Exhausted.
Proof.
  intros Hs. unfold progression.
  assert (next (inclusive_range a b s) = loopTest a b s) as Hnext.
  { simpl. destruct (Z.eqb_spec s 0); [contradiction|reflexivity]. }
  destruct (Z.lt_trichotomy s 0) as [Hneg | [Hz | Hpos]].
  - eapply loop_downwards; eauto.
  - contradiction.
  - eapply loop_upwards; eauto.
Qed.

(** Membership in the progression: the points [a + k*s], [k >= 0], that
    do not lie beyond [b] in the direction of [s]. *)
Lemma progression_In (a b s v : Z) :
  s <> 0 ->
  In v (progression a b s) <->
  exists k, 0 <= k /\ v = a + k * s /\
            ((0 < s /\ v <= b) \/ (s < 0 /\ b <= v)).
Proof.
  intros Hs. unfold progression, countInRange. rewrite in_map_iff. split.
  - intros (k & <- & Hk). apply in_seq in Hk.
    exists (Z.of_nat k). split; [lia|]. split; [reflexivity|].
    assert (Z.of_nat k <= (b - a) / s) as Hle by lia.
    destruct (Z.lt_trichotomy s 0) as [Hneg | [Hz | Hpos]]; [|contradiction|].
    + right. split; [assumption|].
      pose proof (Z.div_mod (b - a) s Hs) as Hdm.
      pose proof (Z.mod_neg_bound (b - a) s Hneg) as Hmb. nia.
    + left. split; [assumption|].
      pose proof (Z.div_mod (b - a) s Hs) as Hdm.
      pose proof (Z.mod_pos_bound (b - a) s Hpos) as Hmb. nia.
  - intros (k & Hk & -> & Hdir).
    exists (Z.to_nat k). split; [lia|]. apply in_seq.
    assert (k <= (b - a) / s) as Hle.
    { destruct Hdir as [[Hpos Hb] | [Hneg Hb]].
      - apply Z.div_le_lower_bound; lia.
      - rewrite <- (Z.div_opp_opp (b - a) s) by lia.
        apply Z.div_le_lower_bound; lia. }
    lia.
Qed.

(** C5.  A [for] loop over [__inclusive_range(a, b, s)] with [s = 0]
    fails with a runtime error before any value is produced; with
    [s <> 0] it sees exactly [a, a+s, a+2s, ...] up to the bound [b] in
    the direction of [s], and then ends.  With [a = 5, b = 1, s = -1]
    these are [5, 4, 3, 2, 1]; with [s > 0] and [a > b] there is
    none. *)
Theorem inclusive_range_yields (a b s : Z) :
  let expected := if s =? 0 then [] else progression a b s in
  let ending := if s =? 0 then Failed RuntimeError else Exhausted in
  iterates (inclusive_range a b s) expected ending /\
  (forall vs e,
     iterates (inclusive_range a b s) vs e -> vs = expected /\ e = ending) /\
  (s <> 0 ->
   forall v, In v (progression a b s) <->
             exists k, 0 <= k /\ v = a + k * s /\
                       ((0 < s /\ v <= b) \/ (s < 0 /\ b <= v))) /\
  progression 5 1 (-1) = [5; 4; 3; 2; 1] /\
  (0 < s -> b < a -> progression a b s = []).
Proof.
  intros expected ending.
  assert (iterates (inclusive_range a b s) expected ending) as Hrun.
  { subst expected ending. destruct (Z.eqb_spec s 0) as [-> | Hs].
    - apply iterates_raise. reflexivity.
    - apply inclusive_range_iterates_progression. exact Hs. }
  split; [exact Hrun|]. split.
  { intros vs e H. exact (iterates_deterministic _ _ _ _ _ H Hrun). }
  split; [intros Hs v; apply progression_In; exact Hs|].
  split; [reflexivity|].
  intros Hpos Hlt. unfold progression, countInRange.
  assert ((b - a) / s < 0) by (apply Z.div_lt_upper_bound; lia).
  replace (Z.to_nat ((b - a) / s + 1)) with 0%nat by lia. reflexivity.
Qed.

Lemma inclusive_range_yields_witness :
  iterates (inclusive_range 5 1 (-1)) [5; 4; 3; 2; 1] Exhausted /\
  iterates (inclusive_range 1 3 0) [] (Failed RuntimeError).
Proof.
  split.
  - exact (proj1 (inclusive_range_yields 5 1 (-1))).
  - exact (proj1 (inclusive_range_yields 1 3 0)).
Defined.

(** ** READFILE at the end of the data *)

Lemma READFILE_exhausted (name : string) (fs : Files) (handle : Handle) :
  open_files fs !! name = Some handle ->
  mode handle = "READ"%string ->
  Z.of_nat (length (default [] (vfs fs !! name))) <= pointer handle ->
  READFILE name fs = PyReturn (EmptyString, fs).
Proof.
  intros Hopen Hmode Hptr. unfold READFILE. rewrite Hopen, Hmode. simpl.
  destruct (Z.geb_spec (pointer handle)
              (Z.of_nat (length (default [] (vfs fs !! name)))));
    [reflexivity|lia].
Qed.

(** C10.  On a handle open in READ mode whose pointer is at or past the
    end of the data, [READFILE] returns the empty string, raises
    nothing and leaves the globals (the pointer among them) as they
    were; so does every further [READFILE] on that handle. *)
Theorem READFILE_past_end_returns_empty :
  forall (name : string) (fs : Files) (handle : Handle),
    open_files fs !! name = Some handle ->
    mode handle = "READ"%string ->
    Z.of_nat (length (default [] (vfs fs !! name))) <= pointer handle ->
    READFILE name fs = PyReturn (EmptyString, fs) /\
    forall n, readMany n name fs = PyReturn (repeat EmptyString n, fs).
Proof.
  intros name fs handle Hopen Hmode Hptr.
  pose proof (READFILE_exhausted name fs handle Hopen Hmode Hptr) as Hread.
  split; [exact Hread|].
  induction n as [|n IH]; simpl; [reflexivity|].
  rewrite Hread, IH. reflexivity.
Qed.

Lemma READFILE_past_end_returns_empty_witness :
  READFILE "F" twoLinesRead = PyReturn (EmptyString, twoLinesRead) /\
  readMany 3 "F" twoLinesRead
  = PyReturn ([EmptyString; EmptyString; EmptyString], twoLinesRead).
Proof.
  assert (open_files twoLinesRead !! "F"%string = Some (mkHandle "READ" 2))
    as Hopen by reflexivity.
  assert (Z.of_nat (length (default [] (vfs twoLinesRead !! "F"%string)))
          <= pointer (mkHandle "READ" 2)) as Hptr by (vm_compute; discriminate).
  destruct (READFILE_past_end_returns_empty "F" twoLinesRead
              (mkHandle "READ" 2) Hopen eq_refl Hptr) as [H1 H2].
  split; [exact H1 | exact (H2 3%nat)].
Defined.

(** ** Virtual files, arrays, input and [SUBSTRING] *)

Lemma writeMany_appends (name : string) (values : list string) :
  forall (fs : Files) (handle : Handle) (data : list string),
    open_files fs !! name = Some handle ->
    mode handle = "WRITE"%string ->
    vfs fs !! name = Some data ->
    writeMany values name fs
    = PyReturn (mkFiles (<[name := data ++ values]> (vfs fs)) (open_files fs)).
Proof.
  induction values as [|v values IH]; intros fs handle data Hopen Hmode Hdata;
    simpl.
  - rewrite app_nil_r, insert_id by exact Hdata. destruct fs; reflexivity.
  - unfold WRITEFILE. rewrite Hopen, Hmode, Hdata. simpl.
    erewrite IH; simpl; [|exact Hopen|exact Hmode|apply lookup_insert_eq].
    rewrite insert_insert_eq, <- app_assoc. reflexivity.
Qed.

Lemma readMany_takes (name : string) (data : list string) :
  forall (k : nat) (fs : Files) (p : nat),
    open_files fs !! name = Some (mkHandle "READ" (Z.of_nat p)) ->
    vfs fs !! name = Some data ->
    (p + k <= length data)%nat ->
    readMany k name fs
    = PyReturn (take k (drop p data),
                mkFiles (vfs fs)
                        (<[name := mkHandle "READ" (Z.of_nat (p + k))]>
                           (open_files fs))).
Proof.
  induction k as [|k IH]; intros fs p Hopen Hdata Hlen; simpl.
  - rewrite Nat.add_0_r, insert_id by exact Hopen. destruct fs; reflexivity.
  - unfold READFILE. rewrite Hopen, Hdata. simpl.
    destruct (Z.geb_spec (Z.of_nat p) (Z.of_nat (length data))); [lia|].
    unfold pyIndex.
    destruct (Z.leb_spec 0 (Z.of_nat p)); [|lia].
    destruct (Z.ltb_spec (Z.of_nat p) (Z.of_nat (length data))); [|lia].
    simpl. rewrite Nat2Z.id.
    destruct (data !! p) as [l|] eqn:Hl;
      [|apply lookup_ge_None in Hl; lia].
    erewrite (IH _ (S p)); simpl.
    + rewrite insert_insert_eq.
      rewrite (drop_S data l p Hl). simpl.
      replace (S (p + k))%nat with (p + S k)%nat by lia. reflexivity.
    + rewrite lookup_insert_eq. f_equal. f_equal. lia.
    + exact Hdata.
    + lia.
Qed.

(** X19.  Whatever the file held before, the lines written after
    [OPENFILE(name, 'WRITE')] are exactly what the file holds, and
    after it is closed and opened for reading, that many [READFILE]
    calls return them in the order written. *)
Theorem written_lines_are_read_back :
  forall (name : string) (values : list string) (fs : Files),
    exists written after,
      writeMany values name (OPENFILE name "WRITE" fs) = PyReturn written /\
      vfs written !! name = Some values /\
      readMany (length values) name
               (OPENFILE name "READ" (CLOSEFILE name written))
      = PyReturn (values, after).
Proof.
  intros name values fs.
  eexists. eexists. split; [|split].
  - eapply (writeMany_appends name values _ (mkHandle "WRITE" 0) []).
    + unfold OPENFILE. simpl. apply lookup_insert_eq.
    + reflexivity.
    + unfold OPENFILE. simpl. apply lookup_insert_eq.
  - simpl. apply lookup_insert_eq.
  - unfold OPENFILE, CLOSEFILE. simpl. rewrite lookup_insert_eq. simpl.
    erewrite (readMany_takes name values (length values) _ 0%nat); simpl.
    + rewrite firstn_all. reflexivity.
    + apply lookup_insert_eq.
    + apply lookup_insert_eq.
    + lia.
Qed.

(** X20.  Closing a file ends all access to it, and a handle serves one
    direction only: after [CLOSEFILE] both [READFILE] and [WRITEFILE]
    raise [RuntimeError], and so do [READFILE] on a file opened for
    writing and [WRITEFILE] on a file opened for reading, whatever the
    state before. *)
Theorem file_access_needs_handle_in_matching_mode :
  forall (name value : string) (fs : Files),
    READFILE name (CLOSEFILE name fs) = PyRaise RuntimeError /\
    WRITEFILE name value (CLOSEFILE name fs) = PyRaise RuntimeError /\
    READFILE name (OPENFILE name "WRITE" fs) = PyRaise RuntimeError /\
    WRITEFILE name value (OPENFILE name "READ" fs) = PyRaise RuntimeError.
Proof.
  intros name value fs.
  unfold READFILE, WRITEFILE, CLOSEFILE, OPENFILE. simpl.
  rewrite lookup_delete_eq, !lookup_insert_eq. simpl. repeat split.
Qed.

Lemma normalize_inBounds (index : list Z) :
  forall bounds,
    inBounds index bounds = true -> normalize index bounds = PyReturn index.
Proof.
  induction index as [|v index IH]; intros [|[lo hi] bounds] Hin;
    simpl in *; try discriminate; [reflexivity|].
  apply andb_prop in Hin as [Hv Hrest]. apply andb_prop in Hv as [Hlo Hhi].
  destruct (Z.ltb_spec v lo); [lia|].
  destruct (Z.gtb_spec v hi); [lia|]. simpl.
  rewrite (IH _ Hrest). reflexivity.
Qed.

Lemma normalize_outside (index : list Z) :
  forall bounds,
    length index = length bounds -> inBounds index bounds = false ->
    normalize index bounds = PyRaise IndexError.
Proof.
  induction index as [|v index IH]; intros [|[lo hi] bounds] Hlen Hout;
    simpl in *; try discriminate.
  destruct (Z.ltb_spec v lo); [reflexivity|].
  destruct (Z.gtb_spec v hi); [reflexivity|]. simpl.
  rewrite IH; [reflexivity|lia|].
  destruct (Z.leb_spec lo v); [|lia].
  destruct (Z.leb_spec v hi); [|lia]. exact Hout.
Qed.

Lemma inBounds_length (index : list Z) :
  forall bounds, inBounds index bounds = true -> length index = length bounds.
Proof.
  induction index as [|v index IH]; intros [|[lo hi] bounds] Hin;
    simpl in *; try discriminate; [reflexivity|].
  apply andb_prop in Hin as [_ Hrest]. rewrite (IH _ Hrest). reflexivity.
Qed.

Lemma _norm_inBounds {V} (a : PseudoArray V) (index : list Z) :
  inBounds index (_bounds a) = true -> _norm a index = PyReturn index.
Proof.
  intros Hin. unfold _norm.
  rewrite (inBounds_length _ _ Hin), Nat.eqb_refl. simpl.
  apply normalize_inBounds. exact Hin.
Qed.

Lemma _norm_outside {V} (a : PseudoArray V) (index : list Z) :
  inBounds index (_bounds a) = false -> _norm a index = PyRaise IndexError.
Proof.
  intros Hout. unfold _norm.
  destruct (Nat.eqb_spec (length index) (length (_bounds a))) as [Hlen|Hlen];
    simpl; [|reflexivity].
  apply normalize_outside; assumption.
Qed.

(** X21.  An array rejects every index that is not inside its declared
    bounds, both ends included, or that has the wrong number of
    coordinates: reading and writing raise [IndexError]. *)
Theorem PseudoArray_rejects_index_outside_bounds :
  forall (V : Type) (a : PseudoArray V) (index : list Z) (value : V),
    inBounds index (_bounds a) = false ->
    getitem a index = PyRaise IndexError /\
    setitem a index value = PyRaise IndexError.
Proof.
  intros V a index value Hout. unfold getitem, setitem.
  rewrite (_norm_outside a index Hout). split; reflexivity.
Qed.

Lemma PseudoArray_rejects_index_outside_bounds_witness :
  getitem (newPseudoArray [(1, 3)] 0) [4] = PyRaise IndexError /\
  setitem (newPseudoArray [(1, 3)] 0) [4] 7 = PyRaise IndexError.
Proof.
  apply (PseudoArray_rejects_index_outside_bounds Z (newPseudoArray [(1, 3)] 0)
           [4] 7).
  reflexivity.
Defined.

(** X22.  Inside the bounds an array behaves like a table with a
    default: a cell never written reads as the default value, a cell
    reads as the last value stored in it, and storing into one cell
    changes no other cell, nor the bounds or the default. *)
Theorem PseudoArray_returns_last_value_stored :
  forall (V : Type) (a : PseudoArray V) (i j : list Z) (value : V),
    inBounds i (_bounds a) = true ->
    inBounds j (_bounds a) = true ->
    getitem a i = PyReturn (default (_default a) (_store a !! i)) /\
    exists a',
      setitem a i value = PyReturn a' /\
      _bounds a' = _bounds a /\
      _default a' = _default a /\
      getitem a' i = PyReturn value /\
      getitem a' j = if decide (i = j) then PyReturn value else getitem a j.
Proof.
  intros V a i j value Hi Hj. unfold getitem, setitem.
  rewrite (_norm_inBounds a i Hi). split; [reflexivity|].
  eexists. split; [reflexivity|]. split; [reflexivity|].
  split; [reflexivity|].
  rewrite !_norm_inBounds by assumption. simpl.
  rewrite lookup_insert_eq. split; [reflexivity|].
  destruct (decide (i = j)) as [<-|Hne].
  - rewrite lookup_insert_eq. reflexivity.
  - rewrite lookup_insert_ne by exact Hne. reflexivity.
Qed.

Lemma PseudoArray_returns_last_value_stored_witness :
  getitem (newPseudoArray [(1, 3); (0, 1)] 0) [2; 1] = PyReturn 0 /\
  exists a',
    setitem (newPseudoArray [(1, 3); (0, 1)] 0) [2; 1] 7 = PyReturn a' /\
    _bounds a' = [(1, 3); (0, 1)] /\
    _default a' = 0 /\
    getitem a' [2; 1] = PyReturn 7 /\
    getitem a' [3; 0] = PyReturn 0.
Proof.
  apply (PseudoArray_returns_last_value_stored Z
           (newPseudoArray [(1, 3); (0, 1)] 0) [2; 1] [3; 0] 7);
    reflexivity.
Defined.

Lemma inputMany_takes (lines : list string) :
  forall (k p : nat),
    (p + k <= length lines)%nat ->
    inputMany k (mkStdin lines (Z.of_nat p))
    = PyReturn (take k (drop p lines), mkStdin lines (Z.of_nat (p + k))).
Proof.
  induction k as [|k IH]; intros p Hlen; simpl.
  - rewrite Nat.add_0_r. reflexivity.
  - unfold input. simpl.
    destruct (Z.geb_spec (Z.of_nat p) (Z.of_nat (length lines))); [lia|].
    unfold pyIndex.
    destruct (Z.leb_spec 0 (Z.of_nat p)); [|lia].
    destruct (Z.ltb_spec (Z.of_nat p) (Z.of_nat (length lines))); [|lia].
    simpl. rewrite Nat2Z.id.
    destruct (lines !! p) as [l|] eqn:Hl;
      [|apply lookup_ge_None in Hl; lia].
    replace (Z.of_nat p + 1) with (Z.of_nat (S p)) by lia.
    rewrite IH by lia.
    rewrite (drop_S lines l p Hl). simpl.
    replace (S (p + k))%nat with (p + S k)%nat by lia. reflexivity.
Qed.

(** X23.  [__input] hands out the lines of standard input one by one
    in their order: as many calls as there are lines return exactly
    the lines, and the next call raises [RuntimeError]. *)
Theorem input_returns_stdin_lines_in_order :
  forall (lines : list string),
    inputMany (length lines) (mkStdin lines 0)
    = PyReturn (lines, mkStdin lines (Z.of_nat (length lines))) /\
    input (mkStdin lines (Z.of_nat (length lines))) = PyRaise RuntimeError.
Proof.
  intros lines. split.
  - change 0 with (Z.of_nat 0).
    rewrite (inputMany_takes lines (length lines) 0%nat) by lia.
    simpl. rewrite firstn_all. reflexivity.
  - unfold input. simpl.
    destruct (Z.geb_spec (Z.of_nat (length lines)) (Z.of_nat (length lines)));
      [reflexivity|lia].
Qed.

(** X24.  [SUBSTRING(text, start, length)] counts positions from one:
    for a length that is not negative it returns the [length]
    characters from position [start] on, fewer when the text ends
    first and none when [start] lies beyond the end; a [start] below
    one is read as one. *)
Theorem SUBSTRING_counts_from_one :
  forall (C : Type) (text : list C) (start length : Z),
    0 <= length ->
    SUBSTRING text start length
    = take (Z.to_nat length) (drop (Z.to_nat (Z.max start 1 - 1)) text).
Proof.
  intros C text start len Hlen. unfold SUBSTRING, pySlice, sliceBound.
  set (n := Z.of_nat (List.length text)).
  assert (0 <= n) as Hn by (unfold n; lia).
  set (s := if start <? 1 then 1 else start).
  assert (s = Z.max start 1) as ->
    by (unfold s; destruct (Z.ltb_spec start 1); lia).
  set (b := Z.max start 1 - 1).
  assert (0 <= b) as Hb by (unfold b; lia).
  destruct (Z.ltb_spec b 0); [lia|].
  destruct (Z.ltb_spec (b + len) 0); [lia|].
  destruct (Z.le_gt_cases b n) as [Hle|Hgt].
  - rewrite (Z.min_l b n) by lia.
    destruct (Z.le_gt_cases (b + len) n) as [Hle2|Hgt2].
    + rewrite Z.min_l by lia. f_equal. f_equal. lia.
    + rewrite Z.min_r by lia.
      rewrite !take_ge; try reflexivity;
        rewrite length_drop; unfold n in *; lia.
  - rewrite (Z.min_r b n) by lia.
    rewrite (drop_ge text (Z.to_nat n)) by (unfold n; lia).
    rewrite (drop_ge text (Z.to_nat b)) by (unfold n in *; lia).
    rewrite !take_nil. reflexivity.
Qed.

Lemma SUBSTRING_counts_from_one_witness :
  SUBSTRING ["p"; "s"; "e"; "u"; "d"; "o"]%char 4 5 = ["u"; "d"; "o"]%char.
Proof.
  apply (SUBSTRING_counts_from_one Ascii.ascii
           ["p"; "s"; "e"; "u"; "d"; "o"]%char 4 5).
  lia.
Defined.

End RuntimeFacts.
